(** * PyB4ML: Belief Propagation and Bucket Elimination in log space

    A shallow embedding of
      - [pyb4ml/inference/factored/belief_propagation.py] (class [BP]) and
      - [pyb4ml/inference/factored/bucket.py]             (class [Bucket]),
    followed by the properties of the message-passing engine.

    Conventions of the embedding.
      - Python floats are idealised as real numbers: [math.fsum] is the exact
        sum, [math.exp] is [exp], [math.log] is [ln] on the positive reals and
        raises a [ValueError] ("math domain error") elsewhere; rounding,
        overflow and underflow are not modelled.
      - Variable and Factor objects live in a heap addressed by references
        ([var_id], [factor_id]); the engine mutates their traversal fields in
        place, so the heap is part of the engine state.
      - An exception leaves the engine in the state reached when it was
        raised: a computation is a function [BP -> result A * BP].
      - The [while] loop of [BP.run] has no bound in the source; it is run
        with fuel, and [None] stands for "has not returned yet". *)

From Stdlib Require Import Reals Lra Lia ZArith.
From Stdlib Require OrderedTypeEx.
From stdpp Require Import strings gmap functions list sorting.

(** ** Exceptions and the result monad *)

Inductive validation_error :=
| EmptyQuery
| NotOneVariableQuery
| QueryEvidenceIntersection.

Inductive value_error :=
| MathDomain        (* math.log of a non-positive number *)
| EmptySequence     (* max() of an empty sequence *)
| Unpack.           (* [x, = gen] with a number of items other than one *)

Inductive error :=
| ValidationError (e : validation_error)
| ValueError (e : value_error)
| KeyError
| IndexError
| ZeroDivisionError
| AttributeError          (* a field of [None] is read *)
| CacheConsistencyError   (* a requested message is not in the store *)
| WriteOnceError.         (* a message is cached a second time *)

Inductive result (A : Type) :=
| Ok (a : A)
| Err (e : error).
Arguments Ok {A} a.
Arguments Err {A} e.

#[global] Instance result_ret : MRet result := fun A a => Ok a.
#[global] Instance result_bind : MBind result := fun A B f m =>
  match m with
  | Ok a => f a
  | Err e => Err e
  end.

Definition of_option {A} (e : error) (o : option A) : result A :=
  match o with
  | Some a => Ok a
  | None => Err e
  end.

(** ** Python dictionaries with insertion order *)

Section Dict.
Context {K V : Type} `{EqDecision K}.

Fixpoint dict_get (d : list (K * V)) (k : K) : option V :=
  match d with
  | [] => None
  | (k', v) :: d' => if decide (k = k') then Some v else dict_get d' k
  end.

(** [d[k] = v]: an existing key keeps its position. *)
Fixpoint dict_set (d : list (K * V)) (k : K) (v : V) : list (K * V) :=
  match d with
  | [] => [(k, v)]
  | (k', v') :: d' =>
      if decide (k = k') then (k', v) :: d' else (k', v') :: dict_set d' k v
  end.

Definition dict_values (d : list (K * V)) : list V := d.*2.
Definition dict_keys (d : list (K * V)) : list K := d.*1.
End Dict.

(** [{key k: f k for k in keys}], evaluated left to right; the first
    exception raised by [f] aborts the comprehension. *)
Fixpoint dict_comp_from {K K' V : Type} `{EqDecision K'} (acc : list (K' * V))
    (key : K → K') (f : K → result V) (keys : list K) : result (list (K' * V)) :=
  match keys with
  | [] => Ok acc
  | k :: ks => v ← f k; dict_comp_from (dict_set acc (key k) v) key f ks
  end.

Definition dict_comp {K K' V : Type} `{EqDecision K'} (key : K → K')
    (f : K → result V) (keys : list K) : result (list (K' * V)) :=
  dict_comp_from [] key f keys.

(** ** The [math] module over the reals *)

Definition fsum (l : list R) : R := foldr Rplus 0%R l.

Definition math_exp (x : R) : R := exp x.

Definition math_log (x : R) : result R :=
  if Rlt_dec 0 x then Ok (ln x) else Err (ValueError MathDomain).

(** Python's [/] on floats. *)
Definition truediv (x y : R) : result R :=
  if Req_dec_T y 0 then Err ZeroDivisionError else Ok (x / y)%R.

(** Python's [max] of a sequence. *)
Definition py_max (l : list R) : result R :=
  match l with
  | [] => Err (ValueError EmptySequence)
  | x :: l' => Ok (foldl Rmax x l')
  end.

(** Python's [sorted(l, key=key)] for keys that are strings.  [sorted] is
    stable, so its result is determined by the list and the keys; it is
    computed here by insertion, the strings compared lexicographically. *)
Fixpoint insert_sorted {A} (key : A → string) (x : A) (l : list A) : list A :=
  match l with
  | [] => [x]
  | y :: l' => if String.leb (key x) (key y) then x :: l else y :: insert_sorted key x l'
  end.

Definition py_sorted {A} (key : A → string) (l : list A) : list A :=
  foldr (insert_sorted key) [] l.

(** ** The graph model: variables, factors, messages

    The classes [Variable], [Factor], [Message] and [Messages] are used by
    the two modules but defined elsewhere in the package; they are modelled
    here from their documented interface. *)

Abbreviation value := Z (only parsing).
Abbreviation var_id := nat (only parsing).
Abbreviation factor_id := nat (only parsing).
(** A tuple of [(variable, value)] pairs. *)
Abbreviation binding := (list (nat * Z)) (only parsing).

(** Modelled from the spec: class [Variable] -- a name, an ordered finite
    domain, the incident factors, an evidence flag with the observed value
    ([None] when the variable is not evidentiary) and the two traversal
    fields [passed] and [incoming_messages_number]. *)
Record variable := {
  var_name : string;
  domain : list value;
  var_factors : list factor_id;
  evidential_value : option value;
  var_passed : bool;
  var_incoming_messages_number : nat
}.

Definition factors_number (x : variable) : nat := length (var_factors x).
Definition is_evidential (x : variable) : bool := bool_decide (is_Some (evidential_value x)).

(** Modelled from the spec: class [Factor] -- a name, an ordered tuple of
    incident variables, a function of the values of these variables (in that
    order), the evidentiary variables it was built with, and the two
    traversal fields. *)
Record factor := {
  fac_name : string;
  fac_variables : list var_id;
  function : list value → result R;
  fac_evidence : list var_id;
  fac_passed : bool;
  fac_incoming_messages_number : nat
}.

Definition variables_number (f : factor) : nat := length (fac_variables f).

(** Modelled from the spec: [Factor.__call__], evaluation at a full or
    partial binding.  Every variable of the factor takes the value the
    binding gives it; a variable the binding leaves out takes its observed
    value when it is evidentiary, and is a [KeyError] otherwise. *)
Definition factor_call (heap : var_id → variable) (f : factor) (b : binding) : result R :=
  vals ← mapM (fun x =>
                 match dict_get b x with
                 | Some v => Ok v
                 | None => of_option KeyError (evidential_value (heap x))
                 end) (fac_variables f);
  function f vals.

(** Modelled from the spec: [Factor.filter_values], the part of a binding
    that concerns the factor's own variables. *)
Definition filter_values (f : factor) (b : binding) : binding :=
  filter (fun p => p.1 ∈ fac_variables f) b.

(** Modelled from the spec: [Variable.split_evidential_and_non_evidential_variables],
    the evidentiary and the free variables among [vars], those of [without]
    left out, each in the order of [vars]. *)
Definition split_evidential_and_non_evidential_variables (heap : var_id → variable)
    (vars without : list var_id) : list var_id * list var_id :=
  let rest := filter (fun x => x ∉ without) vars in
  (filter (fun x => is_evidential (heap x) = true) rest,
   filter (fun x => is_evidential (heap x) = false) rest).

(** Modelled from the spec: [Variable.evaluate_variables], the cross product
    of the domains, in the order of [itertools.product]. *)
Fixpoint product (doms : list (list value)) : list (list value) :=
  match doms with
  | [] => [[]]
  | d :: ds => v ← d; vs ← product ds; [v :: vs]
  end.

Definition evaluate_variables (heap : var_id → variable) (vars : list var_id)
    : list (list value) :=
  product (map (fun x => domain (heap x)) vars).

(** Modelled from the spec: class [Message] -- origin, destination and the
    logarithmic message values, one per value of a domain. *)
Record Message := {
  from_node : nat;
  to_node : nat;
  values : list (value * R)
}.

(** [message(value)] *)
Definition Message_call (m : Message) (v : value) : result R :=
  of_option KeyError (dict_get (values m) v).

(** Modelled from the spec: class [Messages] (the Message Store of one
    evidence), with [contains], the write-once [cache] and the batch
    retrieval [get_from_nodes_to_node], which fails when a message is
    missing. *)
Abbreviation Messages := (gmap (nat * nat) Message) (only parsing).

Definition Messages_contains (ms : Messages) (from to : nat) : bool :=
  bool_decide (is_Some (ms !! (from, to))).

Definition Messages_cache (ms : Messages) (m : Message) : result Messages :=
  if Messages_contains ms (from_node m) (to_node m) then Err WriteOnceError
  else Ok (<[(from_node m, to_node m) := m]> ms).

Definition Messages_get_from_nodes_to_node (ms : Messages) (from_nodes : list nat)
    (to : nat) : result (list Message) :=
  mapM (fun n => of_option CacheConsistencyError (ms !! (n, to))) from_nodes.

(** ** The engine state

    The fields of a [BP] object (those of its base class [FactoredAlgorithm]
    included) together with the heap of the node objects it works on.  The
    [computed] field is a ghost trace: it records, in order, every message
    that a [_compute_*] method has built and cached; the source has no such
    field. *)

Inductive direction := FactorToVariable | VariableToFactor.

(** direction, evidence, origin, destination *)
Abbreviation message_key := (direction * list (nat * Z) * nat * nat)%type (only parsing).

Record BP := {
  (* the heap of Variable and Factor objects of the graph model *)
  var_obj : var_id → variable;
  fac_obj : factor_id → factor;
  (* FactoredAlgorithm: the nodes and leaves of the model, query, evidence *)
  variables : list var_id;
  factors : list factor_id;
  factor_leaves : list factor_id;
  variable_leaves : list var_id;
  _query : list var_id;
  _evidence : list var_id;
  _distribution : option (list (list value * R));
  _loop_passing : nat;
  (* BP: the caches of node-to-node messages, keyed by evidence *)
  _factor_to_variable_messages : gmap binding Messages;
  _variable_to_factor_messages : gmap binding Messages;
  _query_variable : option var_id;
  _evidence_tuples : binding;
  _print_info : bool;
  (* BP: temporary buffers *)
  _from_factors : list factor_id;
  _next_factors : list factor_id;
  _from_variables : list var_id;
  _next_variables : list var_id;
  (* ghost: the messages built and cached so far, oldest first *)
  computed : list message_key
}.

(** Field assignment, [self.field = x]. *)
Definition set_var_obj (x : var_id → variable) (s : BP) : BP :=
  {| var_obj := x;
     fac_obj := fac_obj s;
     variables := variables s;
     factors := factors s;
     factor_leaves := factor_leaves s;
     variable_leaves := variable_leaves s;
     _query := _query s;
     _evidence := _evidence s;
     _distribution := _distribution s;
     _loop_passing := _loop_passing s;
     _factor_to_variable_messages := _factor_to_variable_messages s;
     _variable_to_factor_messages := _variable_to_factor_messages s;
     _query_variable := _query_variable s;
     _evidence_tuples := _evidence_tuples s;
     _print_info := _print_info s;
     _from_factors := _from_factors s;
     _next_factors := _next_factors s;
     _from_variables := _from_variables s;
     _next_variables := _next_variables s;
     computed := computed s |}.

Definition set_fac_obj (x : factor_id → factor) (s : BP) : BP :=
  {| var_obj := var_obj s;
     fac_obj := x;
     variables := variables s;
     factors := factors s;
     factor_leaves := factor_leaves s;
     variable_leaves := variable_leaves s;
     _query := _query s;
     _evidence := _evidence s;
     _distribution := _distribution s;
     _loop_passing := _loop_passing s;
     _factor_to_variable_messages := _factor_to_variable_messages s;
     _variable_to_factor_messages := _variable_to_factor_messages s;
     _query_variable := _query_variable s;
     _evidence_tuples := _evidence_tuples s;
     _print_info := _print_info s;
     _from_factors := _from_factors s;
     _next_factors := _next_factors s;
     _from_variables := _from_variables s;
     _next_variables := _next_variables s;
     computed := computed s |}.

Definition set_distribution (x : option (list (list value * R))) (s : BP) : BP :=
  {| var_obj := var_obj s;
     fac_obj := fac_obj s;
     variables := variables s;
     factors := factors s;
     factor_leaves := factor_leaves s;
     variable_leaves := variable_leaves s;
     _query := _query s;
     _evidence := _evidence s;
     _distribution := x;
     _loop_passing := _loop_passing s;
     _factor_to_variable_messages := _factor_to_variable_messages s;
     _variable_to_factor_messages := _variable_to_factor_messages s;
     _query_variable := _query_variable s;
     _evidence_tuples := _evidence_tuples s;
     _print_info := _print_info s;
     _from_factors := _from_factors s;
     _next_factors := _next_factors s;
     _from_variables := _from_variables s;
     _next_variables := _next_variables s;
     computed := computed s |}.

Definition set_loop_passing (x : nat) (s : BP) : BP :=
  {| var_obj := var_obj s;
     fac_obj := fac_obj s;
     variables := variables s;
     factors := factors s;
     factor_leaves := factor_leaves s;
     variable_leaves := variable_leaves s;
     _query := _query s;
     _evidence := _evidence s;
     _distribution := _distribution s;
     _loop_passing := x;
     _factor_to_variable_messages := _factor_to_variable_messages s;
     _variable_to_factor_messages := _variable_to_factor_messages s;
     _query_variable := _query_variable s;
     _evidence_tuples := _evidence_tuples s;
     _print_info := _print_info s;
     _from_factors := _from_factors s;
     _next_factors := _next_factors s;
     _from_variables := _from_variables s;
     _next_variables := _next_variables s;
     computed := computed s |}.

Definition set_factor_to_variable_messages (x : gmap binding Messages) (s : BP) : BP :=
  {| var_obj := var_obj s;
     fac_obj := fac_obj s;
     variables := variables s;
     factors := factors s;
     factor_leaves := factor_leaves s;
     variable_leaves := variable_leaves s;
     _query := _query s;
     _evidence := _evidence s;
     _distribution := _distribution s;
     _loop_passing := _loop_passing s;
     _factor_to_variable_messages := x;
     _variable_to_factor_messages := _variable_to_factor_messages s;
     _query_variable := _query_variable s;
     _evidence_tuples := _evidence_tuples s;
     _print_info := _print_info s;
     _from_factors := _from_factors s;
     _next_factors := _next_factors s;
     _from_variables := _from_variables s;
     _next_variables := _next_variables s;
     computed := computed s |}.

Definition set_variable_to_factor_messages (x : gmap binding Messages) (s : BP) : BP :=
  {| var_obj := var_obj s;
     fac_obj := fac_obj s;
     variables := variables s;
     factors := factors s;
     factor_leaves := factor_leaves s;
     variable_leaves := variable_leaves s;
     _query := _query s;
     _evidence := _evidence s;
     _distribution := _distribution s;
     _loop_passing := _loop_passing s;
     _factor_to_variable_messages := _factor_to_variable_messages s;
     _variable_to_factor_messages := x;
     _query_variable := _query_variable s;
     _evidence_tuples := _evidence_tuples s;
     _print_info := _print_info s;
     _from_factors := _from_factors s;
     _next_factors := _next_factors s;
     _from_variables := _from_variables s;
     _next_variables := _next_variables s;
     computed := computed s |}.

Definition set_query_variable (x : option var_id) (s : BP) : BP :=
  {| var_obj := var_obj s;
     fac_obj := fac_obj s;
     variables := variables s;
     factors := factors s;
     factor_leaves := factor_leaves s;
     variable_leaves := variable_leaves s;
     _query := _query s;
     _evidence := _evidence s;
     _distribution := _distribution s;
     _loop_passing := _loop_passing s;
     _factor_to_variable_messages := _factor_to_variable_messages s;
     _variable_to_factor_messages := _variable_to_factor_messages s;
     _query_variable := x;
     _evidence_tuples := _evidence_tuples s;
     _print_info := _print_info s;
     _from_factors := _from_factors s;
     _next_factors := _next_factors s;
     _from_variables := _from_variables s;
     _next_variables := _next_variables s;
     computed := computed s |}.

Definition set_print_info (x : bool) (s : BP) : BP :=
  {| var_obj := var_obj s;
     fac_obj := fac_obj s;
     variables := variables s;
     factors := factors s;
     factor_leaves := factor_leaves s;
     variable_leaves := variable_leaves s;
     _query := _query s;
     _evidence := _evidence s;
     _distribution := _distribution s;
     _loop_passing := _loop_passing s;
     _factor_to_variable_messages := _factor_to_variable_messages s;
     _variable_to_factor_messages := _variable_to_factor_messages s;
     _query_variable := _query_variable s;
     _evidence_tuples := _evidence_tuples s;
     _print_info := x;
     _from_factors := _from_factors s;
     _next_factors := _next_factors s;
     _from_variables := _from_variables s;
     _next_variables := _next_variables s;
     computed := computed s |}.

Definition set_from_factors (x : list factor_id) (s : BP) : BP :=
  {| var_obj := var_obj s;
     fac_obj := fac_obj s;
     variables := variables s;
     factors := factors s;
     factor_leaves := factor_leaves s;
     variable_leaves := variable_leaves s;
     _query := _query s;
     _evidence := _evidence s;
     _distribution := _distribution s;
     _loop_passing := _loop_passing s;
     _factor_to_variable_messages := _factor_to_variable_messages s;
     _variable_to_factor_messages := _variable_to_factor_messages s;
     _query_variable := _query_variable s;
     _evidence_tuples := _evidence_tuples s;
     _print_info := _print_info s;
     _from_factors := x;
     _next_factors := _next_factors s;
     _from_variables := _from_variables s;
     _next_variables := _next_variables s;
     computed := computed s |}.

Definition set_next_factors (x : list factor_id) (s : BP) : BP :=
  {| var_obj := var_obj s;
     fac_obj := fac_obj s;
     variables := variables s;
     factors := factors s;
     factor_leaves := factor_leaves s;
     variable_leaves := variable_leaves s;
     _query := _query s;
     _evidence := _evidence s;
     _distribution := _distribution s;
     _loop_passing := _loop_passing s;
     _factor_to_variable_messages := _factor_to_variable_messages s;
     _variable_to_factor_messages := _variable_to_factor_messages s;
     _query_variable := _query_variable s;
     _evidence_tuples := _evidence_tuples s;
     _print_info := _print_info s;
     _from_factors := _from_factors s;
     _next_factors := x;
     _from_variables := _from_variables s;
     _next_variables := _next_variables s;
     computed := computed s |}.

Definition set_from_variables (x : list var_id) (s : BP) : BP :=
  {| var_obj := var_obj s;
     fac_obj := fac_obj s;
     variables := variables s;
     factors := factors s;
     factor_leaves := factor_leaves s;
     variable_leaves := variable_leaves s;
     _query := _query s;
     _evidence := _evidence s;
     _distribution := _distribution s;
     _loop_passing := _loop_passing s;
     _factor_to_variable_messages := _factor_to_variable_messages s;
     _variable_to_factor_messages := _variable_to_factor_messages s;
     _query_variable := _query_variable s;
     _evidence_tuples := _evidence_tuples s;
     _print_info := _print_info s;
     _from_factors := _from_factors s;
     _next_factors := _next_factors s;
     _from_variables := x;
     _next_variables := _next_variables s;
     computed := computed s |}.

Definition set_next_variables (x : list var_id) (s : BP) : BP :=
  {| var_obj := var_obj s;
     fac_obj := fac_obj s;
     variables := variables s;
     factors := factors s;
     factor_leaves := factor_leaves s;
     variable_leaves := variable_leaves s;
     _query := _query s;
     _evidence := _evidence s;
     _distribution := _distribution s;
     _loop_passing := _loop_passing s;
     _factor_to_variable_messages := _factor_to_variable_messages s;
     _variable_to_factor_messages := _variable_to_factor_messages s;
     _query_variable := _query_variable s;
     _evidence_tuples := _evidence_tuples s;
     _print_info := _print_info s;
     _from_factors := _from_factors s;
     _next_factors := _next_factors s;
     _from_variables := _from_variables s;
     _next_variables := x;
     computed := computed s |}.

Definition set_computed (x : list message_key) (s : BP) : BP :=
  {| var_obj := var_obj s;
     fac_obj := fac_obj s;
     variables := variables s;
     factors := factors s;
     factor_leaves := factor_leaves s;
     variable_leaves := variable_leaves s;
     _query := _query s;
     _evidence := _evidence s;
     _distribution := _distribution s;
     _loop_passing := _loop_passing s;
     _factor_to_variable_messages := _factor_to_variable_messages s;
     _variable_to_factor_messages := _variable_to_factor_messages s;
     _query_variable := _query_variable s;
     _evidence_tuples := _evidence_tuples s;
     _print_info := _print_info s;
     _from_factors := _from_factors s;
     _next_factors := _next_factors s;
     _from_variables := _from_variables s;
     _next_variables := _next_variables s;
     computed := x |}.

(** ** The engine monad: state with exceptions *)

Definition M (A : Type) : Type := BP → result A * BP.

#[global] Instance M_ret : MRet M := fun A a s => (Ok a, s).
#[global] Instance M_bind : MBind M := fun A B f m s =>
  match m s with
  | (Ok a, s') => f a s'
  | (Err e, s') => (Err e, s')
  end.

Definition get : M BP := fun s => (Ok s, s).
Definition modify (f : BP → BP) : M unit := fun s => (Ok tt, f s).
Definition lift {A} (r : result A) : M A := fun s => (r, s).
Definition raise {A} (e : error) : M A := fun s => (Err e, s).

(** [for x in l: body x] *)
Fixpoint for_each {A} (l : list A) (body : A → M unit) : M unit :=
  match l with
  | [] => mret tt
  | x :: l' => body x;; for_each l' body
  end.

(** [x, = l]: exactly one item. *)
Definition unpack_one {A} (l : list A) : result A :=
  match l with
  | [x] => Ok x
  | _ => Err (ValueError Unpack)
  end.

(** ** Mutation of the traversal fields of a node *)

Definition set_var_passed (b : bool) (x : variable) : variable :=
  {| var_name := var_name x; domain := domain x; var_factors := var_factors x;
     evidential_value := evidential_value x; var_passed := b;
     var_incoming_messages_number := var_incoming_messages_number x |}.

Definition set_var_incoming_messages_number (n : nat) (x : variable) : variable :=
  {| var_name := var_name x; domain := domain x; var_factors := var_factors x;
     evidential_value := evidential_value x; var_passed := var_passed x;
     var_incoming_messages_number := n |}.

Definition set_fac_passed (b : bool) (f : factor) : factor :=
  {| fac_name := fac_name f; fac_variables := fac_variables f; function := function f;
     fac_evidence := fac_evidence f; fac_passed := b;
     fac_incoming_messages_number := fac_incoming_messages_number f |}.

Definition set_fac_incoming_messages_number (n : nat) (f : factor) : factor :=
  {| fac_name := fac_name f; fac_variables := fac_variables f; function := function f;
     fac_evidence := fac_evidence f; fac_passed := fac_passed f;
     fac_incoming_messages_number := n |}.

(** In-place update of the object behind a reference. *)
Definition update_var (x : var_id) (f : variable → variable) : M unit :=
  modify (fun s => set_var_obj (<[x := f (var_obj s x)]> (var_obj s)) s).

Definition update_fac (a : factor_id) (f : factor → factor) : M unit :=
  modify (fun s => set_fac_obj (<[a := f (fac_obj s a)]> (fac_obj s)) s).

(** ** Class [FactoredAlgorithm]: the checks of the query *)

(** Modelled from the spec: [FactoredAlgorithm.check_non_empty_query]. *)
Definition check_non_empty_query : M unit :=
  s ← get;
  if decide (_query s = []) then raise (ValidationError EmptyQuery) else mret tt.

(** Modelled from the spec: [FactoredAlgorithm.check_one_variable_query]. *)
Definition check_one_variable_query : M unit :=
  s ← get;
  if decide (length (_query s) = 1) then mret tt
  else raise (ValidationError NotOneVariableQuery).

(** Modelled from the spec: [FactoredAlgorithm.check_query_and_evidence_intersection]. *)
Definition check_query_and_evidence_intersection : M unit :=
  s ← get;
  if decide (Exists (fun x => x ∈ _evidence s) (_query s))
  then raise (ValidationError QueryEvidenceIntersection) else mret tt.

(** Printing is outside the model: [_print_start], [_print_stop],
    [_print_loop] and [_print_message] only write to the console. *)
Definition _print_start : M unit := mret tt.
Definition _print_stop : M unit := mret tt.
Definition _print_loop : M unit := mret tt.
Definition _print_message (m : Message) : M unit := mret tt.

(** ** Class [BP] *)

(** [BP._update_passing], from a factor to a variable. *)
Definition _update_passing_from_factor (from_node : factor_id) (to_node : var_id) : M unit :=
  update_fac from_node (set_fac_passed true);;
  update_var to_node (fun x =>
    set_var_incoming_messages_number (var_incoming_messages_number x + 1) x).

(** [BP._update_passing], from a variable to a factor. *)
Definition _update_passing_from_variable (from_node : var_id) (to_node : factor_id) : M unit :=
  update_var from_node (set_var_passed true);;
  update_fac to_node (fun f =>
    set_fac_incoming_messages_number (fac_incoming_messages_number f + 1) f).


(** [self._factor_to_variable_messages[self._evidence_tuples]] *)
Definition factor_to_variable_store : M Messages :=
  s ← get;
  lift (of_option KeyError (_factor_to_variable_messages s !! _evidence_tuples s)).

(** [self._variable_to_factor_messages[self._evidence_tuples]] *)
Definition variable_to_factor_store : M Messages :=
  s ← get;
  lift (of_option KeyError (_variable_to_factor_messages s !! _evidence_tuples s)).

(** [self._factor_to_variable_messages[self._evidence_tuples].cache(message)];
    the [Messages] object is updated in place. *)
Definition cache_factor_to_variable (m : Message) : M unit :=
  ms ← factor_to_variable_store;
  ms' ← lift (Messages_cache ms m);
  modify (fun s =>
    set_computed (computed s ++ [(FactorToVariable, _evidence_tuples s, from_node m, to_node m)])
      (set_factor_to_variable_messages
         (<[_evidence_tuples s := ms']> (_factor_to_variable_messages s)) s)).

Definition cache_variable_to_factor (m : Message) : M unit :=
  ms ← variable_to_factor_store;
  ms' ← lift (Messages_cache ms m);
  modify (fun s =>
    set_computed (computed s ++ [(VariableToFactor, _evidence_tuples s, from_node m, to_node m)])
      (set_variable_to_factor_messages
         (<[_evidence_tuples s := ms']> (_variable_to_factor_messages s)) s)).

(** [msg(val) for msg, val in zip(messages, vals)] *)
Definition zip_calls (messages : list Message) (vals : list value) : result (list R) :=
  mapM (fun p => Message_call p.1 p.2) (zip messages vals).

Definition _compute_distribution : M unit :=
  s ← get;
  q ← lift (of_option AttributeError (_query_variable s));
  ms ← factor_to_variable_store;
  factor_to_query_messages ←
    lift (Messages_get_from_nodes_to_node ms (var_factors (var_obj s q)) q);
  nn_values ← lift (dict_comp (fun v : value => v)
    (fun v : value => xs ← mapM (fun m => Message_call m v) factor_to_query_messages;
              mret (math_exp (fsum xs)))
    (domain (var_obj s q)));
  terms ← lift (mapM (fun v => of_option KeyError (dict_get nn_values v)) (domain (var_obj s q)));
  let norm_const := fsum terms in
  distribution ← lift (dict_comp (fun v : value => [v])
    (fun v : value => x ← of_option KeyError (dict_get nn_values v); truediv x norm_const)
    (domain (var_obj s q)));
  modify (set_distribution (Some distribution));;
  update_var q (set_var_passed true).

Definition _compute_factor_to_variable_message_from_leaf
    (from_factor : factor_id) (to_variable : var_id) : M unit :=
  ms ← factor_to_variable_store;
  if Messages_contains ms from_factor to_variable then mret tt else
  s ← get;
  values ← lift (dict_comp (fun v : value => v)
    (fun v : value => x ← factor_call (var_obj s) (fac_obj s from_factor) [(to_variable, v)];
              math_log x)
    (domain (var_obj s to_variable)));
  let message := {| from_node := from_factor; to_node := to_variable; values := values |} in
  cache_factor_to_variable message;;
  _print_message message.

(** [max(message(value) for message in messages for value in
    message.from_node.domain) if len(messages) > 0 else 0] *)
Definition max_of_messages (heap : var_id → variable) (messages : list Message) : result R :=
  if decide (0 < length messages) then
    xs ← mapM (fun m => mapM (fun v => Message_call m v) (domain (heap (from_node m)))) messages;
    py_max (concat xs)
  else Ok 0%R.

Definition _compute_factor_to_variable_message_not_from_leaf
    (from_factor : factor_id) (to_variable : var_id) : M unit :=
  ms ← factor_to_variable_store;
  if Messages_contains ms from_factor to_variable then mret tt else
  s ← get;
  let split := split_evidential_and_non_evidential_variables (var_obj s)
                 (fac_variables (fac_obj s from_factor)) [to_variable] in
  let from_evidential_variables := split.1 in
  let from_non_evidential_variables := split.2 in
  vf ← variable_to_factor_store;
  evidential_messages ←
    lift (Messages_get_from_nodes_to_node vf from_evidential_variables from_factor);
  non_evidential_messages ←
    lift (Messages_get_from_nodes_to_node vf from_non_evidential_variables from_factor);
  max_message ← lift (max_of_messages (var_obj s) non_evidential_messages);
  from_evidential_variables_values ←
    lift (mapM (fun x => of_option IndexError (head (domain (var_obj s x))))
            from_evidential_variables);
  evidential_terms ← lift (zip_calls evidential_messages from_evidential_variables_values);
  let evidential_messages_sum := fsum evidential_terms in
  let evaluated_non_evidential_variables_values :=
    evaluate_variables (var_obj s) from_non_evidential_variables in
  values ← lift (dict_comp (fun v : value => v)
    (fun v : value =>
       terms ← mapM (fun non_evidential_variables_values =>
                  fv ← factor_call (var_obj s) (fac_obj s from_factor)
                         (zip from_non_evidential_variables non_evidential_variables_values
                            ++ [(to_variable, v)]);
                  xs ← zip_calls non_evidential_messages non_evidential_variables_values;
                  mret (fv * math_exp (fsum xs - max_message))%R)
                evaluated_non_evidential_variables_values;
       l ← math_log (fsum terms);
       mret (evidential_messages_sum + max_message + l)%R)
    (domain (var_obj s to_variable)));
  let message := {| from_node := from_factor; to_node := to_variable; values := values |} in
  cache_factor_to_variable message;;
  _print_message message.

Definition _compute_variable_to_factor_message_from_leaf
    (from_variable : var_id) (to_factor : factor_id) : M unit :=
  ms ← variable_to_factor_store;
  if Messages_contains ms from_variable to_factor then mret tt else
  s ← get;
  values ← lift (dict_comp (fun v : value => v) (fun _ : value => Ok 0%R) (domain (var_obj s from_variable)));
  let message := {| from_node := from_variable; to_node := to_factor; values := values |} in
  cache_variable_to_factor message;;
  _print_message message.

Definition _compute_variable_to_factor_message_not_from_leaf
    (from_variable : var_id) (to_factor : factor_id) : M unit :=
  ms ← variable_to_factor_store;
  if Messages_contains ms from_variable to_factor then mret tt else
  s ← get;
  let from_factors := filter (fun a => a ≠ to_factor) (var_factors (var_obj s from_variable)) in
  values ← lift (dict_comp (fun v : value => v)
    (fun v : value =>
       fv ← of_option KeyError (_factor_to_variable_messages s !! _evidence_tuples s);
       messages ← Messages_get_from_nodes_to_node fv from_factors from_variable;
       xs ← mapM (fun m => Message_call m v) messages;
       mret (fsum xs))
    (domain (var_obj s from_variable)));
  let message := {| from_node := from_variable; to_node := to_factor; values := values |} in
  cache_variable_to_factor message;;
  _print_message message.

Definition _create_factor_to_variable_messages_cache_if_necessary : M unit :=
  s ← get;
  if decide (is_Some (_factor_to_variable_messages s !! _evidence_tuples s)) then mret tt
  else modify (set_factor_to_variable_messages
                 (<[_evidence_tuples s := ∅]> (_factor_to_variable_messages s))).

Definition _create_variable_to_factor_messages_cache_if_necessary : M unit :=
  s ← get;
  if decide (is_Some (_variable_to_factor_messages s !! _evidence_tuples s)) then mret tt
  else modify (set_variable_to_factor_messages
                 (<[_evidence_tuples s := ∅]> (_variable_to_factor_messages s))).

Definition _extend_next_variables (x : var_id) : M unit :=
  s ← get;
  if decide (Some x = _query_variable s) then mret tt
  else if decide (var_incoming_messages_number (var_obj s x) + 1 = factors_number (var_obj s x))
  then modify (set_next_variables (_next_variables s ++ [x]))
  else mret tt.

Definition _extend_next_factors (a : factor_id) : M unit :=
  s ← get;
  if decide (fac_incoming_messages_number (fac_obj s a) + 1 = variables_number (fac_obj s a))
  then modify (set_next_factors (_next_factors s ++ [a]))
  else mret tt.

Definition _get_running_condition : M bool :=
  s ← get;
  q ← lift (of_option AttributeError (_query_variable s));
  mret (bool_decide (var_incoming_messages_number (var_obj s q) < factors_number (var_obj s q))).

Definition _initialize_factor_passing : M unit :=
  s ← get;
  for_each (factors s) (fun a =>
    update_fac a (set_fac_passed false);;
    update_fac a (set_fac_incoming_messages_number 0)).

Definition _initialize_variable_passing : M unit :=
  s ← get;
  for_each (variables s) (fun x =>
    update_var x (set_var_passed false);;
    update_var x (set_var_incoming_messages_number 0)).

Definition _propagate_factor_to_variable_messages_from_leaves : M unit :=
  s ← get;
  for_each (factor_leaves s) (fun from_factor =>
    s ← get;
    to_variable ← lift (of_option IndexError (head (fac_variables (fac_obj s from_factor))));
    _compute_factor_to_variable_message_from_leaf from_factor to_variable;;
    _update_passing_from_factor from_factor to_variable;;
    _extend_next_variables to_variable).

Definition _propagate_factor_to_variable_message_not_from_leaf (from_factor : factor_id) : M unit :=
  s ← get;
  to_variable ← lift (unpack_one
    (filter (fun x => var_passed (var_obj s x) = false) (fac_variables (fac_obj s from_factor))));
  _compute_factor_to_variable_message_not_from_leaf from_factor to_variable;;
  _update_passing_from_factor from_factor to_variable;;
  _extend_next_variables to_variable.

Definition _propagate_variable_to_factor_messages_from_leaves : M unit :=
  s ← get;
  for_each (variable_leaves s) (fun from_variable =>
    s ← get;
    if decide (Some from_variable = _query_variable s) then mret tt else
    to_factor ← lift (of_option IndexError (head (var_factors (var_obj s from_variable))));
    _compute_variable_to_factor_message_from_leaf from_variable to_factor;;
    _update_passing_from_variable from_variable to_factor;;
    _extend_next_factors to_factor).

Definition _propagate_variable_to_factor_message_not_from_leaf (from_variable : var_id) : M unit :=
  s ← get;
  to_factor ← lift (unpack_one
    (filter (fun a => fac_passed (fac_obj s a) = false) (var_factors (var_obj s from_variable))));
  _compute_variable_to_factor_message_not_from_leaf from_variable to_factor;;
  _update_passing_from_variable from_variable to_factor;;
  _extend_next_factors to_factor.

Definition _initialize_main_loop : M unit :=
  modify (set_loop_passing 0);;
  _print_loop;;
  modify (set_next_factors []);;
  modify (set_next_variables []);;
  _initialize_factor_passing;;
  _initialize_variable_passing;;
  _propagate_factor_to_variable_messages_from_leaves;;
  _propagate_variable_to_factor_messages_from_leaves.

(** The part of [run] before the [while] loop. *)
Definition run_before_loop (print_info : bool) : M unit :=
  check_non_empty_query;;
  check_one_variable_query;;
  check_query_and_evidence_intersection;;
  s ← get;
  q ← lift (of_option IndexError (head (_query s)));
  modify (set_query_variable (Some q));;
  _create_factor_to_variable_messages_cache_if_necessary;;
  _create_variable_to_factor_messages_cache_if_necessary;;
  modify (set_print_info print_info);;
  modify (set_distribution None);;
  _print_start;;
  _initialize_main_loop.

(** One pass of the body of the [while] loop. *)
Definition loop_body : M unit :=
  s ← get;
  modify (set_loop_passing (_loop_passing s + 1));;
  _print_loop;;
  s ← get;
  modify (set_from_factors (_next_factors s));;
  modify (set_next_factors []);;
  s ← get;
  modify (set_from_variables (_next_variables s));;
  modify (set_next_variables []);;
  s ← get;
  for_each (_from_factors s) _propagate_factor_to_variable_message_not_from_leaf;;
  s ← get;
  for_each (_from_variables s) _propagate_variable_to_factor_message_not_from_leaf.

(** [while self._get_running_condition(): ...], with fuel. *)
Fixpoint main_loop (fuel : nat) (s : BP) : option (result unit * BP) :=
  match _get_running_condition s with
  | (Err e, s') => Some (Err e, s')
  | (Ok false, s') => Some (Ok tt, s')
  | (Ok true, s') =>
      match fuel with
      | 0 => None
      | S fuel' =>
          match loop_body s' with
          | (Ok _, s'') => main_loop fuel' s''
          | (Err e, s'') => Some (Err e, s'')
          end
      end
  end.

(** [BP.run]: [None] when the loop has not stopped within [fuel] passes. *)
Definition run (fuel : nat) (print_info : bool) (s : BP) : option (result unit * BP) :=
  match run_before_loop print_info s with
  | (Err e, s1) => Some (Err e, s1)
  | (Ok _, s1) =>
      match main_loop fuel s1 with
      | None => None
      | Some (Err e, s2) => Some (Err e, s2)
      | Some (Ok _, s2) => Some ((_compute_distribution;; _print_stop) s2)
      end
  end.

(** ** Class [Bucket] *)

Module Bucket.

Record t := {
  _variable : var_id;
  _input_log_factors : list factor;
  _evidential_variables : list var_id;
  _free_variables : list var_id
}.

(** The read-only properties [free_variables], [input_log_factors] and
    [variable] are the projections of the record. *)

Definition add_log_factor (log_factor : factor) (b : t) : t :=
  {| _variable := _variable b;
     _input_log_factors := _input_log_factors b ++ [log_factor];
     _evidential_variables := _evidential_variables b;
     _free_variables := _free_variables b |}.

Definition has_log_factors (b : t) : bool :=
  bool_decide (0 < length (_input_log_factors b)).

Definition has_free_variables (b : t) : bool :=
  bool_decide (0 < length (_free_variables b)).

(** The tuple of the input log-factors at one value of the bucket's
    variable, the free variables being bound by [free_variables_with_values]. *)
Definition input_values (heap : var_id → variable) (b : t)
    (free_variables_with_values : binding) (v : value) : result (list R) :=
  mapM (fun log_factor =>
          factor_call heap log_factor
            (filter_values log_factor free_variables_with_values ++ [(_variable b, v)]))
       (_input_log_factors b).

(** The body of the loop over the assignments of the free variables:
    the value of the output log-factor at [free_values]. *)
Definition output_value (heap : var_id → variable) (b : t) (free_values : list value)
    : result R :=
  let free_variables_with_values := zip (_free_variables b) free_values in
  input_log_factors ← dict_comp (fun v : value => v)
    (input_values heap b free_variables_with_values)
    (domain (heap (_variable b)));
  maxima ← mapM (fun v : value =>
                   xs ← of_option KeyError (dict_get input_log_factors v); py_max xs)
                (domain (heap (_variable b)));
  max_log_factor ← py_max maxima;
  terms ← mapM (fun v : value =>
                  xs ← of_option KeyError (dict_get input_log_factors v);
                  mret (math_exp (fsum xs - max_log_factor)))
               (domain (heap (_variable b)));
  l ← math_log (fsum terms);
  mret (max_log_factor + l)%R.

Definition compute_output_log_factor (heap : var_id → variable) (b : t) : result factor :=
  let free_variables_values := evaluate_variables heap (_free_variables b) in
  function_value_dict ←
    dict_comp (fun free_values : list value => free_values)
      (output_value heap b) free_variables_values;
  mret {| fac_name := "log_f_" +:+ var_name (heap (_variable b));
          fac_variables := _free_variables b;
          function := fun values => of_option KeyError (dict_get function_value_dict values);
          fac_evidence := _evidential_variables b;
          fac_passed := false;
          fac_incoming_messages_number := 0 |}.

(** [Bucket.set_evidential_and_free_variables].  The variables of the input
    log-factors are collected in a Python [set], whose iteration order the
    language leaves open: [set_order l] is the order in which the set built
    from the items [l] is iterated.  The evidentiary variables keep that
    order, the free variables are sorted by name. *)
Definition set_evidential_and_free_variables (heap : var_id → variable)
    (set_order : list var_id → list var_id) (b : t) : t :=
  let bucket_variables :=
    set_order (log_factor ← _input_log_factors b; fac_variables log_factor) in
  let split :=
    split_evidential_and_non_evidential_variables heap bucket_variables [_variable b] in
  {| _variable := _variable b;
     _input_log_factors := _input_log_factors b;
     _evidential_variables := split.1;
     _free_variables := py_sorted (fun x => var_name (heap x)) split.2 |}.

(** *** The specification of the output log-factor

    The definitions below follow the words of the specification and use
    nothing of the method above: neither [input_values] nor the calling
    convention of factors ([factor_call], [filter_values]). *)

(** Spec: a bucket whose evidential and free variables have been set.  The
    bucket's own variable is not among the free ones, and every other
    variable of an input log-factor is a free or an evidentiary variable of
    the bucket. *)
Record variables_set (b : t) : Prop := {
  vs_variable : _variable b ∉ _free_variables b;
  vs_covered : ∀ log_factor x,
    log_factor ∈ _input_log_factors b → x ∈ fac_variables log_factor →
    x = _variable b ∨ x ∈ _free_variables b ∨ x ∈ _evidential_variables b
}.

(** Spec: the value that the joint assignment [free_values] of the free
    variables gives to [x], the entry at the position of [x]. *)
Fixpoint value_at (free : list var_id) (free_values : list value) (x : var_id)
    : option value :=
  match free, free_values with
  | y :: free', w :: rest => if decide (x = y) then Some w else value_at free' rest x
  | _, _ => None
  end.

(** Spec: the point (free assignment, evidentiary fixed values, bucket
    variable = [v]), as the value it gives to the variable [x]. *)
Definition point (heap : var_id → variable) (b : t) (free_values : list value) (v : value)
    (x : var_id) : option value :=
  if decide (x = _variable b) then Some v
  else if decide (x ∈ _free_variables b) then value_at (_free_variables b) free_values x
  else if decide (x ∈ _evidential_variables b) then evidential_value (heap x)
  else None.

(** Spec: an input log-factor evaluated at that point, its arguments in the
    order of its variables. *)
Definition log_factor_at (heap : var_id → variable) (b : t) (free_values : list value)
    (v : value) (log_factor : factor) : result R :=
  vals ← mapM (fun x => of_option KeyError (point heap b free_values v x))
              (fac_variables log_factor);
  function log_factor vals.

(** Spec: the brute-force value at a joint assignment of the free
    variables: the logarithm of the sum, over the values of the bucket's
    variable, of the exponential of the sum of all input log-factors at that
    point, with no shift by a maximum. *)
Definition brute_force (heap : var_id → variable) (b : t) (free_values : list value)
    : result R :=
  terms ← mapM (fun v : value =>
                  xs ← mapM (log_factor_at heap b free_values v) (_input_log_factors b);
                  mret (exp (fsum xs)))
               (domain (heap (_variable b)));
  math_log (fsum terms).

End Bucket.

(** * Vocabulary of the properties *)

(** The three checks at the head of [run], in the order of the source. *)
Definition validation_checks : M unit :=
  check_non_empty_query;;
  check_one_variable_query;;
  check_query_and_evidence_intersection.

Definition from_Ok {A} (dflt : A) (r : result A) : A :=
  match r with
  | Ok a => a
  | Err _ => dflt
  end.

(** A node update that touches the traversal fields only. *)
Definition traversal_only_var (f : variable → variable) : Prop :=
  ∀ x, var_name (f x) = var_name x ∧ domain (f x) = domain x ∧
       var_factors (f x) = var_factors x ∧ evidential_value (f x) = evidential_value x.

Definition traversal_only_fac (f : factor → factor) : Prop :=
  ∀ a, fac_name (f a) = fac_name a ∧ fac_variables (f a) = fac_variables a ∧
       function (f a) = function a ∧ fac_evidence (f a) = fac_evidence a.

(** The assignments and in-place updates that the methods of [BP] perform
    after the query variable has been set.  A message is inserted only
    under a key its store does not hold. *)
Inductive step : relation BP :=
| step_update_var s x f :
    traversal_only_var f →
    step s (set_var_obj (<[x := f (var_obj s x)]> (var_obj s)) s)
| step_update_fac s a f :
    traversal_only_fac f →
    step s (set_fac_obj (<[a := f (fac_obj s a)]> (fac_obj s)) s)
| step_loop_passing s n : step s (set_loop_passing n s)
| step_print_info s b : step s (set_print_info b s)
| step_distribution s d : step s (set_distribution d s)
| step_from_factors s l : step s (set_from_factors l s)
| step_next_factors s l : step s (set_next_factors l s)
| step_from_variables s l : step s (set_from_variables l s)
| step_next_variables s l : step s (set_next_variables l s)
| step_create_factor_to_variable s :
    _factor_to_variable_messages s !! _evidence_tuples s = None →
    step s (set_factor_to_variable_messages
              (<[_evidence_tuples s := ∅]> (_factor_to_variable_messages s)) s)
| step_create_variable_to_factor s :
    _variable_to_factor_messages s !! _evidence_tuples s = None →
    step s (set_variable_to_factor_messages
              (<[_evidence_tuples s := ∅]> (_variable_to_factor_messages s)) s)
| step_cache_factor_to_variable s ms m :
    _factor_to_variable_messages s !! _evidence_tuples s = Some ms →
    ms !! (from_node m, to_node m) = None →
    step s (set_computed
              (computed s ++ [(FactorToVariable, _evidence_tuples s, from_node m, to_node m)])
              (set_factor_to_variable_messages
                 (<[_evidence_tuples s := <[(from_node m, to_node m) := m]> ms]>
                    (_factor_to_variable_messages s)) s))
| step_cache_variable_to_factor s ms m :
    _variable_to_factor_messages s !! _evidence_tuples s = Some ms →
    ms !! (from_node m, to_node m) = None →
    step s (set_computed
              (computed s ++ [(VariableToFactor, _evidence_tuples s, from_node m, to_node m)])
              (set_variable_to_factor_messages
                 (<[_evidence_tuples s := <[(from_node m, to_node m) := m]> ms]>
                    (_variable_to_factor_messages s)) s)).

(** [m] relates every state to the state it leaves behind, whatever the
    outcome. *)
Definition preserves {A} (R : relation BP) (m : M A) : Prop :=
  ∀ s r s', m s = (r, s') → R s s'.

Record same_graph (s s' : BP) : Prop := {
  sg_var : ∀ x, var_name (var_obj s' x) = var_name (var_obj s x) ∧
                domain (var_obj s' x) = domain (var_obj s x) ∧
                var_factors (var_obj s' x) = var_factors (var_obj s x) ∧
                evidential_value (var_obj s' x) = evidential_value (var_obj s x);
  sg_fac : ∀ a, fac_name (fac_obj s' a) = fac_name (fac_obj s a) ∧
                fac_variables (fac_obj s' a) = fac_variables (fac_obj s a) ∧
                function (fac_obj s' a) = function (fac_obj s a) ∧
                fac_evidence (fac_obj s' a) = fac_evidence (fac_obj s a);
  sg_variables : variables s' = variables s;
  sg_factors : factors s' = factors s;
  sg_factor_leaves : factor_leaves s' = factor_leaves s;
  sg_variable_leaves : variable_leaves s' = variable_leaves s;
  sg_query : _query s' = _query s;
  sg_evidence : _evidence s' = _evidence s;
  sg_evidence_tuples : _evidence_tuples s' = _evidence_tuples s;
  sg_query_variable : _query_variable s' = _query_variable s
}.

(** The part of [run] that follows the assignment of the query variable
    and precedes the loop. *)
Definition run_setup (print_info : bool) : M unit :=
  _create_factor_to_variable_messages_cache_if_necessary;;
  _create_variable_to_factor_messages_cache_if_necessary;;
  modify (set_print_info print_info);;
  modify (set_distribution None);;
  _print_start;;
  _initialize_main_loop.

(** The value of the message from [from] to [to] at [v], if it is stored. *)
Definition message_value (ms : gmap (nat * nat) Message) (from to : nat) (v : Z) : option R :=
  m ← ms !! (from, to); dict_get (values m) v.

(** The maximum of a list of reals, [0] for the empty list. *)
Definition max_or_zero (l : list R) : R :=
  match l with
  | [] => 0%R
  | x :: l' => foldl Rmax x l'
  end.

(** The key of every stored message is its origin and destination. *)
Definition keys_agree (ms : gmap (nat * nat) Message) : Prop :=
  ∀ a b m, ms !! (a, b) = Some m → from_node m = a ∧ to_node m = b.

(** The evidentiary and the free variables of the factor [f] other than
    its destination [x]. *)
Definition evidential_neighbours (s : BP) (f : factor_id) (x : var_id) : list var_id :=
  (split_evidential_and_non_evidential_variables (var_obj s)
     (fac_variables (fac_obj s f)) [x]).1.

Definition free_neighbours (s : BP) (f : factor_id) (x : var_id) : list var_id :=
  (split_evidential_and_non_evidential_variables (var_obj s)
     (fac_variables (fac_obj s f)) [x]).2.

(** The terms of the interior factor-to-variable rule, for the factor [f]
    and its destination [x]: [msg y v] is the value at [v] of the incoming
    message of the variable [y], [fval a v] the value of the factor at the
    assignment [a] of its free variables and [x = v]. *)
Section InteriorRule.
Context (s : BP) (f : factor_id) (x : var_id).
Context (msg : var_id → value → R) (fval : list value → value → R).

Let heap := var_obj s.
Let evid := evidential_neighbours s f x.
Let free := free_neighbours s f x.

(** [M]: the largest incoming message value of a free variable. *)
Definition spec_M : R :=
  max_or_zero (concat (map (fun y => map (msg y) (domain (heap y))) free)).

(** The sum of the incoming messages of the evidentiary variables, each at
    the value [at_value] gives it. *)
Definition spec_evidential_sum (at_value : var_id → value) : R :=
  fsum (map (fun e => msg e (at_value e)) evid).

(** The sum under the logarithm, at the value [v] of the destination. *)
Definition spec_sum (v : value) : R :=
  fsum (map (fun a => fval a v * exp (fsum (zip_with msg free a) - spec_M))%R
          (evaluate_variables heap free)).

End InteriorRule.

(** The cache of the messages of one direction. *)
Definition store_of (d : direction) (s : BP) : gmap (list (nat * Z)) (gmap (nat * nat) Message) :=
  match d with
  | FactorToVariable => _factor_to_variable_messages s
  | VariableToFactor => _variable_to_factor_messages s
  end.

(** The message stored under a key, if any. *)
Definition stored (s : BP) (k : direction * list (nat * Z) * nat * nat) : option Message :=
  ms ← store_of k.1.1.1 s !! k.1.1.2; ms !! (k.1.2, k.2).

(** What a caller does between two runs (setting the query or the
    evidence, editing the model): anything that leaves the caches alone. *)
Definition same_caches (s s' : BP) : Prop :=
  _factor_to_variable_messages s' = _factor_to_variable_messages s ∧
  _variable_to_factor_messages s' = _variable_to_factor_messages s ∧
  computed s' = computed s.

(** A session: runs of the engine, with changes by the caller in between. *)
Inductive session_step : relation BP :=
| session_run s fuel print_info r s' :
    run fuel print_info s = Some (r, s') → session_step s s'
| session_caller s s' :
    same_caches s s' → session_step s s'.

(** What a sequence of state changes does to the caches: the messages
    stored stay as they are, and those computed were not stored before. *)
Record caches_grow (s s' : BP) : Prop := {
  cg_kept : ∀ k m, stored s k = Some m → stored s' k = Some m;
  cg_new : ∃ new, computed s' = computed s ++ new ∧ NoDup new ∧
                  ∀ k, k ∈ new → stored s k = None ∧ is_Some (stored s' k)
}.

(** ** Nodes of the factor graph, seen alike *)

Inductive node :=
| V (x : var_id)
| F (a : factor_id).

#[export] Instance node_eq_dec : EqDecision node.
Proof. solve_decision. Defined.

Definition node_passed (s : BP) (n : node) : bool :=
  match n with
  | V x => var_passed (var_obj s x)
  | F a => fac_passed (fac_obj s a)
  end.

Definition node_incoming (s : BP) (n : node) : nat :=
  match n with
  | V x => var_incoming_messages_number (var_obj s x)
  | F a => fac_incoming_messages_number (fac_obj s a)
  end.

(** The incident nodes: [variable.factors] and [factor.variables]. *)
Definition node_nbrs (s : BP) (n : node) : list node :=
  match n with
  | V x => map F (var_factors (var_obj s x))
  | F a => map V (fac_variables (fac_obj s a))
  end.

(** [factors_number] and [variables_number] *)
Definition node_degree (s : BP) (n : node) : nat := length (node_nbrs s n).

(** The nodes of the model: [self.variables] and [self.factors]. *)
Definition node_listed (s : BP) (n : node) : Prop :=
  match n with
  | V x => x ∈ variables s
  | F a => a ∈ factors s
  end.

(** A well-formed graph model: the incident nodes of a node of the model
    are nodes of the model and list it in turn; the leaves are nodes of the
    model with one incident node, each listed once. *)
Record wf_graph (s : BP) : Prop := {
  wf_variables :
    Forall (fun x => Forall (fun a => a ∈ factors s ∧ x ∈ fac_variables (fac_obj s a))
                       (var_factors (var_obj s x))) (variables s);
  wf_factors :
    Forall (fun a => Forall (fun x => x ∈ variables s ∧ a ∈ var_factors (var_obj s x))
                       (fac_variables (fac_obj s a))) (factors s);
  wf_factor_leaves_NoDup : NoDup (factor_leaves s);
  wf_factor_leaves :
    Forall (fun a => a ∈ factors s ∧ length (fac_variables (fac_obj s a)) = 1)
      (factor_leaves s);
  wf_variable_leaves_NoDup : NoDup (variable_leaves s);
  wf_variable_leaves :
    Forall (fun x => x ∈ variables s ∧ length (var_factors (var_obj s x)) = 1)
      (variable_leaves s)
}.

(** The number of incident nodes of [n] that belong to [cyc]. *)
Definition on_cycle (cyc : list node) (s : BP) (n : node) : nat :=
  length (filter (fun k => k ∈ cyc) (node_nbrs s n)).

(** [cyc] is a set of nodes of the model that holds the query variable [q]
    and in which every node but [q] has two incident nodes, and [q] one:
    a cycle of the graph together with a path from it to [q]. *)
Record cycle_reaches (s : BP) (q : var_id) (cyc : list node) : Prop := {
  cr_query : V q ∈ cyc;
  cr_query_degree : 1 ≤ on_cycle cyc s (V q);
  cr_nodes : Forall (fun n => node_listed s n ∧ (n = V q ∨ 2 ≤ on_cycle cyc s n)) cyc
}.

(** The number of incident nodes of [n] that have passed their message. *)
Definition passed_nbrs (s : BP) (n : node) : nat :=
  length (filter (fun k => node_passed s k = true) (node_nbrs s n)).

(** The invariant of the traversal on a graph with a cycle; [pending] are
    the nodes queued for the current or the next sweep. *)
Record relay_inv (s0 : BP) (q : var_id) (cyc pending : list node) (s : BP) : Prop := {
  ri_graph : same_graph s0 s;
  ri_cycle_unpassed : ∀ n, n ∈ cyc → node_passed s n = false;
  ri_cycle_incoming : ∀ n, n ∈ cyc → node_incoming s n ≤ passed_nbrs s n;
  ri_pending : ∀ n, n ∈ pending →
    node_listed s0 n ∧ (n ∉ cyc) ∧ node_passed s n = false ∧ 2 ≤ node_degree s n;
  ri_pending_NoDup : NoDup pending;
  ri_ready : ∀ n, node_listed s0 n → node_passed s n = true ∨ n ∈ pending →
    node_degree s n ≤ node_incoming s n + 1
}.

(** The effect of one message from [m] to [n] on the traversal fields. *)
Record relays (m n : node) (s s' : BP) : Prop := {
  rl_graph : same_graph s s';
  rl_passed : ∀ k, node_passed s' k = if decide (k = m) then true else node_passed s k;
  rl_incoming : ∀ k, node_incoming s' k =
    if decide (k = n) then node_incoming s k + 1 else node_incoming s k
}.

(** What the computation of a message leaves alone. *)
Record same_traversal (s s' : BP) : Prop := {
  st_graph : same_graph s s';
  st_var_obj : var_obj s' = var_obj s;
  st_fac_obj : fac_obj s' = fac_obj s;
  st_from_factors : _from_factors s' = _from_factors s;
  st_next_factors : _next_factors s' = _next_factors s;
  st_from_variables : _from_variables s' = _from_variables s;
  st_next_variables : _next_variables s' = _next_variables s
}.

(** The nodes queued for the next sweep. *)
Definition queued (s : BP) : list node :=
  map F (_next_factors s) ++ map V (_next_variables s).

(** The effect of a message from [m] to [n], queueing included. *)
Record sends (m n : node) (s s' : BP) : Prop := {
  sd_relays : relays m n s s';
  sd_from_factors : _from_factors s' = _from_factors s;
  sd_from_variables : _from_variables s' = _from_variables s;
  sd_queued :
    queued s' = queued s ∨
    (queued s' ≡ₚ queued s ++ [n] ∧ Some n ≠ V <$> _query_variable s ∧
     node_incoming s' n + 1 = node_degree s' n)
}.

(** [run] has not returned, whatever the number of passes allowed. *)
Definition never_returns (s : BP) : Prop :=
  ∀ fuel print_info, run fuel print_info s = None.

(** * Further vocabulary: what a run leaves alone *)

(** The graph model and the caller's settings, the query variable apart. *)
Record same_model (s s' : BP) : Prop := {
  sm_var : ∀ x, var_name (var_obj s' x) = var_name (var_obj s x) ∧
                domain (var_obj s' x) = domain (var_obj s x) ∧
                var_factors (var_obj s' x) = var_factors (var_obj s x) ∧
                evidential_value (var_obj s' x) = evidential_value (var_obj s x);
  sm_fac : ∀ a, fac_name (fac_obj s' a) = fac_name (fac_obj s a) ∧
                fac_variables (fac_obj s' a) = fac_variables (fac_obj s a) ∧
                function (fac_obj s' a) = function (fac_obj s a) ∧
                fac_evidence (fac_obj s' a) = fac_evidence (fac_obj s a);
  sm_variables : variables s' = variables s;
  sm_factors : factors s' = factors s;
  sm_factor_leaves : factor_leaves s' = factor_leaves s;
  sm_variable_leaves : variable_leaves s' = variable_leaves s;
  sm_query : _query s' = _query s;
  sm_evidence : _evidence s' = _evidence s;
  sm_evidence_tuples : _evidence_tuples s' = _evidence_tuples s
}.

(** The stores of every evidence but the current one. *)
Record other_evidence_kept (s s' : BP) : Prop := {
  oe_evidence_tuples : _evidence_tuples s' = _evidence_tuples s;
  oe_factor_to_variable : ∀ ev, ev ≠ _evidence_tuples s →
    _factor_to_variable_messages s' !! ev = _factor_to_variable_messages s !! ev;
  oe_variable_to_factor : ∀ ev, ev ≠ _evidence_tuples s →
    _variable_to_factor_messages s' !! ev = _variable_to_factor_messages s !! ev
}.

(** A field that a computation leaves as it is. *)
Definition keeps {T} (field : BP → T) : relation BP :=
  fun s s' => field s' = field s.

(** The value at [v] of the message stored from the factor [a] to the
    variable [to]; [0] when there is none. *)
Definition msg_of (fv : gmap (nat * nat) Message) (to : nat) (a : nat) (v : Z) : R :=
  default 0%R (message_value fv a to v).

(** Every message in the caches of [s'] was in those of [s] or has been
    computed since. *)
Definition stored_or_computed (s s' : BP) : Prop :=
  ∃ new, computed s' = computed s ++ new ∧
         ∀ k, is_Some (stored s' k) → is_Some (stored s k) ∨ k ∈ new.

(** An iteration order of sets: every item of the set comes once. *)
Definition iterates_sets (set_order : list var_id → list var_id) : Prop :=
  ∀ l, NoDup (set_order l) ∧ ∀ x, x ∈ set_order l ↔ x ∈ l.

(** The order of the names of two variables. *)
Definition name_le (heap : var_id → variable) (x y : var_id) : Prop :=
  String.leb (var_name (heap x)) (var_name (heap y)) = true.

(** * Concrete engines *)

Definition mk_variable (dom : list Z) (facs : list nat) (ev : option Z) : variable :=
  {| var_name := ""; domain := dom; var_factors := facs; evidential_value := ev;
     var_passed := false; var_incoming_messages_number := 0 |}.

Definition mk_factor (vars : list nat) (f : list Z → result R) : factor :=
  {| fac_name := ""; fac_variables := vars; function := f; fac_evidence := [];
     fac_passed := false; fac_incoming_messages_number := 0 |}.

(** [BP.__init__] on a model, with a query and an evidence set. *)
Definition BP_init (vo : nat → variable) (fo : nat → factor)
    (vars facs fleaves vleaves query evidence : list nat) (evt : list (nat * Z)) : BP :=
  {| var_obj := vo; fac_obj := fo; variables := vars; factors := facs;
     factor_leaves := fleaves; variable_leaves := vleaves;
     _query := query; _evidence := evidence; _distribution := None; _loop_passing := 0;
     _factor_to_variable_messages := ∅; _variable_to_factor_messages := ∅;
     _query_variable := None; _evidence_tuples := evt; _print_info := false;
     _from_factors := []; _next_factors := []; _from_variables := []; _next_variables := [];
     computed := [] |}.

(** Two binary variables joined by two factors: the cycle 0 - f0 - 1 - f1 - 0. *)
Definition cycle_engine : BP :=
  BP_init (fun _ => mk_variable [0; 1]%Z [0; 1] None)
          (fun _ => mk_factor [0; 1] (fun _ => Ok 1%R))
          [0; 1] [0; 1] [] [] [0] [] [].

Definition cycle_nodes : list node := [V 0; V 1; F 0; F 1].

(** The engine after the part of [run] that precedes the loop. *)
Definition cycle_engine_seeded (print_info : bool) : BP :=
  (run_before_loop print_info cycle_engine).2.

(** The chain 0 - f0 - 1 of two binary variables; the factor is [c] at
    [(0, 0)] and [1] elsewhere.  Variable 0 is the query. *)
Definition chain_factor (c : R) (vals : list Z) : result R :=
  match vals with
  | [a; b] => Ok (if bool_decide (a = 0%Z ∧ b = 0%Z) then c else 1%R)
  | _ => Err KeyError
  end.

Definition chain_engine (c : R) : BP :=
  BP_init (fun _ => mk_variable [0; 1]%Z [0] None)
          (fun _ => mk_factor [0; 1] (chain_factor c))
          [0; 1] [0] [] [0; 1] [0] [] [].

(** An engine whose query is empty. *)
Definition empty_query_engine : BP :=
  BP_init (fun _ => mk_variable [0; 1]%Z [0] None)
          (fun _ => mk_factor [0; 1] (chain_factor 1))
          [0; 1] [0] [] [0; 1] [] [] [].

(** A factor over three variables, the last one evidentiary: [1] where the
    first two agree and [1/5] elsewhere; two leaf factors on variable 1,
    the second of them zero. *)
Definition relay_factor (vals : list Z) : result R :=
  match vals with
  | [a; b; _] => Ok (if bool_decide (a = b) then 1 else / 5)%R
  | _ => Err KeyError
  end.

Definition relay_variables (dom2 : list Z) (x : nat) : variable :=
  match x with
  | 0 => mk_variable [0; 1]%Z [0] None
  | 1 => mk_variable [0; 1]%Z [0; 1] None
  | _ => mk_variable dom2 [0] (Some 1%Z)
  end.

Definition relay_factors (a : nat) : factor :=
  match a with
  | 0 => mk_factor [0; 1; 2] relay_factor
  | 1 => mk_factor [1] (fun _ => Ok 1%R)
  | _ => mk_factor [1] (fun _ => Ok 0%R)
  end.

(** The engine in the middle of a run with the evidence [2 = 1]: the
    messages [fv] and [vf] are in the caches of that evidence; [dom2] is the
    domain of the evidentiary variable 2. *)
Definition relay_engine (dom2 : list Z) (fv vf : gmap (nat * nat) Message) : BP :=
  set_variable_to_factor_messages {[ [(2, 1%Z)] := vf ]}
    (set_factor_to_variable_messages {[ [(2, 1%Z)] := fv ]}
       (set_query_variable (Some 0)
          (BP_init (relay_variables dom2) relay_factors
             [0; 1; 2] [0; 1; 2] [1; 2] [0; 2] [0] [2] [(2, 1%Z)]))).

(** The messages of the variables 1 and 2 to the factor 0. *)
Definition relay_vf : gmap (nat * nat) Message :=
  <[(1, 0) := {| from_node := 1; to_node := 0; values := [(0%Z, 0%R); (1%Z, 1%R)] |}]>
    {[ (2, 0) := {| from_node := 2; to_node := 0; values := [(0%Z, 0%R); (1%Z, 1%R)] |} ]}.

(** The message of the leaf factor 1 to the variable 1. *)
Definition relay_fv : gmap (nat * nat) Message :=
  {[ (1, 1) := {| from_node := 1; to_node := 1; values := [(0%Z, 1%R); (1%Z, 2%R)] |} ]}.

Definition relay_msg (y : nat) (v : Z) : R := IZR v.

Definition relay_fval (a : list Z) (v : Z) : R :=
  match a with
  | [a1] => if bool_decide (v = a1) then 1%R else (/ 5)%R
  | _ => 0%R
  end.

(** A bucket of the variable 0 with two log-factors and the free variable 1. *)
Definition bucket_heap (x : nat) : variable := mk_variable [0; 1]%Z [] None.

Definition bucket_example : Bucket.t :=
  {| Bucket._variable := 0;
     Bucket._input_log_factors :=
       [mk_factor [0; 1] (fun vals => match vals with
                                      | [a; b] => Ok (IZR (a + b))
                                      | _ => Err KeyError
                                      end);
        mk_factor [0] (fun vals => match vals with
                                   | [a] => Ok (IZR a)
                                   | _ => Err KeyError
                                   end)];
     Bucket._evidential_variables := [];
     Bucket._free_variables := [1] |}.

(** ** Further examples *)

(** A bucket of the variable 0 without log-factors, and so without
    evidentiary and free variables. *)
Definition empty_bucket : Bucket.t :=
  {| Bucket._variable := 0;
     Bucket._input_log_factors := [];
     Bucket._evidential_variables := [];
     Bucket._free_variables := [] |}.

(** A heap in which the variable 1 has no value. *)
Definition hollow_heap (x : nat) : variable :=
  match x with
  | 1 => mk_variable [] [] None
  | _ => mk_variable [0; 1]%Z [] None
  end.

(** The example bucket before its evidential and free variables are set. *)
Definition raw_bucket : Bucket.t :=
  {| Bucket._variable := 0;
     Bucket._input_log_factors := Bucket._input_log_factors bucket_example;
     Bucket._evidential_variables := [];
     Bucket._free_variables := [] |}.

(** A heap of binary variables in which the variables 0 and 1 have the
    names [b] and [a]. *)
Definition named_heap (x : nat) : variable :=
  {| var_name := match x with 0 => "b" | 1 => "a" | _ => "c" end;
     domain := [0; 1]%Z; var_factors := [];
     evidential_value := None; var_passed := false; var_incoming_messages_number := 0 |}.

(** A change of the model by the caller: the factor of the chain is
    replaced by one that is [5] at [(0, 0)]. *)
Definition replace_factor (s : BP) : BP :=
  set_fac_obj (fun _ => mk_factor [0; 1] (chain_factor 5)) s.

(** * Properties *)

(** ** The result monad, [mapM] and dictionary comprehensions *)

Lemma mapM_Ok {A B} (f : A → result B) (g : A → B) (l : list A) :
  (∀ x, x ∈ l → f x = Ok (g x)) → mapM f l = Ok (map g l).
Proof.
  induction l as [|x l IH]; intros Hf; simpl; [done|].
  rewrite Hf by left. simpl. rewrite IH; [done|].
  intros y Hy. apply Hf. by right.
Qed.

Lemma mapM_Ok_inv {A B} (f : A → result B) (l : list A) (ys : list B) :
  mapM f l = Ok ys → Forall2 (fun x y => f x = Ok y) l ys.
Proof.
  revert ys. induction l as [|x l IH]; intros ys; simpl.
  - intros [= <-]. constructor.
  - destruct (f x) as [y|e] eqn:Hx; simpl; [|done].
    destruct (mapM f l) as [k|e] eqn:Hl; simpl; [|done].
    intros [= <-]. constructor; [done|]. by apply IH.
Qed.

Lemma mapM_Err {A B} (f : A → result B) (g : A → B) (l1 l2 : list A) (x : A) (e : error) :
  (∀ y, y ∈ l1 → f y = Ok (g y)) → f x = Err e → mapM f (l1 ++ x :: l2) = Err e.
Proof.
  intros Hf Hx. induction l1 as [|y l1 IH]; simpl.
  - by rewrite Hx.
  - rewrite Hf by left. simpl. rewrite IH; [done|].
    intros z Hz. apply Hf. by right.
Qed.

Section DictLemmas.
Context {K V : Type} `{EqDecision K}.
Implicit Types (d : list (K * V)) (k : K) (v : V).

Lemma dict_get_set_eq d k v : dict_get (dict_set d k v) k = Some v.
Proof.
  induction d as [|[k' v'] d IH]; simpl.
  - by rewrite decide_True.
  - destruct (decide (k = k')) as [->|Hne]; simpl.
    + by rewrite decide_True.
    + by rewrite decide_False.
Qed.

Lemma dict_get_set_ne d k k' v : k ≠ k' → dict_get (dict_set d k v) k' = dict_get d k'.
Proof.
  intros Hne. induction d as [|[k0 v0] d IH]; simpl.
  - by rewrite decide_False.
  - destruct (decide (k = k0)) as [->|Hne0]; simpl.
    + by rewrite !decide_False.
    + destruct (decide (k' = k0)); [done|apply IH].
Qed.

Lemma dict_set_fresh d k v : k ∉ d.*1 → dict_set d k v = d ++ [(k, v)].
Proof.
  induction d as [|[k' v'] d IH]; simpl; [done|].
  intros Hk. apply not_elem_of_cons in Hk as [Hne Hk].
  rewrite decide_False by done. by rewrite IH.
Qed.
End DictLemmas.

Section DictComp.
Context {K K' V : Type} `{EqDecision K'}.
Implicit Types (key : K → K') (f : K → result V) (g : K → V) (keys : list K).

Lemma dict_comp_from_Ok (acc : list (K' * V)) key f g keys :
  (∀ k, k ∈ keys → f k = Ok (g k)) →
  ∃ d, dict_comp_from acc key f keys = Ok d ∧
       (∀ k', k' ∉ map key keys → dict_get d k' = dict_get acc k') ∧
       (∀ k, (∀ k0, k0 ∈ keys → key k0 = key k → g k0 = g k) →
             k ∈ keys → dict_get d (key k) = Some (g k)).
Proof.
  revert acc. induction keys as [|k0 keys IH]; intros acc Hf; simpl.
  - exists acc. split; [done|]. split; [done|]. intros k _ Hk. by apply elem_of_nil in Hk.
  - rewrite Hf by left. simpl.
    destruct (IH (dict_set acc (key k0) (g k0))) as (d & Hd & Hout & Hin).
    { intros k Hk. apply Hf. by right. }
    exists d. split; [done|]. split.
    + intros k' Hk'. apply not_elem_of_cons in Hk' as [Hne Hk'].
      rewrite Hout by done. by rewrite dict_get_set_ne.
    + intros k Hg Hk.
      destruct (decide (key k ∈ map key keys)) as [Hkk|Hkk].
      * apply list_elem_of_fmap in Hkk as (k1 & Hk1 & Hk1').
        rewrite Hk1. rewrite <- (Hg k1); [|by right|done].
        apply Hin; [|done]. intros k2 Hk2 Hk2'.
        rewrite (Hg k1); [|by right|done]. apply Hg; [by right|congruence].
      * apply elem_of_cons in Hk as [->|Hk].
        -- rewrite Hout by done. apply dict_get_set_eq.
        -- exfalso. apply Hkk. apply list_elem_of_fmap. by exists k.
Qed.

Lemma dict_comp_Ok key f g keys :
  (∀ k, k ∈ keys → f k = Ok (g k)) →
  ∃ d, dict_comp key f keys = Ok d ∧
       (∀ k, (∀ k0, k0 ∈ keys → key k0 = key k → g k0 = g k) →
             k ∈ keys → dict_get d (key k) = Some (g k)).
Proof.
  intros Hf. destruct (dict_comp_from_Ok [] key f g keys Hf) as (d & Hd & _ & Hin).
  by exists d.
Qed.

Lemma dict_comp_from_NoDup (acc : list (K' * V)) key f g keys :
  (∀ k, k ∈ keys → f k = Ok (g k)) →
  NoDup (acc.*1 ++ map key keys) →
  dict_comp_from acc key f keys = Ok (acc ++ map (fun k => (key k, g k)) keys).
Proof.
  revert acc. induction keys as [|k0 keys IH]; intros acc Hf Hnd; simpl.
  - by rewrite app_nil_r.
  - rewrite Hf by left. simpl.
    assert (key k0 ∉ acc.*1) as Hfresh.
    { apply NoDup_app in Hnd as (_ & Hdisj & _). intros Hin.
      apply (Hdisj _ Hin). left. }
    rewrite dict_set_fresh by done.
    rewrite IH.
    + by rewrite <- app_assoc.
    + intros k Hk. apply Hf. by right.
    + rewrite fmap_app. simpl. rewrite <- app_assoc. done.
Qed.

Lemma dict_comp_NoDup key f g keys :
  (∀ k, k ∈ keys → f k = Ok (g k)) → NoDup (map key keys) →
  dict_comp key f keys = Ok (map (fun k => (key k, g k)) keys).
Proof. intros Hf Hnd. by apply (dict_comp_from_NoDup [] key f g keys). Qed.

Lemma dict_comp_from_Err (acc : list (K' * V)) key f g (l1 l2 : list K) (k : K) (e : error) :
  (∀ y, y ∈ l1 → f y = Ok (g y)) → f k = Err e →
  dict_comp_from acc key f (l1 ++ k :: l2) = Err e.
Proof.
  intros Hf Hk. revert acc. induction l1 as [|y l1 IH]; intros acc; simpl.
  - by rewrite Hk.
  - rewrite Hf by left. simpl. apply IH. intros z Hz. apply Hf. by right.
Qed.
End DictComp.

(** ** The engine monad *)

Lemma bind_run {A B} (m : M A) (f : A → M B) (s : BP) :
  (m ≫= f) s = match m s with
               | (Ok a, s') => f a s'
               | (Err e, s') => (Err e, s')
               end.
Proof. reflexivity. Qed.

Lemma bind_inv {A B} (m : M A) (f : A → M B) (s s' : BP) (r : result B) :
  (m ≫= f) s = (r, s') →
  (∃ e, m s = (Err e, s') ∧ r = Err e) ∨ (∃ a s1, m s = (Ok a, s1) ∧ f a s1 = (r, s')).
Proof.
  rewrite bind_run. destruct (m s) as [[a|e] s1].
  - intros Hf. right. by exists a, s1.
  - intros [= <- <-]. left. by exists e.
Qed.

Lemma bind_Ok_inv {A B} (m : M A) (f : A → M B) (s s' : BP) (b : B) :
  (m ≫= f) s = (Ok b, s') → ∃ a s1, m s = (Ok a, s1) ∧ f a s1 = (Ok b, s').
Proof.
  intros H. apply bind_inv in H as [(e & _ & ?)|H]; [done|exact H].
Qed.

(** ** Validation of the query (C8, C9) *)

Lemma validation_checks_pure (s s1 : BP) (r : result unit) :
  validation_checks s = (r, s1) → s1 = s.
Proof.
  unfold validation_checks, check_non_empty_query, check_one_variable_query,
    check_query_and_evidence_intersection.
  rewrite !bind_run. simpl.
  destruct (decide (_query s = [])); simpl; [by intros [= _ <-]|].
  rewrite !bind_run. simpl.
  destruct (decide (length (_query s) = 1)); simpl; [|by intros [= _ <-]].
  rewrite !bind_run. simpl.
  destruct (decide (Exists _ _)); simpl; by intros [= _ <-].
Qed.

Lemma run_validation_failure (s s1 : BP) (e : error) (fuel : nat) (print_info : bool) :
  validation_checks s = (Err e, s1) → run fuel print_info s = Some (Err e, s).
Proof.
  unfold run, run_before_loop, validation_checks, check_non_empty_query,
    check_one_variable_query, check_query_and_evidence_intersection.
  rewrite !bind_run. simpl.
  destruct (decide (_query s = [])); simpl; [by intros [= <- _]|].
  rewrite !bind_run. simpl.
  destruct (decide (length (_query s) = 1)); simpl; [|by intros [= <- _]].
  rewrite !bind_run. simpl.
  destruct (decide (Exists _ _)); simpl; [by intros [= <- _]|done].
Qed.

Lemma validation_checks_invalid (s : BP) :
  _query s = [] ∨ 1 < length (_query s) ∨ (∃ x, x ∈ _query s ∧ x ∈ _evidence s) →
  ∃ e, validation_checks s = (Err (ValidationError e), s).
Proof.
  intros Hbad.
  unfold validation_checks, check_non_empty_query, check_one_variable_query,
    check_query_and_evidence_intersection.
  rewrite !bind_run. simpl.
  destruct (decide (_query s = [])) as [Hq|Hq]; simpl; [by eexists|].
  rewrite !bind_run. simpl.
  destruct (decide (length (_query s) = 1)) as [Hl|Hl]; simpl; [|by eexists].
  rewrite !bind_run. simpl.
  destruct (decide (Exists _ _)) as [Hex|Hex]; simpl; [by eexists|].
  exfalso. destruct Hbad as [?|[?|(x & Hx & Hx')]]; [done|lia|].
  apply Hex. apply Exists_exists. by exists x.
Qed.

(** C8.  A call of [run] with an empty query, with a query of more than one
    variable, or with a query variable that is also an evidence variable,
    fails with a validation error; the engine is then in the state it was
    called in, so no message has been computed or cached (the stores and the
    ghost trace [computed] are those of [s]) and no distribution assembled. *)
Theorem run_invalid_query_validation_error (s : BP) (fuel : nat) (print_info : bool) :
  _query s = [] ∨ 1 < length (_query s) ∨ (∃ x, x ∈ _query s ∧ x ∈ _evidence s) →
  ∃ e, run fuel print_info s = Some (Err (ValidationError e), s).
Proof.
  intros Hbad. destruct (validation_checks_invalid s Hbad) as (e & He).
  exists e. by apply (run_validation_failure s s).
Qed.

(** C9.  If one of the validation checks of [run] fails, the checks
    themselves have changed nothing and [run] stops with that error in the
    very state it was called in: caches, distribution, query-variable field
    and the traversal fields of all nodes are those before the call. *)
Theorem run_validation_failure_keeps_state (s s1 : BP) (e : error) (fuel : nat)
    (print_info : bool) :
  validation_checks s = (Err e, s1) →
  s1 = s ∧
  ∃ s', run fuel print_info s = Some (Err e, s') ∧
        _factor_to_variable_messages s' = _factor_to_variable_messages s ∧
        _variable_to_factor_messages s' = _variable_to_factor_messages s ∧
        _distribution s' = _distribution s ∧
        _query_variable s' = _query_variable s ∧
        var_obj s' = var_obj s ∧
        fac_obj s' = fac_obj s ∧
        s' = s.
Proof.
  intros Hv. split; [by eapply validation_checks_pure|].
  exists s. by rewrite (run_validation_failure s s1 e).
Qed.

(** ** Sums of reals *)

Lemma fsum_app (l k : list R) : fsum (l ++ k) = (fsum l + fsum k)%R.
Proof. induction l as [|x l IH]; simpl; [lra|]. rewrite IH. lra. Qed.

Lemma fsum_pos (l : list R) : l ≠ [] → Forall (fun x => (0 < x)%R) l → (0 < fsum l)%R.
Proof.
  intros Hne Hall. destruct l as [|x l]; [done|]. clear Hne.
  apply Forall_cons in Hall as [Hx Hl]. simpl.
  assert (0 <= fsum l)%R; [|lra].
  induction Hl as [|y l Hy _ IH]; simpl; lra.
Qed.

Lemma fsum_map_div (l : list R) (c : R) :
  fsum (map (fun x => x / c)%R l) = (fsum l / c)%R.
Proof. induction l as [|x l IH]; simpl; [lra|]. rewrite IH. lra. Qed.

Lemma fsum_map_mult (l : list R) (c : R) :
  fsum (map (fun x => c * x)%R l) = (c * fsum l)%R.
Proof. induction l as [|x l IH]; simpl; [lra|]. rewrite IH. lra. Qed.

Lemma fsum_map_ext {A} (f g : A → R) (l : list A) :
  (∀ x, x ∈ l → f x = g x) → fsum (map f l) = fsum (map g l).
Proof.
  induction l as [|x l IH]; intros Hfg; simpl; [done|].
  rewrite Hfg by left. rewrite IH; [done|]. intros y Hy. apply Hfg. by right.
Qed.

Lemma math_log_pos (x : R) : (0 < x)%R → math_log x = Ok (ln x).
Proof. intros Hx. unfold math_log. by destruct (Rlt_dec 0 x). Qed.

Lemma math_log_nonpos (x : R) : (x <= 0)%R → math_log x = Err (ValueError MathDomain).
Proof. intros Hx. unfold math_log. destruct (Rlt_dec 0 x); [lra|done]. Qed.

Lemma math_log_Ok_inv (x y : R) : math_log x = Ok y → (0 < x)%R ∧ y = ln x.
Proof. unfold math_log. destruct (Rlt_dec 0 x); [|done]. by intros [= <-]. Qed.

Lemma truediv_Ok (x y : R) : y ≠ 0%R → truediv x y = Ok (x / y)%R.
Proof. intros Hy. unfold truediv. by destruct (Req_dec_T y 0). Qed.

(** ** What a successful [mapM] or comprehension says about its body *)

Lemma mapM_Ok_all {A B} (dflt : B) (f : A → result B) (l : list A) (ys : list B) :
  mapM f l = Ok ys → ∀ x, x ∈ l → f x = Ok (from_Ok dflt (f x)).
Proof.
  intros H%mapM_Ok_inv. induction H as [|x y l ys Hx _ IH]; intros z Hz.
  - by apply elem_of_nil in Hz.
  - apply elem_of_cons in Hz as [->|Hz]; [by rewrite Hx|by apply IH].
Qed.

Lemma mapM_Ok_map {A B} (dflt : B) (f : A → result B) (l : list A) (ys : list B) :
  mapM f l = Ok ys → ys = map (fun x => from_Ok dflt (f x)) l.
Proof.
  intros H. pose proof (mapM_Ok_all dflt f l ys H) as Hall.
  rewrite (mapM_Ok f _ l Hall) in H. by injection H as <-.
Qed.

Lemma dict_comp_from_Ok_all {K K' V} `{EqDecision K'} (dflt : V) (acc : list (K' * V))
    (key : K → K') (f : K → result V) (keys : list K) (d : list (K' * V)) :
  dict_comp_from acc key f keys = Ok d → ∀ k, k ∈ keys → f k = Ok (from_Ok dflt (f k)).
Proof.
  revert acc. induction keys as [|k0 keys IH]; intros acc; simpl.
  - intros _ k Hk. by apply elem_of_nil in Hk.
  - destruct (f k0) as [v|e] eqn:Hk0; simpl; [|done].
    intros Hd k Hk. apply elem_of_cons in Hk as [->|Hk]; [by rewrite Hk0|].
    by eapply IH.
Qed.

Lemma dict_comp_Ok_map {K K' V} `{EqDecision K'} (dflt : V)
    (key : K → K') (f : K → result V) (keys : list K) (d : list (K' * V)) :
  dict_comp key f keys = Ok d → NoDup (map key keys) →
  d = map (fun k => (key k, from_Ok dflt (f k))) keys.
Proof.
  intros Hd Hnd.
  pose proof (dict_comp_from_Ok_all dflt [] key f keys d Hd) as Hall.
  rewrite (dict_comp_NoDup key f _ keys Hall Hnd) in Hd. by injection Hd as <-.
Qed.

Lemma dict_get_map {K V} `{EqDecision K} (g : K → V) (keys : list K) (k : K) :
  k ∈ keys → dict_get (map (fun k => (k, g k)) keys) k = Some (g k).
Proof.
  induction keys as [|k0 keys IH]; intros Hk; [by apply elem_of_nil in Hk|].
  simpl. destruct (decide (k = k0)) as [->|Hne]; [done|].
  apply elem_of_cons in Hk as [?|Hk]; [done|by apply IH].
Qed.

(** ** Inversion of successful computations *)

Lemma get_inv (s s1 a : BP) : get s = (Ok a, s1) → a = s ∧ s1 = s.
Proof. by intros [= <- <-]. Qed.
Lemma lift_inv {A} (r : result A) (s s1 : BP) (a : A) : lift r s = (Ok a, s1) → r = Ok a ∧ s1 = s.
Proof. by intros [= <- <-]. Qed.
Lemma modify_inv (f : BP → BP) (s s1 : BP) (a : unit) : modify f s = (Ok a, s1) → s1 = f s.
Proof. by intros [= <-]. Qed.

Ltac inv_bind H :=
  let a := fresh "a" in
  let s1 := fresh "s" in
  let H1 := fresh "Hstep" in
  apply bind_Ok_inv in H as (a & s1 & H1 & H);
  first [ apply get_inv in H1 as [-> ->]
        | apply lift_inv in H1 as [H1 ->]
        | apply modify_inv in H1 as ->
        | idtac ].

(** ** The distribution (C1) *)

Lemma compute_distribution_Ok (s s' : BP) (q : var_id) :
  _compute_distribution s = (Ok tt, s') →
  _query_variable s = Some q →
  NoDup (domain (var_obj s q)) →
  domain (var_obj s q) ≠ [] →
  ∃ d, _distribution s' = Some d ∧
       d.*1 = map (fun v => [v]) (domain (var_obj s q)) ∧
       Forall (fun p => (0 < p)%R) d.*2 ∧
       fsum d.*2 = 1%R.
Proof.
  intros H Hq Hnd Hne. unfold _compute_distribution in H.
  inv_bind H. rewrite Hq in H. inv_bind H. simpl in Hstep. injection Hstep as <-.
  inv_bind H. inv_bind H. inv_bind H. inv_bind H.
  set (dom := domain (var_obj s q)) in *.
  set (f1 := fun v : Z => mapM (fun m : Message => Message_call m v) a0
                          ≫= fun xs : list R => mret (math_exp (fsum xs))) in *.
  set (g := fun v : Z => from_Ok 0%R (f1 v)).
  pose proof (dict_comp_from_Ok_all 0%R [] _ f1 dom a1 Hstep1) as Hf1.
  assert (NoDup (map (fun v : Z => v) dom)) as Hnd1 by by rewrite map_id.
  pose proof (dict_comp_Ok_map 0%R _ f1 dom a1 Hstep1 Hnd1) as ->.
  change (∀ k, k ∈ dom → f1 k = Ok (g k)) in Hf1.
  assert (∀ v, v ∈ dom → (0 < g v)%R) as Hpos.
  { intros v Hv. specialize (Hf1 v Hv). unfold f1 in Hf1 at 1.
    destruct (mapM _ a0) as [xs|e]; simpl in Hf1; [|done].
    injection Hf1 as <-. apply exp_pos. }
  rewrite (mapM_Ok _ g) in Hstep2.
  2:{ intros v Hv. by rewrite (dict_get_map g dom v Hv). }
  injection Hstep2 as <-.
  assert (0 < fsum (map g dom))%R as Hnorm.
  { apply fsum_pos; [by destruct dom|].
    apply Forall_forall. intros x (v & -> & Hv)%list_elem_of_fmap. by apply Hpos. }
  inv_bind H. inv_bind H. clear Hstep3. simpl in H. injection H as <-. simpl.
  assert (NoDup (map (fun v : Z => [v]) dom)) as Hnd2.
  { apply NoDup_fmap_2; [|done]. by intros x y [= ->]. }
  rewrite (dict_comp_NoDup _ _ (fun v => g v / fsum (map g dom))%R) in Hstep2; [|..|done].
  2:{ intros v Hv. rewrite (dict_get_map g dom v Hv). simpl. apply truediv_Ok. lra. }
  injection Hstep2 as <-. eexists. split; [done|].
  rewrite <- !list_fmap_compose. split; [done|]. split.
  - apply Forall_forall. intros x (v & -> & Hv)%list_elem_of_fmap. simpl.
    apply Rdiv_lt_0_compat; [by apply Hpos|done].
  - set (N := fsum (map g dom)) in *.
    trans (fsum (map (fun x => x / N)%R (map g dom))).
    { rewrite map_map. reflexivity. }
    rewrite fsum_map_div. fold N. field. lra.
Qed.

(** ** Atomic state changes of the engine *)

Section Preserves.
Context (R : relation BP) `{!PreOrder R}.

Lemma preserves_ret {A} (a : A) : preserves R (mret a).
Proof. by intros s r s' [= _ <-]. Qed.

Lemma preserves_get : preserves R get.
Proof. by intros s r s' [= _ <-]. Qed.

Lemma preserves_lift {A} (x : result A) : preserves R (lift x).
Proof. by intros s r s' [= _ <-]. Qed.

Lemma preserves_raise {A} (e : error) : preserves R (raise (A:=A) e).
Proof. by intros s r s' [= _ <-]. Qed.

Lemma preserves_modify (f : BP → BP) : (∀ s, R s (f s)) → preserves R (modify f).
Proof. intros Hf s r s' [= _ <-]. apply Hf. Qed.

Lemma preserves_bind {A B} (m : M A) (f : A → M B) :
  preserves R m → (∀ a, preserves R (f a)) → preserves R (m ≫= f).
Proof.
  intros Hm Hf s r s' H. apply bind_inv in H as [(e & H & _)|(a & s1 & H1 & H2)].
  - by eapply Hm.
  - trans s1; [by eapply Hm|by eapply Hf].
Qed.

Lemma preserves_for_each {A} (l : list A) (body : A → M unit) :
  (∀ x, preserves R (body x)) → preserves R (for_each l body).
Proof.
  intros Hb. induction l as [|x l IH]; simpl.
  - apply preserves_ret.
  - apply preserves_bind; [apply Hb|done].
Qed.
End Preserves.

Create HintDb frame.

Ltac solve_po := try lazymatch goal with |- PreOrder _ => apply _ end.

Ltac preserves_tac :=
  repeat first
    [ solve [eauto with frame]
    | apply preserves_ret; solve_po
    | apply preserves_get; solve_po
    | apply preserves_lift; solve_po
    | apply preserves_raise; solve_po
    | apply preserves_for_each; solve_po; intros ?
    | apply preserves_bind; solve_po; [|intros ?]
    | match goal with
      | |- preserves _ (if ?b then _ else _) => destruct b
      | |- preserves _ (let '(_, _) := ?p in _) => destruct p
      | |- preserves _ (match ?p with _ => _ end) => destruct p
      end
    ].

Lemma traversal_only_set_var_passed b : traversal_only_var (set_var_passed b).
Proof. done. Qed.
Lemma traversal_only_set_var_incoming (g : variable → nat) :
  traversal_only_var (fun x => set_var_incoming_messages_number (g x) x).
Proof. done. Qed.
Lemma traversal_only_set_fac_passed b : traversal_only_fac (set_fac_passed b).
Proof. done. Qed.
Lemma traversal_only_set_fac_incoming (g : factor → nat) :
  traversal_only_fac (fun x => set_fac_incoming_messages_number (g x) x).
Proof. done. Qed.

Lemma update_var_steps x f : traversal_only_var f → preserves (rtc step) (update_var x f).
Proof. intros Hf. apply preserves_modify. intros s. apply rtc_once. by constructor. Qed.

Lemma update_fac_steps a f : traversal_only_fac f → preserves (rtc step) (update_fac a f).
Proof. intros Hf. apply preserves_modify. intros s. apply rtc_once. by constructor. Qed.

Lemma modify_steps (f : BP → BP) : (∀ s, step s (f s)) → preserves (rtc step) (modify f).
Proof. intros Hf. apply preserves_modify. intros s. apply rtc_once, Hf. Qed.

#[export] Hint Resolve traversal_only_set_var_passed traversal_only_set_var_incoming
  traversal_only_set_fac_passed traversal_only_set_fac_incoming
  update_var_steps update_fac_steps : frame.
#[export] Hint Constructors step : frame.
#[export] Hint Extern 1 (preserves (rtc step) (modify _)) =>
  apply modify_steps; intros ?; constructor : frame.

Lemma cache_factor_to_variable_steps m : preserves (rtc step) (cache_factor_to_variable m).
Proof.
  intros s r s'. unfold cache_factor_to_variable, factor_to_variable_store.
  rewrite !bind_run. simpl.
  destruct (_factor_to_variable_messages s !! _evidence_tuples s) as [ms|] eqn:Hms; simpl;
    [|by intros [= _ <-]].
  rewrite !bind_run. simpl. unfold Messages_cache, Messages_contains.
  case_bool_decide as Hin; simpl; [by intros [= _ <-]|].
  intros [= _ <-]. apply rtc_once. eapply step_cache_factor_to_variable; [done|].
  by apply eq_None_not_Some.
Qed.

Lemma cache_variable_to_factor_steps m : preserves (rtc step) (cache_variable_to_factor m).
Proof.
  intros s r s'. unfold cache_variable_to_factor, variable_to_factor_store.
  rewrite !bind_run. simpl.
  destruct (_variable_to_factor_messages s !! _evidence_tuples s) as [ms|] eqn:Hms; simpl;
    [|by intros [= _ <-]].
  rewrite !bind_run. simpl. unfold Messages_cache, Messages_contains.
  case_bool_decide as Hin; simpl; [by intros [= _ <-]|].
  intros [= _ <-]. apply rtc_once. eapply step_cache_variable_to_factor; [done|].
  by apply eq_None_not_Some.
Qed.

#[export] Hint Resolve cache_factor_to_variable_steps cache_variable_to_factor_steps : frame.

Lemma update_passing_from_factor_steps a x :
  preserves (rtc step) (_update_passing_from_factor a x).
Proof. unfold _update_passing_from_factor. preserves_tac. Qed.

Lemma compute_fv_leaf_steps a x :
  preserves (rtc step) (_compute_factor_to_variable_message_from_leaf a x).
Proof.
  unfold _compute_factor_to_variable_message_from_leaf, factor_to_variable_store, _print_message.
  preserves_tac.
Qed.

Lemma compute_fv_interior_steps a x :
  preserves (rtc step) (_compute_factor_to_variable_message_not_from_leaf a x).
Proof.
  unfold _compute_factor_to_variable_message_not_from_leaf, factor_to_variable_store,
    variable_to_factor_store, _print_message.
  preserves_tac.
Qed.

Lemma compute_vf_leaf_steps x a :
  preserves (rtc step) (_compute_variable_to_factor_message_from_leaf x a).
Proof.
  unfold _compute_variable_to_factor_message_from_leaf, variable_to_factor_store, _print_message.
  preserves_tac.
Qed.

Lemma compute_vf_interior_steps x a :
  preserves (rtc step) (_compute_variable_to_factor_message_not_from_leaf x a).
Proof.
  unfold _compute_variable_to_factor_message_not_from_leaf, variable_to_factor_store,
    _print_message.
  preserves_tac.
Qed.

Lemma update_passing_from_variable_steps x a :
  preserves (rtc step) (_update_passing_from_variable x a).
Proof. unfold _update_passing_from_variable. preserves_tac. Qed.

Lemma extend_next_variables_steps x : preserves (rtc step) (_extend_next_variables x).
Proof. unfold _extend_next_variables. preserves_tac. Qed.

Lemma extend_next_factors_steps a : preserves (rtc step) (_extend_next_factors a).
Proof. unfold _extend_next_factors. preserves_tac. Qed.

Lemma create_fv_steps :
  preserves (rtc step) _create_factor_to_variable_messages_cache_if_necessary.
Proof.
  intros s r s'. unfold _create_factor_to_variable_messages_cache_if_necessary.
  rewrite bind_run. simpl. case_decide as Hc; intros [= _ <-]; [done|].
  apply rtc_once. constructor. by apply eq_None_not_Some.
Qed.

Lemma create_vf_steps :
  preserves (rtc step) _create_variable_to_factor_messages_cache_if_necessary.
Proof.
  intros s r s'. unfold _create_variable_to_factor_messages_cache_if_necessary.
  rewrite bind_run. simpl. case_decide as Hc; intros [= _ <-]; [done|].
  apply rtc_once. constructor. by apply eq_None_not_Some.
Qed.

#[export] Hint Resolve update_passing_from_factor_steps compute_fv_leaf_steps
  compute_fv_interior_steps compute_vf_leaf_steps compute_vf_interior_steps
  update_passing_from_variable_steps extend_next_variables_steps
  extend_next_factors_steps create_fv_steps create_vf_steps : frame.

Lemma propagate_fv_interior_steps a :
  preserves (rtc step) (_propagate_factor_to_variable_message_not_from_leaf a).
Proof. unfold _propagate_factor_to_variable_message_not_from_leaf. preserves_tac. Qed.

Lemma propagate_vf_interior_steps x :
  preserves (rtc step) (_propagate_variable_to_factor_message_not_from_leaf x).
Proof. unfold _propagate_variable_to_factor_message_not_from_leaf. preserves_tac. Qed.

Lemma propagate_fv_leaves_steps :
  preserves (rtc step) _propagate_factor_to_variable_messages_from_leaves.
Proof. unfold _propagate_factor_to_variable_messages_from_leaves. preserves_tac. Qed.

Lemma propagate_vf_leaves_steps :
  preserves (rtc step) _propagate_variable_to_factor_messages_from_leaves.
Proof. unfold _propagate_variable_to_factor_messages_from_leaves. preserves_tac. Qed.

Lemma initialize_factor_passing_steps : preserves (rtc step) _initialize_factor_passing.
Proof. unfold _initialize_factor_passing. preserves_tac. Qed.

Lemma initialize_variable_passing_steps : preserves (rtc step) _initialize_variable_passing.
Proof. unfold _initialize_variable_passing. preserves_tac. Qed.

#[export] Hint Resolve propagate_fv_interior_steps propagate_vf_interior_steps
  propagate_fv_leaves_steps propagate_vf_leaves_steps initialize_factor_passing_steps
  initialize_variable_passing_steps : frame.

Lemma initialize_main_loop_steps : preserves (rtc step) _initialize_main_loop.
Proof. unfold _initialize_main_loop, _print_loop. preserves_tac. Qed.

Lemma loop_body_steps : preserves (rtc step) loop_body.
Proof. unfold loop_body, _print_loop. preserves_tac. Qed.

Lemma compute_distribution_steps : preserves (rtc step) _compute_distribution.
Proof. unfold _compute_distribution, factor_to_variable_store. preserves_tac. Qed.

Lemma main_loop_steps fuel s r s' : main_loop fuel s = Some (r, s') → rtc step s s'.
Proof.
  revert s. induction fuel as [|fuel IH]; intros s; simpl.
  - unfold _get_running_condition. rewrite !bind_run. simpl.
    destruct (_query_variable s) as [q|]; simpl; [|by intros [= _ <-]].
    case_bool_decide; [done|by intros [= _ <-]].
  - unfold _get_running_condition. rewrite !bind_run. simpl.
    destruct (_query_variable s) as [q|]; simpl; [|by intros [= _ <-]].
    case_bool_decide; [|by intros [= _ <-]].
    destruct (loop_body s) as [[[]|e] s1] eqn:Hb.
    + intros Hl. trans s1; [by eapply loop_body_steps|by apply IH].
    + intros [= _ <-]. by eapply loop_body_steps.
Qed.

(** ** What the atomic state changes leave alone *)

#[export] Instance same_graph_po : PreOrder same_graph.
Proof.
  split.
  - intros s. by split.
  - intros s1 s2 s3 [] []. split; intros; try congruence.
    + destruct (sg_var0 x) as (?&?&?&?), (sg_var1 x) as (?&?&?&?).
      repeat split; congruence.
    + destruct (sg_fac0 a) as (?&?&?&?), (sg_fac1 a) as (?&?&?&?).
      repeat split; congruence.
Qed.

Lemma step_same_graph s s' : step s s' → same_graph s s'.
Proof.
  destruct 1 as [s x f Hf|s a f Hf| | | | | | | | | | |]; split; simpl; try done.
  - intros y. destruct (decide (x = y)) as [->|Hne].
    + rewrite fn_lookup_insert. apply Hf.
    + by rewrite fn_lookup_insert_ne.
  - intros b. destruct (decide (a = b)) as [->|Hne].
    + rewrite fn_lookup_insert. apply Hf.
    + by rewrite fn_lookup_insert_ne.
Qed.

Lemma steps_same_graph s s' : rtc step s s' → same_graph s s'.
Proof.
  induction 1 as [|s1 s2 s3 H12 _ IH]; [done|].
  trans s2; [by apply step_same_graph|done].
Qed.

Lemma run_setup_steps print_info : preserves (rtc step) (run_setup print_info).
Proof.
  pose proof initialize_main_loop_steps.
  unfold run_setup, _print_start. preserves_tac.
Qed.

Lemma run_before_loop_inv print_info s r s1 :
  run_before_loop print_info s = (r, s1) →
  (∃ e, r = Err e ∧ s1 = s) ∨
  (∃ q, head (_query s) = Some q ∧
        run_setup print_info (set_query_variable (Some q) s) = (r, s1)).
Proof.
  unfold run_before_loop, check_non_empty_query, check_one_variable_query,
    check_query_and_evidence_intersection.
  rewrite !bind_run. simpl.
  destruct (decide (_query s = [])); simpl; [intros [= <- <-]; left; by eexists|].
  rewrite !bind_run. simpl.
  destruct (decide (length (_query s) = 1)); simpl; [|intros [= <- <-]; left; by eexists].
  rewrite !bind_run. simpl.
  destruct (decide (Exists _ _)); simpl; [intros [= <- <-]; left; by eexists|].
  rewrite !bind_run. simpl.
  destruct (head (_query s)) as [q|]; simpl; [|intros [= <- <-]; left; by eexists].
  intros H. right. exists q. split; [done|]. exact H.
Qed.

Lemma run_inv fuel print_info s r s' :
  run fuel print_info s = Some (r, s') →
  (∃ e, r = Err e ∧ s' = s) ∨
  (∃ q, head (_query s) = Some q ∧ rtc step (set_query_variable (Some q) s) s').
Proof.
  unfold run. destruct (run_before_loop print_info s) as [[[]|e] s1] eqn:Hb.
  - apply run_before_loop_inv in Hb as [(e & ? & _)|(q & Hq & Hs)]; [done|].
    apply run_setup_steps in Hs.
    destruct (main_loop fuel s1) as [[[[]|e] s2]|] eqn:Hl; [| |done].
    + apply main_loop_steps in Hl. intros [= H]. right. exists q. split; [done|].
      destruct (_compute_distribution s2) as [[[]|e] s3] eqn:Hc.
      * rewrite bind_run, Hc in H. injection H as <- <-.
        apply compute_distribution_steps in Hc. by etrans; [|etrans].
      * rewrite bind_run, Hc in H. injection H as <- <-.
        apply compute_distribution_steps in Hc. by etrans; [|etrans].
    + apply main_loop_steps in Hl. intros [= <- <-]. right. exists q. split; [done|].
      by etrans.
  - intros [= <- <-].
    apply run_before_loop_inv in Hb as [(e' & ? & ->)|(q & Hq & Hs)].
    + left. by exists e.
    + right. exists q. split; [done|]. by eapply run_setup_steps.
Qed.

Lemma run_Ok_inv fuel print_info s s' :
  run fuel print_info s = Some (Ok tt, s') →
  ∃ q s2, _query s = [q] ∧ rtc step (set_query_variable (Some q) s) s2 ∧
          _compute_distribution s2 = (Ok tt, s').
Proof.
  unfold run. destruct (run_before_loop print_info s) as [[[]|e] s1] eqn:Hb; [|done].
  assert (length (_query s) = 1) as Hlen.
  { revert Hb. unfold run_before_loop, check_non_empty_query, check_one_variable_query.
    rewrite !bind_run. simpl. destruct (decide (_query s = [])); simpl; [done|].
    rewrite !bind_run. simpl. by destruct (decide (length (_query s) = 1)). }
  apply run_before_loop_inv in Hb as [(e & ? & _)|(q & Hq & Hs)]; [done|].
  apply run_setup_steps in Hs.
  destruct (main_loop fuel s1) as [[[[]|e] s2]|] eqn:Hl; [|done..].
  apply main_loop_steps in Hl. intros [= H].
  exists q, s2. split; [|split].
  - destruct (_query s) as [|q' [|??]]; simplify_eq/=; done.
  - by etrans.
  - revert H. rewrite bind_run. by destruct (_compute_distribution s2) as [[[]|e] s3].
Qed.

(** C1.  When [run] returns, the distribution it leaves maps every value of
    the query variable's domain, wrapped as a one-element tuple, to a
    probability; the probabilities are non-negative and sum to one.  The domain
    of a categorical variable is non-empty and lists each value once. *)
Theorem run_distribution_normalized (fuel : nat) (print_info : bool) (s s' : BP) (q : var_id) :
  run fuel print_info s = Some (Ok tt, s') →
  _query s = [q] →
  NoDup (domain (var_obj s q)) →
  domain (var_obj s q) ≠ [] →
  ∃ d, _distribution s' = Some d ∧
       dict_keys d = map (fun v => [v]) (domain (var_obj s q)) ∧
       Forall (fun p => (0 <= p)%R) (dict_values d) ∧
       fsum (dict_values d) = 1%R.
Proof.
  intros Hrun Hq Hnd Hne.
  apply run_Ok_inv in Hrun as (q' & s2 & Hq' & Hsteps & Hc).
  assert (q' = q) as -> by congruence.
  apply steps_same_graph in Hsteps as [Hvar _ _ _ _ _ _ _ _ Hqv]. simpl in *.
  destruct (Hvar q) as (_ & Hdom & _).
  destruct (compute_distribution_Ok s2 s' q Hc Hqv) as (d & Hd & Hkeys & Hpos & Hsum).
  - by rewrite Hdom.
  - by rewrite Hdom.
  - exists d. rewrite <- Hdom. repeat split; try done.
    eapply Forall_impl; [exact Hpos|]. intros p Hp. simpl in Hp. lra.
Qed.

(** ** Reading messages from a store *)

Lemma incoming_values (ms : gmap (nat * nat) Message) (to : nat) (v : Z) (inc : nat → R)
    (l : list nat) :
  (∀ g, g ∈ l → message_value ms g to v = Some (inc g)) →
  (messages ← Messages_get_from_nodes_to_node ms l to;
   mapM (fun m => Message_call m v) messages) = Ok (map inc l).
Proof.
  unfold Messages_get_from_nodes_to_node.
  induction l as [|g l IH]; intros Hinc; [done|].
  pose proof (Hinc g ltac:(left)) as Hg. unfold message_value in Hg.
  destruct (ms !! (g, to)) as [m|] eqn:Hm; [|done]. simpl in Hg.
  simpl. rewrite Hm. simpl.
  specialize (IH (fun g' Hg' => Hinc g' ltac:(by right))).
  destruct (mapM _ l) as [ms'|e]; [|done]. simpl in IH |- *.
  change (Message_call m v) with (of_option KeyError (dict_get (values m) v)). rewrite Hg. simpl. by rewrite IH.
Qed.

Lemma store_after_cache_vf (s : BP) (vf : gmap (nat * nat) Message) (m : Message) :
  _variable_to_factor_messages s !! _evidence_tuples s = Some vf →
  vf !! (from_node m, to_node m) = None →
  cache_variable_to_factor m s =
    (Ok tt,
     set_computed
       (computed s ++ [(VariableToFactor, _evidence_tuples s, from_node m, to_node m)])
       (set_variable_to_factor_messages
          (<[_evidence_tuples s := <[(from_node m, to_node m) := m]> vf]>
             (_variable_to_factor_messages s)) s)).
Proof.
  intros Hvf Hm. unfold cache_variable_to_factor, variable_to_factor_store.
  rewrite !bind_run. simpl. rewrite Hvf. simpl. rewrite !bind_run. simpl.
  unfold Messages_cache, Messages_contains. rewrite Hm.
  rewrite bool_decide_eq_false_2 by (by intros [??]). done.
Qed.

Lemma store_after_cache_fv (s : BP) (fv : gmap (nat * nat) Message) (m : Message) :
  _factor_to_variable_messages s !! _evidence_tuples s = Some fv →
  fv !! (from_node m, to_node m) = None →
  cache_factor_to_variable m s =
    (Ok tt,
     set_computed
       (computed s ++ [(FactorToVariable, _evidence_tuples s, from_node m, to_node m)])
       (set_factor_to_variable_messages
          (<[_evidence_tuples s := <[(from_node m, to_node m) := m]> fv]>
             (_factor_to_variable_messages s)) s)).
Proof.
  intros Hfv Hm. unfold cache_factor_to_variable, factor_to_variable_store.
  rewrite !bind_run. simpl. rewrite Hfv. simpl. rewrite !bind_run. simpl.
  unfold Messages_cache, Messages_contains. rewrite Hm.
  rewrite bool_decide_eq_false_2 by (by intros [??]). done.
Qed.

(** C5.  The message from a variable [x] to a factor [f] maps every value
    [v] of [x]'s domain to the sum of [x]'s incoming factor-to-variable
    messages from every incident factor other than [f], read at [v].  When
    [f] is the only factor of [x] that sum is empty and the message is 0 at
    every value, with the general rule as well as with the rule for leaves
    (second part), which writes the zeros without reading any message. *)
Theorem variable_to_factor_rule (s : BP) (x : var_id) (f : factor_id)
    (fv vf : gmap (nat * nat) Message) (inc : factor_id → value → R) :
  _factor_to_variable_messages s !! _evidence_tuples s = Some fv →
  _variable_to_factor_messages s !! _evidence_tuples s = Some vf →
  vf !! (x, f) = None →
  (∀ g v, g ∈ var_factors (var_obj s x) → g ≠ f → v ∈ domain (var_obj s x) →
          message_value fv g x v = Some (inc g v)) →
  (∃ s' vf',
     _compute_variable_to_factor_message_not_from_leaf x f s = (Ok tt, s') ∧
     _variable_to_factor_messages s' !! _evidence_tuples s' = Some vf' ∧
     (∀ v, v ∈ domain (var_obj s x) →
           message_value vf' x f v =
           Some (fsum (map (fun g => inc g v)
                         (filter (fun g => g ≠ f) (var_factors (var_obj s x)))))) ∧
     (var_factors (var_obj s x) = [f] →
      ∀ v, v ∈ domain (var_obj s x) → message_value vf' x f v = Some 0%R)) ∧
  (∃ s' vf',
     _compute_variable_to_factor_message_from_leaf x f s = (Ok tt, s') ∧
     _variable_to_factor_messages s' !! _evidence_tuples s' = Some vf' ∧
     (∀ v, v ∈ domain (var_obj s x) → message_value vf' x f v = Some 0%R)).
Proof.
  intros Hfv Hvf Hnew Hinc. split.
  - set (dom := domain (var_obj s x)).
    set (others := filter (fun g => g ≠ f) (var_factors (var_obj s x))).
    set (val := fun v => fsum (map (fun g => inc g v) others)).
    unfold _compute_variable_to_factor_message_not_from_leaf, variable_to_factor_store.
    rewrite !bind_run. simpl. rewrite Hvf. simpl.
    unfold Messages_contains. rewrite Hnew.
    rewrite bool_decide_eq_false_2 by (by intros [??]).
    rewrite !bind_run. simpl. rewrite Hfv. simpl.
    fold dom others.
    edestruct (dict_comp_Ok (fun v : Z => v)
      (fun v : Z =>
         messages ← Messages_get_from_nodes_to_node fv others x;
         xs ← mapM (fun m : Message => Message_call m v) messages; mret (fsum xs))
      val dom) as (d & Hd & Hget).
    { intros v Hv.
      pose proof (incoming_values fv x v (fun g => inc g v) others) as Hiv.
      destruct (Messages_get_from_nodes_to_node fv others x) as [ms|e] eqn:Hms; simpl in *.
      - rewrite Hiv; [done|]. intros g [Hg Hgf]%list_elem_of_filter. by apply Hinc.
      - discriminate Hiv. intros g [Hg Hgf]%list_elem_of_filter. by apply Hinc. }
    rewrite Hd. rewrite bind_run. simpl. rewrite bind_run.
    erewrite store_after_cache_vf; [|done..]. simpl.
    eexists _, _. split; [done|]. simpl. rewrite lookup_insert_eq. split; [done|].
    assert (∀ v, v ∈ dom → message_value
      (<[(x, f):={| from_node := x; to_node := f; values := d |}]> vf) x f v = Some (val v))
      as Hval.
    { intros v Hv. unfold message_value. rewrite lookup_insert_eq. simpl. apply Hget; [by intros ? _ ->|done]. }
    split; [done|]. intros Hleaf v Hv. rewrite Hval by done. unfold val, others.
    rewrite Hleaf. by rewrite filter_cons_False by (by intros ?).
  - unfold _compute_variable_to_factor_message_from_leaf, variable_to_factor_store.
    rewrite !bind_run. simpl. rewrite Hvf. simpl.
    unfold Messages_contains. rewrite Hnew.
    rewrite bool_decide_eq_false_2 by (by intros [??]).
    rewrite !bind_run. simpl.
    edestruct (dict_comp_Ok (fun v : Z => v) (fun _ : Z => Ok 0%R) (fun _ => 0%R)
                 (domain (var_obj s x))) as (d & Hd & Hget); [done|].
    rewrite Hd. rewrite bind_run. simpl. rewrite bind_run.
    erewrite store_after_cache_vf; [|done..]. simpl.
    eexists _, _. split; [done|]. simpl. rewrite lookup_insert_eq. split; [done|].
    intros v Hv. unfold message_value. rewrite lookup_insert_eq. simpl. apply Hget; [by intros ? _ ->|done].
Qed.

(** ** The interior factor-to-variable rule *)


Lemma get_from_nodes_Ok (ms : gmap (nat * nat) Message) (to : nat) (l : list nat)
    (the_msg : nat → Message) :
  (∀ y, y ∈ l → ms !! (y, to) = Some (the_msg y)) →
  Messages_get_from_nodes_to_node ms l to = Ok (map the_msg l).
Proof.
  intros H. unfold Messages_get_from_nodes_to_node. apply mapM_Ok.
  intros y Hy. by rewrite H.
Qed.

Lemma zip_calls_Ok (the_msg : nat → Message) (msg : nat → Z → R) (l : list nat) (a : list Z) :
  Forall2 (fun y v => dict_get (values (the_msg y)) v = Some (msg y v)) l a →
  zip_calls (map the_msg l) a = Ok (zip_with msg l a).
Proof.
  unfold zip_calls. induction 1 as [|y v l a Hy _ IH]; [done|].
  simpl. change (Message_call (the_msg y) v)
    with (of_option KeyError (dict_get (values (the_msg y)) v)).
  rewrite Hy. simpl. by rewrite IH.
Qed.

Lemma elem_of_product (doms : list (list Z)) (a : list Z) :
  a ∈ product doms → Forall2 (fun d v => v ∈ d) doms a.
Proof.
  revert a. induction doms as [|d doms IH]; intros a; simpl.
  - intros ->%list_elem_of_singleton. constructor.
  - intros (v & Hv & Ha)%list_elem_of_bind.
    apply list_elem_of_bind in Hv as (vs & Hvs & Hvs').
    apply list_elem_of_singleton in Hvs as ->. constructor; [done|]. by apply IH.
Qed.



Lemma py_max_Ok (l : list R) : l ≠ [] → py_max l = Ok (max_or_zero l).
Proof. by destruct l. Qed.

Lemma dict_comp_ext {K K' V} `{EqDecision K'} (key : K → K') (f g : K → result V)
    (keys : list K) :
  (∀ k, k ∈ keys → f k = g k) → dict_comp key f keys = dict_comp key g keys.
Proof.
  unfold dict_comp. generalize (@nil (K' * V)).
  induction keys as [|k keys IH]; intros acc Hfg; simpl; [done|].
  rewrite Hfg by left. destruct (g k) as [v|e]; simpl; [|done].
  apply IH. intros k' Hk'. apply Hfg. by right.
Qed.

Lemma mapM_ext {A B} (f g : A → result B) (l : list A) :
  (∀ x, x ∈ l → f x = g x) → mapM f l = mapM g l.
Proof.
  induction l as [|x l IH]; intros Hfg; simpl; [done|].
  rewrite Hfg by left. rewrite IH; [done|]. intros y Hy. apply Hfg. by right.
Qed.

Lemma Forall2_impl_elem {A B} (P Q : A → B → Prop) (l : list A) (k : list B) :
  Forall2 P l k → (∀ x y, x ∈ l → P x y → Q x y) → Forall2 Q l k.
Proof.
  induction 1 as [|x y l k Hxy _ IH]; intros Himpl; constructor.
  - apply Himpl; [left|done].
  - apply IH. intros x' y' Hx'. apply Himpl. by right.
Qed.

Lemma dict_comp_from_Err_any {K K' V} `{EqDecision K'} (acc : list (K' * V)) (key : K → K')
    (f : K → result V) (keys : list K) (e : error) :
  (∀ k, k ∈ keys → (∃ v, f k = Ok v) ∨ f k = Err e) →
  (∃ k, k ∈ keys ∧ f k = Err e) →
  dict_comp_from acc key f keys = Err e.
Proof.
  revert acc. induction keys as [|k0 keys IH]; intros acc Hall (k & Hk & Hfk).
  - by apply elem_of_nil in Hk.
  - simpl. destruct (Hall k0 ltac:(left)) as [[v Hv]|He]; [|by rewrite He].
    rewrite Hv. simpl. apply IH.
    + intros k' Hk'. apply Hall. by right.
    + apply elem_of_cons in Hk as [->|Hk]; [congruence|]. by exists k.
Qed.

Section InteriorProof.
Context (s : BP) (f : factor_id) (x : var_id).
Context (msg : var_id → value → R) (fval : list value → value → R) (first : var_id → value).
Context (fv vf : gmap (nat * nat) Message).

Let heap := var_obj s.
Let evid := evidential_neighbours s f x.
Let free := free_neighbours s f x.
Let M := spec_M s f x msg.
Let esum := spec_evidential_sum s f x msg first.
Let S := spec_sum s f x msg fval.

Hypothesis Hfv : _factor_to_variable_messages s !! _evidence_tuples s = Some fv.
Hypothesis Hnew : fv !! (f, x) = None.
Hypothesis Hvf : _variable_to_factor_messages s !! _evidence_tuples s = Some vf.
Hypothesis Hkeys : keys_agree vf.
Hypothesis Hev : ∀ e, e ∈ evid →
  head (domain (heap e)) = Some (first e) ∧
  message_value vf e f (first e) = Some (msg e (first e)).
Hypothesis Hfree : ∀ y, y ∈ free →
  domain (heap y) ≠ [] ∧
  ∀ v, v ∈ domain (heap y) → message_value vf y f v = Some (msg y v).
Hypothesis Hfval : ∀ a v, a ∈ evaluate_variables heap free → v ∈ domain (heap x) →
  factor_call heap (fac_obj s f) (zip free a ++ [(x, v)]) = Ok (fval a v).

Let dummy : Message := {| from_node := 0; to_node := 0; values := [] |}.
Let the_msg (y : var_id) : Message := default dummy (vf !! (y, f)).

Lemma interior_the_msg y v r :
  message_value vf y f v = Some r →
  vf !! (y, f) = Some (the_msg y) ∧ from_node (the_msg y) = y ∧
  dict_get (values (the_msg y)) v = Some r.
Proof.
  unfold message_value, the_msg. destruct (vf !! (y, f)) as [m|] eqn:Hm; [|done].
  simpl. intros Hr. split; [done|]. split; [|done]. by destruct (Hkeys _ _ _ Hm).
Qed.

Lemma interior_free_msg y :
  y ∈ free → vf !! (y, f) = Some (the_msg y) ∧ from_node (the_msg y) = y.
Proof.
  intros Hy. destruct (Hfree y Hy) as [Hne Hmv].
  destruct (domain (heap y)) as [|v0 ?]; [done|].
  destruct (interior_the_msg y v0 _ (Hmv v0 ltac:(left))) as (? & ? & _). done.
Qed.

Lemma interior_max : max_of_messages heap (map the_msg free) = Ok M.
Proof.
  unfold max_of_messages, M, spec_M. fold heap free. rewrite length_map.
  destruct (decide (free = [])) as [Hfr|Hfr]; [by rewrite Hfr|].
  rewrite decide_True by (destruct free; [done|simpl; lia]).
  rewrite (mapM_Ok _ (fun m => map (msg (from_node m)) (domain (heap (from_node m))))).
  2:{ intros m (y & -> & Hy)%list_elem_of_fmap. apply mapM_Ok. intros v Hv.
      destruct (interior_free_msg y Hy) as [_ Hfrom]. rewrite Hfrom in Hv |- *.
      destruct (Hfree y Hy) as [_ Hmv].
      destruct (interior_the_msg y v _ (Hmv v Hv)) as (_ & _ & Hget).
      unfold Message_call. by rewrite Hget. }
  simpl. rewrite map_map.
  assert (map (fun m => map (msg (from_node (the_msg m))) (domain (heap (from_node (the_msg m)))))
            free = map (fun y => map (msg y) (domain (heap y))) free) as ->.
  { apply map_ext_in. intros y Hy%list_elem_of_In.
    by destruct (interior_free_msg y Hy) as [_ ->]. }
  apply py_max_Ok. destruct free as [|y0 free'] eqn:Hfr'; [done|].
  destruct (Hfree y0) as [Hne _]; [left|]. simpl.
  by destruct (domain (heap y0)).
Qed.
Lemma interior_evidential_msg e :
  e ∈ evid → vf !! (e, f) = Some (the_msg e) ∧
             dict_get (values (the_msg e)) (first e) = Some (msg e (first e)).
Proof.
  intros He. destruct (Hev e He) as [_ Hmv].
  by destruct (interior_the_msg e _ _ Hmv) as (? & _ & ?).
Qed.

Lemma interior_evidential_terms :
  zip_calls (map the_msg evid) (map first evid) = Ok (map (fun e => msg e (first e)) evid).
Proof.
  rewrite (zip_calls_Ok the_msg msg).
  - f_equal. clear. induction evid as [|e l IH]; [done|]. simpl. by rewrite IH.
  - apply Forall2_fmap_r, Forall_Forall2_diag, Forall_forall.
    intros e He. by destruct (interior_evidential_msg e He).
Qed.

Lemma interior_body v :
  v ∈ domain (heap x) →
  (terms ← mapM (fun a =>
              fa ← factor_call heap (fac_obj s f) (zip free a ++ [(x, v)]);
              xs ← zip_calls (map the_msg free) a;
              mret (fa * math_exp (fsum xs - M))%R)
            (evaluate_variables heap free);
   l ← math_log (fsum terms);
   mret (esum + M + l)%R) =
  (l ← math_log (S v); mret (esum + M + l)%R).
Proof.
  intros Hv.
  rewrite (mapM_Ok _ (fun a => fval a v * exp (fsum (zip_with msg free a) - M))%R); [done|].
  intros a Ha. rewrite Hfval by done. simpl.
  rewrite (zip_calls_Ok the_msg msg); [done|].
  apply elem_of_product in Ha. apply Forall2_fmap_l in Ha.
  eapply Forall2_impl_elem; [exact Ha|]. simpl. intros y w Hy Hw.
  destruct (Hfree y Hy) as [_ Hmv].
  by destruct (interior_the_msg y w _ (Hmv w Hw)) as (_ & _ & ?).
Qed.

#[local] Opaque split_evidential_and_non_evidential_variables.

Lemma interior_run :
  _compute_factor_to_variable_message_not_from_leaf f x s =
  (values ← lift (dict_comp (fun v : value => v)
                    (fun v => l ← math_log (S v); mret (esum + M + l)%R)
                    (domain (heap x)));
   let message := {| from_node := f; to_node := x; values := values |} in
   cache_factor_to_variable message;; _print_message message) s.
Proof.
  unfold _compute_factor_to_variable_message_not_from_leaf, factor_to_variable_store,
    variable_to_factor_store.
  rewrite !bind_run. simpl. rewrite Hfv. simpl.
  unfold Messages_contains. rewrite Hnew.
  rewrite bool_decide_eq_false_2 by (by intros [??]).
  rewrite !bind_run. simpl.
  change (split_evidential_and_non_evidential_variables (var_obj s)
            (fac_variables (fac_obj s f)) [x]).1 with evid.
  change (split_evidential_and_non_evidential_variables (var_obj s)
            (fac_variables (fac_obj s f)) [x]).2 with free.
  fold heap.
  rewrite !bind_run. simpl. rewrite Hvf. simpl.
  rewrite !bind_run. simpl.
  rewrite (get_from_nodes_Ok vf f evid the_msg)
    by (intros e He; by destruct (interior_evidential_msg e He)).
  rewrite !bind_run. simpl.
  rewrite (get_from_nodes_Ok vf f free the_msg)
    by (intros y Hy; by destruct (interior_free_msg y Hy)).
  rewrite !bind_run. simpl. rewrite interior_max.
  rewrite !bind_run. simpl.
  rewrite (mapM_Ok _ first) by (intros e He; by destruct (Hev e He) as [-> _]).
  rewrite !bind_run. simpl. rewrite interior_evidential_terms.
  rewrite !bind_run. simpl.
  erewrite dict_comp_ext; [reflexivity|]. intros v Hv. by apply interior_body.
Qed.

#[local] Transparent split_evidential_and_non_evidential_variables.

Lemma interior_Ok :
  (∀ v, v ∈ domain (heap x) → (0 < S v)%R) →
  ∃ s' fv',
    _compute_factor_to_variable_message_not_from_leaf f x s = (Ok tt, s') ∧
    _factor_to_variable_messages s' !! _evidence_tuples s' = Some fv' ∧
    ∀ v, v ∈ domain (heap x) →
         message_value fv' f x v = Some (esum + M + ln (S v))%R.
Proof.
  intros Hpos. rewrite interior_run.
  edestruct (dict_comp_Ok (fun v : Z => v)
    (fun v => l ← math_log (S v); mret (esum + M + l)%R)
    (fun v => esum + M + ln (S v))%R (domain (heap x))) as (d & Hd & Hget).
  { intros v Hv. by rewrite math_log_pos by by apply Hpos. }
  rewrite bind_run. simpl. rewrite Hd. rewrite bind_run.
  erewrite store_after_cache_fv; [|done..]. simpl.
  eexists _, _. split; [done|]. simpl. rewrite lookup_insert_eq. split; [done|].
  intros v Hv. unfold message_value. rewrite lookup_insert_eq. simpl.
  apply Hget; [by intros ? _ ->|done].
Qed.

Lemma interior_Err :
  (∃ v, v ∈ domain (heap x) ∧ (S v <= 0)%R) →
  _compute_factor_to_variable_message_not_from_leaf f x s = (Err (ValueError MathDomain), s).
Proof.
  intros (v & Hv & Hle). rewrite interior_run. rewrite bind_run. simpl.
  unfold dict_comp. rewrite (dict_comp_from_Err_any _ _ _ _ (ValueError MathDomain)); [done|..].
  - intros k Hk. destruct (Rlt_dec 0 (S k)) as [Hlt|Hnlt].
    + left. rewrite math_log_pos by done. by eexists.
    + right. rewrite math_log_nonpos by lra. done.
  - exists v. split; [done|]. by rewrite math_log_nonpos.
Qed.

End InteriorProof.

Lemma fsum_map_minus {A} (g h : A → R) (l : list A) :
  fsum (map (fun a => g a - h a)%R l) = (fsum (map g l) - fsum (map h l))%R.
Proof. induction l as [|a l IH]; simpl; [lra|]. rewrite IH. lra. Qed.


(** C10.  The interior factor-to-variable rule reads the incoming message of
    every evidential variable at the first element of its domain, whatever
    the observed value is: the evidential summand of the message is the one
    of [first], and it differs from the summand at the observed values by the
    sum of the differences of the messages between the two values.  When the
    evidential domains are reduced to the observed value the two agree. *)
Theorem evidential_message_read_at_first_domain_value (s : BP) (f : factor_id) (x : var_id)
    (msg : var_id → value → R) (fval : list value → value → R) (first observed : var_id → value)
    (fv vf : gmap (nat * nat) Message) :
  _factor_to_variable_messages s !! _evidence_tuples s = Some fv →
  fv !! (f, x) = None →
  _variable_to_factor_messages s !! _evidence_tuples s = Some vf →
  keys_agree vf →
  (∀ e, e ∈ evidential_neighbours s f x →
        evidential_value (var_obj s e) = Some (observed e) ∧
        head (domain (var_obj s e)) = Some (first e) ∧
        message_value vf e f (first e) = Some (msg e (first e))) →
  (∀ y, y ∈ free_neighbours s f x →
        domain (var_obj s y) ≠ [] ∧
        ∀ v, v ∈ domain (var_obj s y) → message_value vf y f v = Some (msg y v)) →
  (∀ a v, a ∈ evaluate_variables (var_obj s) (free_neighbours s f x) →
          v ∈ domain (var_obj s x) →
          factor_call (var_obj s) (fac_obj s f) (zip (free_neighbours s f x) a ++ [(x, v)])
          = Ok (fval a v)) →
  (∀ v, v ∈ domain (var_obj s x) → (0 < spec_sum s f x msg fval v)%R) →
  ∃ s' fv',
    _compute_factor_to_variable_message_not_from_leaf f x s = (Ok tt, s') ∧
    _factor_to_variable_messages s' !! _evidence_tuples s' = Some fv' ∧
    (∀ v, v ∈ domain (var_obj s x) →
          message_value fv' f x v =
          Some (spec_evidential_sum s f x msg first + spec_M s f x msg
                + ln (spec_sum s f x msg fval v))%R) ∧
    (spec_evidential_sum s f x msg first - spec_evidential_sum s f x msg observed =
     fsum (map (fun e => msg e (first e) - msg e (observed e))
             (evidential_neighbours s f x)))%R ∧
    ((∀ e, e ∈ evidential_neighbours s f x → domain (var_obj s e) = [observed e]) →
     spec_evidential_sum s f x msg first = spec_evidential_sum s f x msg observed).
Proof.
  intros Hfv Hnew Hvf Hkeys Hev Hfree Hfval Hpos.
  destruct (interior_Ok s f x msg fval first fv vf) as (s' & fv' & Hrun & Hst & Hval);
    try done.
  { intros e He. by destruct (Hev e He) as (_ & ? & ?). }
  exists s', fv'. repeat split; try done.
  - unfold spec_evidential_sum. fold (evidential_neighbours s f x).
    by rewrite fsum_map_minus.
  - intros Hred. unfold spec_evidential_sum. fold (evidential_neighbours s f x).
    apply fsum_map_ext. intros e He.
    destruct (Hev e He) as (_ & Hhd & _). rewrite (Hred e He) in Hhd.
    simpl in Hhd. by injection Hhd as ->.
Qed.

(** ** The leaf factor-to-variable rule *)

Lemma leaf_factor_run (s : BP) (f : factor_id) (x : var_id) (fv : gmap (nat * nat) Message) :
  _factor_to_variable_messages s !! _evidence_tuples s = Some fv →
  fv !! (f, x) = None →
  _compute_factor_to_variable_message_from_leaf f x s =
  (values ← lift (dict_comp (fun v : value => v)
                    (fun v => r ← factor_call (var_obj s) (fac_obj s f) [(x, v)]; math_log r)
                    (domain (var_obj s x)));
   let message := {| from_node := f; to_node := x; values := values |} in
   cache_factor_to_variable message;; _print_message message) s.
Proof.
  intros Hfv Hnew.
  unfold _compute_factor_to_variable_message_from_leaf, factor_to_variable_store.
  rewrite !bind_run. simpl. rewrite Hfv. simpl.
  unfold Messages_contains. rewrite Hnew.
  by rewrite bool_decide_eq_false_2 by (by intros [??]).
Qed.

Lemma leaf_factor_Ok (s : BP) (f : factor_id) (x : var_id) (fv : gmap (nat * nat) Message)
    (fval : value → R) :
  _factor_to_variable_messages s !! _evidence_tuples s = Some fv →
  fv !! (f, x) = None →
  (∀ v, v ∈ domain (var_obj s x) →
        factor_call (var_obj s) (fac_obj s f) [(x, v)] = Ok (fval v)) →
  (∀ v, v ∈ domain (var_obj s x) → (0 < fval v)%R) →
  ∃ s' fv',
    _compute_factor_to_variable_message_from_leaf f x s = (Ok tt, s') ∧
    _factor_to_variable_messages s' !! _evidence_tuples s' = Some fv' ∧
    ∀ v, v ∈ domain (var_obj s x) → message_value fv' f x v = Some (ln (fval v)).
Proof.
  intros Hfv Hnew Hfval Hpos. rewrite (leaf_factor_run s f x fv) by done.
  edestruct (dict_comp_Ok (fun v : Z => v)
    (fun v => r ← factor_call (var_obj s) (fac_obj s f) [(x, v)]; math_log r)
    (fun v => ln (fval v)) (domain (var_obj s x))) as (d & Hd & Hget).
  { intros v Hv. rewrite Hfval by done. simpl. apply math_log_pos. by apply Hpos. }
  rewrite bind_run. simpl. rewrite Hd. rewrite bind_run.
  erewrite store_after_cache_fv; [|done..]. simpl.
  eexists _, _. split; [done|]. simpl. rewrite lookup_insert_eq. split; [done|].
  intros v Hv. unfold message_value. rewrite lookup_insert_eq. simpl.
  apply Hget; [by intros ? _ ->|done].
Qed.

Lemma leaf_factor_Err (s : BP) (f : factor_id) (x : var_id) (fv : gmap (nat * nat) Message)
    (fval : value → R) :
  _factor_to_variable_messages s !! _evidence_tuples s = Some fv →
  fv !! (f, x) = None →
  (∀ v, v ∈ domain (var_obj s x) →
        factor_call (var_obj s) (fac_obj s f) [(x, v)] = Ok (fval v)) →
  (∃ v, v ∈ domain (var_obj s x) ∧ (fval v <= 0)%R) →
  _compute_factor_to_variable_message_from_leaf f x s = (Err (ValueError MathDomain), s).
Proof.
  intros Hfv Hnew Hfval (v & Hv & Hle). rewrite (leaf_factor_run s f x fv) by done.
  rewrite bind_run. simpl.
  unfold dict_comp. rewrite (dict_comp_from_Err_any _ _ _ _ (ValueError MathDomain)); [done|..].
  - intros k Hk. rewrite Hfval by done. simpl. destruct (Rlt_dec 0 (fval k)) as [Hlt|Hnlt].
    + left. rewrite math_log_pos by done. by eexists.
    + right. by rewrite math_log_nonpos by lra.
  - exists v. split; [done|]. rewrite Hfval by done. simpl. by rewrite math_log_nonpos.
Qed.

(** C7, as amended.  The numeric-domain error is raised for the argument of
    the logarithm, not for a value of the factor.  The rule for leaves takes
    the logarithm of the factor's value itself: it fails with the math domain
    error, leaving the engine unchanged, as soon as the factor is zero or
    negative at some value of the variable, and succeeds on a positive
    factor.  The interior rule takes the logarithm of the weighted sum over
    the assignments of the free variables: it fails with that error exactly
    when the sum is zero or negative at some value of the variable, and
    succeeds when all the sums are positive, whatever the signs of the
    factor's single values. *)
Theorem math_domain_error_reaches_the_logarithm (s : BP) (fv : gmap (nat * nat) Message) :
  _factor_to_variable_messages s !! _evidence_tuples s = Some fv →
  (∀ (f : factor_id) (x : var_id) (fval : value → R),
     fv !! (f, x) = None →
     (∀ v, v ∈ domain (var_obj s x) →
           factor_call (var_obj s) (fac_obj s f) [(x, v)] = Ok (fval v)) →
     ((∃ v, v ∈ domain (var_obj s x) ∧ (fval v <= 0)%R) →
      _compute_factor_to_variable_message_from_leaf f x s
      = (Err (ValueError MathDomain), s)) ∧
     ((∀ v, v ∈ domain (var_obj s x) → (0 < fval v)%R) →
      ∃ s', _compute_factor_to_variable_message_from_leaf f x s = (Ok tt, s'))) ∧
  (∀ (f : factor_id) (x : var_id) (msg : var_id → value → R)
     (fval : list value → value → R) (first : var_id → value)
     (vf : gmap (nat * nat) Message),
     fv !! (f, x) = None →
     _variable_to_factor_messages s !! _evidence_tuples s = Some vf →
     keys_agree vf →
     (∀ e, e ∈ evidential_neighbours s f x →
           head (domain (var_obj s e)) = Some (first e) ∧
           message_value vf e f (first e) = Some (msg e (first e))) →
     (∀ y, y ∈ free_neighbours s f x →
           domain (var_obj s y) ≠ [] ∧
           ∀ v, v ∈ domain (var_obj s y) → message_value vf y f v = Some (msg y v)) →
     (∀ a v, a ∈ evaluate_variables (var_obj s) (free_neighbours s f x) →
             v ∈ domain (var_obj s x) →
             factor_call (var_obj s) (fac_obj s f) (zip (free_neighbours s f x) a ++ [(x, v)])
             = Ok (fval a v)) →
     ((∃ v, v ∈ domain (var_obj s x) ∧ (spec_sum s f x msg fval v <= 0)%R) →
      _compute_factor_to_variable_message_not_from_leaf f x s
      = (Err (ValueError MathDomain), s)) ∧
     ((∀ v, v ∈ domain (var_obj s x) → (0 < spec_sum s f x msg fval v)%R) →
      ∃ s', _compute_factor_to_variable_message_not_from_leaf f x s = (Ok tt, s'))).
Proof.
  intros Hfv. split.
  - intros f x fval Hnew Hfval. split.
    + by apply (leaf_factor_Err s f x fv fval).
    + intros Hpos.
      destruct (leaf_factor_Ok s f x fv fval) as (s' & _ & Hrun & _); try done.
      by exists s'.
  - intros f x msg fval first vf Hnew Hvf Hkeys Hev Hfree Hfval. split.
    + by apply (interior_Err s f x msg fval first fv vf).
    + intros Hpos.
      destruct (interior_Ok s f x msg fval first fv vf) as (s' & _ & Hrun & _); try done.
      by exists s'.
Qed.

(** ** The bucket's stabilised log-sum-exp (C3) *)

Lemma fsum_exp_shift {A} (g : A → R) (c : R) (l : list A) :
  fsum (map (fun a => exp (g a - c)) l) = (exp (- c) * fsum (map (fun a => exp (g a)) l))%R.
Proof.
  induction l as [|a l IH]; simpl; [lra|]. rewrite IH.
  replace (g a - c)%R with (g a + - c)%R by lra. rewrite exp_plus. lra.
Qed.

Lemma fsum_exp_pos {A} (g : A → R) (l : list A) :
  l ≠ [] → (0 < fsum (map (fun a => exp (g a)) l))%R.
Proof.
  intros Hne. apply fsum_pos; [by destruct l|].
  apply Forall_forall. intros r (a & -> & _)%list_elem_of_fmap. apply exp_pos.
Qed.

(** The identity behind the stabilisation: the shift by any constant [c]
    cancels. *)
Lemma log_sum_exp_shift {A} (g : A → R) (c : R) (l : list A) :
  l ≠ [] →
  (c + ln (fsum (map (fun a => exp (g a - c)) l)))%R
  = ln (fsum (map (fun a => exp (g a)) l)).
Proof.
  intros Hne. rewrite fsum_exp_shift.
  rewrite ln_mult; [|apply exp_pos|by apply fsum_exp_pos].
  rewrite ln_exp. lra.
Qed.

(** ** The points at which the bucket evaluates its log-factors *)

Lemma dict_get_app {K V} `{EqDecision K} (l1 l2 : list (K * V)) (k : K) :
  dict_get (l1 ++ l2) k = match dict_get l1 k with
                          | Some v => Some v
                          | None => dict_get l2 k
                          end.
Proof.
  induction l1 as [|[k' v'] l1 IH]; simpl; [done|].
  destruct (decide (k = k')); [done|apply IH].
Qed.

Lemma dict_get_filter_values (log_factor : factor) (l : list (nat * Z)) (x : nat) :
  x ∈ fac_variables log_factor → dict_get (filter_values log_factor l) x = dict_get l x.
Proof.
  intros Hx. unfold filter_values. induction l as [|[y w] l IH]; [done|].
  destruct (decide (y ∈ fac_variables log_factor)) as [Hy|Hy].
  - rewrite filter_cons_True by done. simpl. destruct (decide (x = y)); [done|apply IH].
  - rewrite filter_cons_False by done. simpl. rewrite decide_False by congruence. apply IH.
Qed.

Lemma value_at_is_Some (free : list nat) (a : list Z) (x : nat) :
  x ∈ free → length a = length free → is_Some (Bucket.value_at free a x).
Proof.
  revert a. induction free as [|y free IH]; intros [|w a] Hx Hlen; simpl in *; try done.
  - by apply elem_of_nil in Hx.
  - destruct (decide (x = y)); [by eexists|].
    apply elem_of_cons in Hx as [?|Hx]; [done|]. apply IH; [done|lia].
Qed.

Lemma dict_get_zip_value_at (free : list nat) (a : list Z) (x : nat) :
  dict_get (zip free a) x = Bucket.value_at free a x.
Proof.
  revert a. induction free as [|y free IH]; intros [|w a]; simpl; try done.
  destruct (decide (x = y)); [done|apply IH].
Qed.

Lemma value_at_None (free : list nat) (a : list Z) (x : nat) :
  x ∉ free → Bucket.value_at free a x = None.
Proof.
  revert a. induction free as [|y free IH]; intros [|w a] Hx; simpl; try done.
  apply not_elem_of_cons in Hx as [Hne Hx]. rewrite decide_False by done. by apply IH.
Qed.

(** What the method passes to an input log-factor, namely the pairs of
    the free variables the factor has, followed by the pair of the bucket's
    variable, is the point of the specification. *)
Lemma bucket_factor_call_point (heap : var_id → variable) (b : Bucket.t) (a : list value)
    (v : value) (log_factor : factor) :
  Bucket.variables_set b →
  length a = length (Bucket._free_variables b) →
  log_factor ∈ Bucket._input_log_factors b →
  factor_call heap log_factor
    (filter_values log_factor (zip (Bucket._free_variables b) a) ++ [(Bucket._variable b, v)])
  = Bucket.log_factor_at heap b a v log_factor.
Proof.
  intros [Hvar Hcov] Hlen Hf. unfold factor_call, Bucket.log_factor_at.
  f_equal. apply mapM_ext. intros x Hx.
  rewrite dict_get_app, dict_get_filter_values by done.
  rewrite dict_get_zip_value_at. unfold Bucket.point. simpl.
  destruct (decide (x = Bucket._variable b)) as [->|Hne].
  - rewrite value_at_None by done. simpl. rewrite ?decide_True by done. done.
  - destruct (decide (x ∈ Bucket._free_variables b)) as [Hfree|Hfree].
    + by destruct (value_at_is_Some _ a x Hfree Hlen) as [w ->].
    + rewrite value_at_None by done. simpl. rewrite ?decide_False by done.
      destruct (Hcov log_factor x Hf Hx) as [?|[?|Hev]]; [done..|].
      rewrite ?decide_True by done. done.
Qed.

Lemma product_length (doms : list (list Z)) (a : list Z) :
  a ∈ product doms → length a = length doms.
Proof. intros H%elem_of_product. symmetry. by eapply Forall2_length. Qed.

Lemma bucket_input_values_spec (heap : var_id → variable) (b : Bucket.t) (a : list value)
    (v : value) :
  Bucket.variables_set b →
  a ∈ evaluate_variables heap (Bucket._free_variables b) →
  Bucket.input_values heap b (zip (Bucket._free_variables b) a) v
  = mapM (Bucket.log_factor_at heap b a v) (Bucket._input_log_factors b).
Proof.
  intros Hset Ha. unfold Bucket.input_values. apply mapM_ext. intros f Hf.
  apply bucket_factor_call_point; [done| |done].
  apply product_length in Ha. by rewrite length_map in Ha.
Qed.

Section BucketProof.
Context (heap : var_id → variable) (b : Bucket.t) (free_values : list value).

Let dom := domain (heap (Bucket._variable b)).
Let bound := zip (Bucket._free_variables b) free_values.
Let xs (v : value) : list R :=
  from_Ok [] (mapM (Bucket.log_factor_at heap b free_values v) (Bucket._input_log_factors b)).
Let total (v : value) : R := fsum (xs v).

Hypothesis Hset : Bucket.variables_set b.
Hypothesis Hassignment : free_values ∈ evaluate_variables heap (Bucket._free_variables b).
Hypothesis Hdom : dom ≠ [].
Hypothesis Hinputs : Bucket._input_log_factors b ≠ [].
Hypothesis Hdefined : ∀ v log_factor,
  v ∈ dom → log_factor ∈ Bucket._input_log_factors b →
  ∃ r, Bucket.log_factor_at heap b free_values v log_factor = Ok r.

Lemma bucket_spec_values v :
  v ∈ dom →
  mapM (Bucket.log_factor_at heap b free_values v) (Bucket._input_log_factors b) = Ok (xs v).
Proof.
  intros Hv. unfold xs.
  rewrite (mapM_Ok _ (fun f => from_Ok 0%R (Bucket.log_factor_at heap b free_values v f)));
    [done|].
  intros f Hf. by destruct (Hdefined v f Hv Hf) as [r ->].
Qed.

Lemma bucket_input_values v : v ∈ dom → Bucket.input_values heap b bound v = Ok (xs v).
Proof.
  intros Hv. unfold bound. rewrite bucket_input_values_spec by done.
  by apply bucket_spec_values.
Qed.

Lemma bucket_xs_nonempty v : v ∈ dom → xs v ≠ [].
Proof.
  intros Hv. pose proof (bucket_spec_values v Hv) as H.
  apply mapM_Ok_inv, Forall2_length in H.
  intros Hnil. rewrite Hnil in H. by destruct (Bucket._input_log_factors b).
Qed.

Lemma bucket_brute_force :
  Bucket.brute_force heap b free_values = Ok (ln (fsum (map (fun v => exp (total v)) dom))).
Proof.
  unfold Bucket.brute_force. fold dom.
  rewrite (mapM_Ok _ (fun v => exp (total v))).
  - simpl. apply math_log_pos. by apply fsum_exp_pos.
  - intros v Hv. by rewrite bucket_spec_values.
Qed.

Lemma bucket_output_value :
  Bucket.output_value heap b free_values = Ok (ln (fsum (map (fun v => exp (total v)) dom))).
Proof.
  unfold Bucket.output_value. fold dom bound.
  destruct (dict_comp_Ok (fun v : Z => v) (Bucket.input_values heap b bound) xs dom)
    as (d & -> & Hget); [apply bucket_input_values|].
  simpl.
  assert (∀ v, v ∈ dom → dict_get d v = Some (xs v)) as Hd.
  { intros v Hv. apply Hget; [by intros ? _ ->|done]. }
  rewrite (mapM_Ok _ (fun v => max_or_zero (xs v))).
  2:{ intros v Hv. rewrite Hd by done. simpl. apply py_max_Ok. by apply bucket_xs_nonempty. }
  simpl. rewrite py_max_Ok by by destruct dom. simpl.
  set (mx := max_or_zero (map (fun v => max_or_zero (xs v)) dom)).
  rewrite (mapM_Ok _ (fun v => exp (total v - mx))).
  2:{ intros v Hv. by rewrite Hd. }
  simpl. rewrite math_log_pos.
  2:{ rewrite fsum_exp_shift. apply Rmult_lt_0_compat; [apply exp_pos|].
      by apply fsum_exp_pos. }
  simpl. f_equal. by apply log_sum_exp_shift.
Qed.
End BucketProof.

(** C3, as amended.  For a bucket that holds at least one input
    log-factor and whose evidential and free variables have been set,
    [compute_output_log_factor] returns a log-factor over the bucket's free
    variables whose value at every joint assignment of these equals the
    brute-force value of the specification: the logarithm of the sum, over
    the values of the bucket's variable, of the exponential of the sum of
    all input log-factors, each evaluated at the point made of the free
    assignment, the fixed values of the evidentiary variables and that value
    of the bucket's variable.  The shift by the maximum changes nothing.
    The domain of a categorical variable is non-empty, and the input
    log-factors are defined at the points met. *)
Theorem compute_output_log_factor_is_log_sum_exp (heap : var_id → variable) (b : Bucket.t) :
  Bucket.variables_set b →
  domain (heap (Bucket._variable b)) ≠ [] →
  Bucket._input_log_factors b ≠ [] →
  (∀ a v log_factor,
     a ∈ evaluate_variables heap (Bucket._free_variables b) →
     v ∈ domain (heap (Bucket._variable b)) →
     log_factor ∈ Bucket._input_log_factors b →
     ∃ r, Bucket.log_factor_at heap b a v log_factor = Ok r) →
  ∃ F, Bucket.compute_output_log_factor heap b = Ok F ∧
       fac_variables F = Bucket._free_variables b ∧
       ∀ a, a ∈ evaluate_variables heap (Bucket._free_variables b) →
            ∃ r, function F a = Ok r ∧ Bucket.brute_force heap b a = Ok r.
Proof.
  intros Hset Hdom Hinputs Hdefined. unfold Bucket.compute_output_log_factor.
  set (val := fun a => ln (fsum (map (fun v =>
    exp (fsum (from_Ok [] (mapM (Bucket.log_factor_at heap b a v)
                             (Bucket._input_log_factors b)))))
    (domain (heap (Bucket._variable b)))))).
  destruct (dict_comp_Ok (fun a : list Z => a) (Bucket.output_value heap b) val
              (evaluate_variables heap (Bucket._free_variables b))) as (d & -> & Hget).
  { intros a Ha. apply bucket_output_value; try done. intros v f Hv Hf. by apply Hdefined. }
  simpl. eexists. split; [done|]. simpl. split; [done|].
  intros a Ha. exists (val a). rewrite Hget; [|by intros ? _ ->|done]. split; [done|].
  apply bucket_brute_force; try done. intros v f Hv Hf. by apply Hdefined.
Qed.

(** ** The message caches (C4) *)

#[export] Instance caches_grow_po : PreOrder caches_grow.
Proof.
  split.
  - intros s. split; [done|]. exists []. rewrite app_nil_r. split; [done|].
    split; [constructor|]. intros k Hk. by apply elem_of_nil in Hk.
  - intros s1 s2 s3 [K12 (n12 & E12 & D12 & N12)] [K23 (n23 & E23 & D23 & N23)]. split.
    + intros k m Hk. by apply K23, K12.
    + exists (n12 ++ n23). rewrite E23, E12, app_assoc. split; [done|]. split.
      * apply NoDup_app. split; [done|]. split; [|done].
        intros k Hk1 Hk2. destruct (N12 k Hk1) as [_ [m Hm]].
        destruct (N23 k Hk2) as [Hnone _]. congruence.
      * intros k [Hk|Hk]%elem_of_app.
        -- destruct (N12 k Hk) as [? [m Hm]]. split; [done|]. exists m. by apply K23.
        -- destruct (N23 k Hk) as [Hnone ?]. split; [|done].
           destruct (stored s1 k) as [m|] eqn:Hs1; [|done].
           apply K12 in Hs1. congruence.
Qed.

Lemma caches_grow_same (s s' : BP) :
  _factor_to_variable_messages s' = _factor_to_variable_messages s →
  _variable_to_factor_messages s' = _variable_to_factor_messages s →
  computed s' = computed s →
  caches_grow s s'.
Proof.
  intros Hfv Hvf Hc. split.
  - intros [[[d ev] a] b] m. unfold stored, store_of. simpl. destruct d; congruence.
  - exists []. rewrite app_nil_r. split; [done|]. split; [constructor|].
    intros k Hk. by apply elem_of_nil in Hk.
Qed.

Lemma step_caches_grow (s s' : BP) : step s s' → caches_grow s s'.
Proof.
  destruct 1 as [| | | | | | | | |s Hnone|s Hnone|s ms m Hms Hm|s ms m Hms Hm];
    try (by apply caches_grow_same).
  - split.
    + intros [[[d ev] a] b] m. unfold stored, store_of. simpl. destruct d; [|done].
      destruct (decide (ev = _evidence_tuples s)) as [->|Hne].
      * by rewrite Hnone.
      * by rewrite lookup_insert_ne.
    + exists []. simpl. rewrite app_nil_r. split; [done|]. split; [constructor|].
      intros k Hk. by apply elem_of_nil in Hk.
  - split.
    + intros [[[d ev] a] b] m. unfold stored, store_of. simpl. destruct d; [done|].
      destruct (decide (ev = _evidence_tuples s)) as [->|Hne].
      * by rewrite Hnone.
      * by rewrite lookup_insert_ne.
    + exists []. simpl. rewrite app_nil_r. split; [done|]. split; [constructor|].
      intros k Hk. by apply elem_of_nil in Hk.
  - split.
    + intros [[[d ev] a] b] m'. unfold stored, store_of. simpl. destruct d; [|done].
      destruct (decide (ev = _evidence_tuples s)) as [->|Hne].
      * rewrite Hms, lookup_insert_eq. simpl.
        destruct (decide ((a, b) = (from_node m, to_node m))) as [->|Hne'].
        -- by rewrite Hm.
        -- by rewrite lookup_insert_ne.
      * by rewrite lookup_insert_ne.
    + eexists [_]. simpl. split; [done|]. split; [apply NoDup_singleton|].
      intros k ->%list_elem_of_singleton. unfold stored, store_of. simpl.
      rewrite Hms, lookup_insert_eq. simpl. rewrite Hm, lookup_insert_eq. by split.
  - split.
    + intros [[[d ev] a] b] m'. unfold stored, store_of. simpl. destruct d; [done|].
      destruct (decide (ev = _evidence_tuples s)) as [->|Hne].
      * rewrite Hms, lookup_insert_eq. simpl.
        destruct (decide ((a, b) = (from_node m, to_node m))) as [->|Hne'].
        -- by rewrite Hm.
        -- by rewrite lookup_insert_ne.
      * by rewrite lookup_insert_ne.
    + eexists [_]. simpl. split; [done|]. split; [apply NoDup_singleton|].
      intros k ->%list_elem_of_singleton. unfold stored, store_of. simpl.
      rewrite Hms, lookup_insert_eq. simpl. rewrite Hm, lookup_insert_eq. by split.
Qed.

Lemma steps_caches_grow (s s' : BP) : rtc step s s' → caches_grow s s'.
Proof.
  induction 1 as [|s1 s2 s3 H12 _ IH]; [done|].
  trans s2; [by apply step_caches_grow|done].
Qed.

Lemma run_caches_grow (fuel : nat) (print_info : bool) (s s' : BP) (r : result unit) :
  run fuel print_info s = Some (r, s') → caches_grow s s'.
Proof.
  intros [(e & _ & ->)|(q & _ & Hsteps)]%run_inv; [done|].
  trans (set_query_variable (Some q) s); [by apply caches_grow_same|].
  by apply steps_caches_grow.
Qed.

(** Every method that computes a message looks the key up first and does
    nothing when the store holds it. *)
Lemma compute_cached (s : BP) (a b : nat) :
  (∀ m, stored s (FactorToVariable, _evidence_tuples s, a, b) = Some m →
        _compute_factor_to_variable_message_from_leaf a b s = (Ok tt, s) ∧
        _compute_factor_to_variable_message_not_from_leaf a b s = (Ok tt, s)) ∧
  (∀ m, stored s (VariableToFactor, _evidence_tuples s, a, b) = Some m →
        _compute_variable_to_factor_message_from_leaf a b s = (Ok tt, s) ∧
        _compute_variable_to_factor_message_not_from_leaf a b s = (Ok tt, s)).
Proof.
  split; intros m; unfold stored, store_of; simpl; intros Hm.
  - destruct (_factor_to_variable_messages s !! _evidence_tuples s) as [ms|] eqn:Hms;
      [|done]. simpl in Hm.
    unfold _compute_factor_to_variable_message_from_leaf,
      _compute_factor_to_variable_message_not_from_leaf, factor_to_variable_store.
    rewrite !bind_run. simpl. rewrite Hms. simpl. unfold Messages_contains.
    by rewrite bool_decide_eq_true_2 by by exists m.
  - destruct (_variable_to_factor_messages s !! _evidence_tuples s) as [ms|] eqn:Hms;
      [|done]. simpl in Hm.
    unfold _compute_variable_to_factor_message_from_leaf,
      _compute_variable_to_factor_message_not_from_leaf, variable_to_factor_store.
    rewrite !bind_run. simpl. rewrite Hms. simpl. unfold Messages_contains.
    by rewrite bool_decide_eq_true_2 by by exists m.
Qed.

Lemma session_step_caches_grow (s s' : BP) : session_step s s' → caches_grow s s'.
Proof.
  destruct 1 as [s fuel pi r s' Hrun|s s' (?&?&?)].
  - by eapply run_caches_grow.
  - by apply caches_grow_same.
Qed.

(** C4.  In every state [s] an engine reaches from a fresh one by runs,
    changes of the query, of the evidence and of the traversal order, each
    message, keyed by direction, evidence, origin and destination, has been
    computed at most once (the trace [computed] has no duplicate), and what
    has been computed is in the store.  A further run from [s] keeps every
    stored message and computes only messages the store of [s] did not hold
    for their evidence.  Each of the four message-computing operations looks
    its key up in the store of the current evidence first and, the message
    being there, returns at once with the engine unchanged. *)
Theorem messages_computed_at_most_once (s0 s : BP) :
  rtc session_step s0 s →
  computed s0 = [] →
  NoDup (computed s) ∧
  (∀ k, k ∈ computed s → is_Some (stored s k)) ∧
  (∀ fuel print_info r s',
     run fuel print_info s = Some (r, s') →
     (∀ k m, stored s k = Some m → stored s' k = Some m) ∧
     ∃ new, computed s' = computed s ++ new ∧ ∀ k, k ∈ new → stored s k = None) ∧
  (∀ a b m,
     stored s (FactorToVariable, _evidence_tuples s, a, b) = Some m →
     _compute_factor_to_variable_message_from_leaf a b s = (Ok tt, s) ∧
     _compute_factor_to_variable_message_not_from_leaf a b s = (Ok tt, s)) ∧
  (∀ a b m,
     stored s (VariableToFactor, _evidence_tuples s, a, b) = Some m →
     _compute_variable_to_factor_message_from_leaf a b s = (Ok tt, s) ∧
     _compute_variable_to_factor_message_not_from_leaf a b s = (Ok tt, s)).
Proof.
  intros Hsession Hfresh.
  assert (caches_grow s0 s) as [_ (new & Hnew & Hnd & Hin)].
  { clear Hfresh. induction Hsession as [|s1 s2 s3 H12 _ IH]; [done|].
    trans s2; [by apply session_step_caches_grow|done]. }
  rewrite Hfresh in Hnew. simpl in Hnew. subst new.
  split; [done|]. split; [intros k Hk; by apply Hin|].
  split.
  - intros fuel print_info r s' Hrun.
    destruct (run_caches_grow _ _ _ _ _ Hrun) as [Hkept (new & Hc & _ & Hn)].
    split; [done|]. exists new. split; [done|]. intros k Hk. by apply Hn.
  - split; intros a b m; by apply compute_cached.
Qed.

(** ** The traversal on a graph with a cycle (C6) *)

Lemma same_graph_nbrs s s' n : same_graph s s' → node_nbrs s' n = node_nbrs s n.
Proof.
  intros [Hv Hf _ _ _ _ _ _ _ _]. destruct n as [x|a]; simpl.
  - by destruct (Hv x) as (_ & _ & -> & _).
  - by destruct (Hf a) as (_ & -> & _).
Qed.

Lemma same_graph_degree s s' n : same_graph s s' → node_degree s' n = node_degree s n.
Proof. intros H. unfold node_degree. by rewrite (same_graph_nbrs s s'). Qed.

Lemma wf_graph_closed s n k :
  wf_graph s → node_listed s n → k ∈ node_nbrs s n → node_listed s k ∧ n ∈ node_nbrs s k.
Proof.
  intros [Hv Hf _ _ _ _] Hn Hk. destruct n as [x|a]; simpl in *.
  - apply list_elem_of_fmap in Hk as (a & -> & Ha). simpl.
    rewrite Forall_forall in Hv. specialize (Hv x Hn). rewrite Forall_forall in Hv.
    destruct (Hv a Ha) as [? ?]. split; [done|]. by apply list_elem_of_fmap_2.
  - apply list_elem_of_fmap in Hk as (x & -> & Hx). simpl.
    rewrite Forall_forall in Hf. specialize (Hf a Hn). rewrite Forall_forall in Hf.
    destruct (Hf x Hx) as [? ?]. split; [done|]. by apply list_elem_of_fmap_2.
Qed.

Lemma filter_disjoint_length {A} (P Q : A → Prop) `{∀ x, Decision (P x)} `{∀ x, Decision (Q x)}
    (l : list A) :
  (∀ x, x ∈ l → P x → Q x → False) →
  length (filter P l) + length (filter Q l) ≤ length l.
Proof.
  induction l as [|x l IH]; intros Hd; [done|].
  rewrite !filter_cons. simpl.
  assert (length (filter P l) + length (filter Q l) ≤ length l) as IH'.
  { apply IH. intros y Hy. apply Hd. by right. }
  destruct (decide (P x)) as [HP|HP], (decide (Q x)) as [HQ|HQ]; simpl; try lia.
  exfalso. by apply (Hd x ltac:(left)).
Qed.

Lemma filter_length_mono {A} (P Q : A → Prop) `{∀ x, Decision (P x)} `{∀ x, Decision (Q x)}
    (l : list A) :
  (∀ x, x ∈ l → P x → Q x) → length (filter P l) ≤ length (filter Q l).
Proof.
  induction l as [|x l IH]; intros Hd; [done|].
  rewrite !filter_cons.
  assert (length (filter P l) ≤ length (filter Q l)) as IH'.
  { apply IH. intros y Hy. apply Hd. by right. }
  destruct (decide (P x)) as [HP|HP], (decide (Q x)) as [HQ|HQ]; simpl; try lia.
  exfalso. apply HQ. by apply (Hd x ltac:(left)).
Qed.

Lemma filter_length_gain {A} (P Q : A → Prop) `{∀ x, Decision (P x)} `{∀ x, Decision (Q x)}
    (l : list A) (m : A) :
  (∀ x, x ∈ l → P x → Q x) → m ∈ l → ¬ P m → Q m →
  length (filter P l) + 1 ≤ length (filter Q l).
Proof.
  induction l as [|x l IH]; intros Hd Hm HP HQ; [by apply elem_of_nil in Hm|].
  rewrite !filter_cons.
  assert (length (filter P l) ≤ length (filter Q l)) as Hmono.
  { apply filter_length_mono. intros y Hy. apply Hd. by right. }
  apply elem_of_cons in Hm as [<-|Hm].
  - rewrite decide_False by done. rewrite decide_True by done. simpl. lia.
  - assert (length (filter P l) + 1 ≤ length (filter Q l)) as IH'.
    { apply IH; try done. intros y Hy. apply Hd. by right. }
    destruct (decide (P x)) as [HPx|HPx], (decide (Q x)) as [HQx|HQx]; simpl; try lia.
    exfalso. apply HQx. by apply (Hd x ltac:(left)).
Qed.

Lemma nbrs_other_kind s m n : n ∈ node_nbrs s m → n ≠ m.
Proof.
  destruct m as [x|a]; simpl; intros (k & -> & _)%list_elem_of_fmap; done.
Qed.

Lemma relay_inv_perm s0 q cyc P P' s :
  P ≡ₚ P' → relay_inv s0 q cyc P s → relay_inv s0 q cyc P' s.
Proof.
  intros HP [H1 H2 H3 H4 H5 H6]. split; try done.
  - intros n Hn. apply H4. by rewrite HP.
  - by rewrite <- HP.
  - intros n Hl [Hn|Hn]; apply H6; [done|by left|done|right; by rewrite HP].
Qed.

Lemma relay_inv_head s0 q cyc m P s :
  relay_inv s0 q cyc (m :: P) s →
  relay_inv s0 q cyc P s ∧ node_listed s0 m ∧ (m ∉ cyc) ∧ node_passed s m = false ∧
  (m ∉ P) ∧ node_degree s m ≤ node_incoming s m + 1.
Proof.
  intros [H1 H2 H3 H4 H5 H6]. apply NoDup_cons in H5 as [Hm H5].
  destruct (H4 m ltac:(left)) as (Hl & Hc & Hp & _).
  split; [split; try done|].
  - intros n Hn. apply H4. by right.
  - intros n Hl' [Hn|Hn]; apply H6; [done|by left|done|right; by right].
  - repeat split; try done. apply H6; [done|right; left].
Qed.

Section Relay.
Context (s0 : BP) (q : var_id) (cyc : list node).
Hypothesis Hwf : wf_graph s0.
Hypothesis Hcyc : cycle_reaches s0 q cyc.

Lemma cycle_node_short (s : BP) (n : node) :
  same_graph s0 s →
  (∀ k, k ∈ cyc → node_passed s k = false) →
  passed_nbrs s n + on_cycle cyc s0 n ≤ node_degree s n.
Proof.
  intros Hg Hun. unfold passed_nbrs, on_cycle, node_degree.
  rewrite (same_graph_nbrs s0 s) by done.
  apply filter_disjoint_length. intros k _ Hp Hk. rewrite (Hun k Hk) in Hp. done.
Qed.

Lemma relay_inv_send (P : list node) (s s' : BP) (m n : node) :
  relay_inv s0 q cyc P s →
  relays m n s s' →
  node_listed s0 m → m ∉ cyc → node_passed s m = false → m ∉ P →
  node_degree s m ≤ node_incoming s m + 1 →
  n ∈ node_nbrs s m →
  relay_inv s0 q cyc P s' ∧
  (n ≠ V q → node_incoming s' n + 1 = node_degree s' n → relay_inv s0 q cyc (P ++ [n]) s').
Proof.
  intros [H1 H2 H3 H4 H5 H6] [R1 R2 R3] Hml Hmc Hmp HmP Hmd Hn.
  assert (same_graph s0 s') as Hg' by (by trans s).
  assert (∀ k, node_degree s' k = node_degree s k) as Hdeg.
  { intros k. by apply same_graph_degree. }
  assert (∀ k, node_nbrs s' k = node_nbrs s k) as Hnb.
  { intros k. by apply same_graph_nbrs. }
  assert (n ≠ m) as Hnm by by eapply nbrs_other_kind.
  assert (node_listed s0 n ∧ m ∈ node_nbrs s0 n) as [Hnl Hmn].
  { apply wf_graph_closed; [done..|]. by rewrite <- (same_graph_nbrs s0 s). }
  assert (∀ k, k ∈ cyc → node_passed s' k = false) as H2'.
  { intros k Hk. rewrite R2. rewrite decide_False by (by intros ->). by apply H2. }
  assert (∀ k, k ∈ cyc → node_incoming s' k ≤ passed_nbrs s' k) as H3'.
  { intros k Hk. rewrite R3. unfold passed_nbrs. rewrite Hnb.
    specialize (H3 k Hk). unfold passed_nbrs in H3.
    destruct (decide (k = n)) as [->|Hkn].
    - etrans; [|apply (filter_length_gain (fun j => node_passed s j = true) _ _ m)].
      + lia.
      + intros j _ Hj. rewrite R2. by case_decide.
      + by rewrite (same_graph_nbrs s0 s).
      + by rewrite Hmp.
      + rewrite R2. by rewrite decide_True.
    - etrans; [exact H3|]. apply filter_length_mono.
      intros j _ Hj. rewrite R2. by case_decide. }
  assert (∀ k, k ∈ P → node_listed s0 k ∧ (k ∉ cyc) ∧ node_passed s' k = false
                       ∧ 2 ≤ node_degree s' k) as H4'.
  { intros k Hk. destruct (H4 k Hk) as (? & ? & ? & ?). repeat split; try done.
    - rewrite R2. rewrite decide_False; [done|]. by intros ->.
    - by rewrite Hdeg. }
  assert (∀ k, node_listed s0 k → node_passed s' k = true ∨ k ∈ P →
               node_degree s' k ≤ node_incoming s' k + 1) as H6'.
  { intros k Hkl Hk. rewrite Hdeg, R3.
    assert (node_degree s k ≤ node_incoming s k + 1); [|case_decide; lia].
    destruct (decide (k = m)) as [->|Hkm]; [done|].
    apply H6; [done|]. destruct Hk as [Hk|Hk]; [|by right].
    left. rewrite R2 in Hk. by rewrite decide_False in Hk. }
  split; [by split|].
  intros Hnq Hready.
  assert (node_incoming s n + 2 = node_degree s n) as Hold.
  { rewrite R3, decide_True, Hdeg in Hready by done. lia. }
  assert (node_passed s n = false ∧ n ∉ P) as [Hnp HnP].
  { split.
    - destruct (node_passed s n) eqn:Hp; [|done].
      specialize (H6 n Hnl (or_introl Hp)). lia.
    - intros HnP. specialize (H6 n Hnl (or_intror HnP)). lia. }
  split; try done.
  - intros k [Hk|Hk%list_elem_of_singleton]%elem_of_app; [by apply H4'|]. subst k.
    repeat split; try done.
    + intros Hnc.
      destruct Hcyc as [_ _ Hnodes]. rewrite Forall_forall in Hnodes.
      destruct (Hnodes n Hnc) as [_ [?|Hon]]; [done|].
      pose proof (cycle_node_short s' n Hg' H2'). specialize (H3' n Hnc). lia.
    + rewrite R2. by rewrite decide_False.
    + rewrite Hdeg. lia.
  - apply NoDup_app. split; [done|]. split; [|apply NoDup_singleton].
    intros k Hk ->%list_elem_of_singleton. done.
  - intros k Hkl [Hk|[Hk|Hk%list_elem_of_singleton]%elem_of_app]; [| |subst k].
    + apply H6'; [done|by left].
    + apply H6'; [done|by right].
    + lia.
Qed.

(** With the invariant, the stop condition of the loop is not met. *)
Lemma relay_inv_running (P : list node) (s : BP) :
  relay_inv s0 q cyc P s →
  node_incoming s (V q) < node_degree s (V q).
Proof.
  intros [H1 H2 H3 _ _ _].
  destruct Hcyc as [Hq Hqd _].
  pose proof (cycle_node_short s (V q) H1 H2). specialize (H3 (V q) Hq). lia.
Qed.
End Relay.


#[export] Instance same_traversal_po : PreOrder same_traversal.
Proof.
  split.
  - intros s. by split.
  - intros s1 s2 s3 [] []. split; try congruence. by trans s2.
Qed.

Lemma cache_factor_to_variable_traversal m :
  preserves same_traversal (cache_factor_to_variable m).
Proof.
  intros s r s'. unfold cache_factor_to_variable, factor_to_variable_store.
  rewrite !bind_run. simpl.
  destruct (_factor_to_variable_messages s !! _evidence_tuples s) as [ms|]; simpl;
    [|by intros [= _ <-]].
  rewrite !bind_run. simpl. destruct (Messages_cache ms m); simpl; intros [= _ <-]; done.
Qed.

Lemma cache_variable_to_factor_traversal m :
  preserves same_traversal (cache_variable_to_factor m).
Proof.
  intros s r s'. unfold cache_variable_to_factor, variable_to_factor_store.
  rewrite !bind_run. simpl.
  destruct (_variable_to_factor_messages s !! _evidence_tuples s) as [ms|]; simpl;
    [|by intros [= _ <-]].
  rewrite !bind_run. simpl. destruct (Messages_cache ms m); simpl; intros [= _ <-]; done.
Qed.

#[export] Hint Resolve cache_factor_to_variable_traversal
  cache_variable_to_factor_traversal : frame.

Lemma compute_fv_leaf_traversal a x :
  preserves same_traversal (_compute_factor_to_variable_message_from_leaf a x).
Proof.
  unfold _compute_factor_to_variable_message_from_leaf, factor_to_variable_store, _print_message.
  preserves_tac.
Qed.

Lemma compute_fv_interior_traversal a x :
  preserves same_traversal (_compute_factor_to_variable_message_not_from_leaf a x).
Proof.
  unfold _compute_factor_to_variable_message_not_from_leaf, factor_to_variable_store,
    variable_to_factor_store, _print_message.
  preserves_tac.
Qed.

Lemma compute_vf_leaf_traversal x a :
  preserves same_traversal (_compute_variable_to_factor_message_from_leaf x a).
Proof.
  unfold _compute_variable_to_factor_message_from_leaf, variable_to_factor_store, _print_message.
  preserves_tac.
Qed.

Lemma compute_vf_interior_traversal x a :
  preserves same_traversal (_compute_variable_to_factor_message_not_from_leaf x a).
Proof.
  unfold _compute_variable_to_factor_message_not_from_leaf, variable_to_factor_store,
    _print_message.
  preserves_tac.
Qed.



Lemma relays_same_objects (m n : node) (s s1 s2 s' : BP) :
  same_traversal s s1 → relays m n s1 s2 →
  var_obj s' = var_obj s2 → fac_obj s' = fac_obj s2 → same_graph s2 s' →
  relays m n s s'.
Proof.
  intros [G1 V1 F1 _ _ _ _] [G2 P2 I2] V3 F3 G3.
  assert (∀ k, node_passed s1 k = node_passed s k) as Hp1.
  { intros [y|b]; simpl; by rewrite ?V1, ?F1. }
  assert (∀ k, node_incoming s1 k = node_incoming s k) as Hi1.
  { intros [y|b]; simpl; by rewrite ?V1, ?F1. }
  assert (∀ k, node_passed s' k = node_passed s2 k) as Hp3.
  { intros [y|b]; simpl; by rewrite ?V3, ?F3. }
  assert (∀ k, node_incoming s' k = node_incoming s2 k) as Hi3.
  { intros [y|b]; simpl; by rewrite ?V3, ?F3. }
  split.
  - trans s1; [done|]. by trans s2.
  - intros k. by rewrite Hp3, P2, Hp1.
  - intros k. by rewrite Hi3, I2, Hi1.
Qed.

Lemma update_passing_from_factor_relays (a : factor_id) (x : var_id) (s : BP) :
  ∃ s2, _update_passing_from_factor a x s = (Ok tt, s2) ∧ relays (F a) (V x) s s2 ∧
        _from_factors s2 = _from_factors s ∧ _next_factors s2 = _next_factors s ∧
        _from_variables s2 = _from_variables s ∧ _next_variables s2 = _next_variables s.
Proof.
  eexists. split; [reflexivity|]. split; [|done]. split.
  - apply steps_same_graph. by eapply update_passing_from_factor_steps.
  - intros [y|b]; simpl.
    + destruct (decide (x = y)) as [->|Hne].
      * by rewrite fn_lookup_insert.
      * by rewrite fn_lookup_insert_ne.
    + destruct (decide (a = b)) as [->|Hne].
      * rewrite fn_lookup_insert. by rewrite decide_True.
      * rewrite fn_lookup_insert_ne by done. rewrite decide_False; [done|congruence].
  - intros [y|b]; simpl.
    + destruct (decide (x = y)) as [->|Hne].
      * rewrite fn_lookup_insert. by rewrite decide_True.
      * rewrite fn_lookup_insert_ne by done. rewrite decide_False; [done|congruence].
    + destruct (decide (a = b)) as [->|Hne].
      * by rewrite fn_lookup_insert.
      * by rewrite fn_lookup_insert_ne.
Qed.

Lemma update_passing_from_variable_relays (x : var_id) (a : factor_id) (s : BP) :
  ∃ s2, _update_passing_from_variable x a s = (Ok tt, s2) ∧ relays (V x) (F a) s s2 ∧
        _from_factors s2 = _from_factors s ∧ _next_factors s2 = _next_factors s ∧
        _from_variables s2 = _from_variables s ∧ _next_variables s2 = _next_variables s.
Proof.
  eexists. split; [reflexivity|]. split; [|done]. split.
  - apply steps_same_graph. by eapply update_passing_from_variable_steps.
  - intros [y|b]; simpl.
    + destruct (decide (x = y)) as [->|Hne].
      * rewrite fn_lookup_insert. by rewrite decide_True.
      * rewrite fn_lookup_insert_ne by done. rewrite decide_False; [done|congruence].
    + destruct (decide (a = b)) as [->|Hne].
      * by rewrite fn_lookup_insert.
      * by rewrite fn_lookup_insert_ne.
  - intros [y|b]; simpl.
    + destruct (decide (x = y)) as [->|Hne].
      * by rewrite fn_lookup_insert.
      * by rewrite fn_lookup_insert_ne.
    + destruct (decide (a = b)) as [->|Hne].
      * rewrite fn_lookup_insert. by rewrite decide_True.
      * rewrite fn_lookup_insert_ne by done. rewrite decide_False; [done|congruence].
Qed.

Lemma send_from_factor (c : M unit) (a : factor_id) (x : var_id) (s s' : BP) :
  preserves same_traversal c →
  (c;; _update_passing_from_factor a x;; _extend_next_variables x) s = (Ok tt, s') →
  sends (F a) (V x) s s'.
Proof.
  intros Hc H. apply bind_Ok_inv in H as ([] & s1 & H1 & H).
  apply Hc in H1 as Hst. destruct (Hst) as [G1 V1 F1 FF1 NF1 FV1 NV1].
  destruct (update_passing_from_factor_relays a x s1)
    as (s2 & H2 & R2 & FF2 & NF2 & FV2 & NV2).
  rewrite bind_run, H2 in H. unfold _extend_next_variables in H.
  rewrite bind_run in H. simpl in H.
  assert (_query_variable s2 = _query_variable s) as Hq.
  { destruct R2 as [G2 _ _]. destruct G1, G2. congruence. }
  destruct (decide (Some x = _query_variable s2)) as [Hxq|Hxq].
  { injection H as <-. split; [by eapply relays_same_objects|congruence..|].
    left. unfold queued. congruence. }
  destruct (decide (_ = _)) as [Hready|Hready].
  - injection H as <-. split.
    + eapply relays_same_objects; try done; apply step_same_graph; constructor.
    + simpl. congruence.
    + simpl. congruence.
    + right. unfold queued. simpl. rewrite NF2, NF1, NV2, NV1. split; [|split].
      * by rewrite fmap_app, app_assoc.
      * rewrite <- Hq. destruct (_query_variable s2); simpl; congruence.
      * unfold node_degree. simpl. rewrite length_map. exact Hready.
  - injection H as <-. split; [by eapply relays_same_objects|congruence..|].
    left. unfold queued. congruence.
Qed.

Lemma send_from_variable (c : M unit) (x : var_id) (a : factor_id) (s s' : BP) :
  preserves same_traversal c →
  (c;; _update_passing_from_variable x a;; _extend_next_factors a) s = (Ok tt, s') →
  sends (V x) (F a) s s'.
Proof.
  intros Hc H. apply bind_Ok_inv in H as ([] & s1 & H1 & H).
  apply Hc in H1 as Hst. destruct (Hst) as [G1 V1 F1 FF1 NF1 FV1 NV1].
  destruct (update_passing_from_variable_relays x a s1)
    as (s2 & H2 & R2 & FF2 & NF2 & FV2 & NV2).
  rewrite bind_run, H2 in H. unfold _extend_next_factors in H.
  rewrite bind_run in H. simpl in H.
  destruct (decide (_ = _)) as [Hready|Hready].
  - injection H as <-. split.
    + eapply relays_same_objects; try done; apply step_same_graph; constructor.
    + simpl. congruence.
    + simpl. congruence.
    + right. unfold queued. simpl. rewrite NF2, NF1, NV2, NV1. split; [|split].
      * rewrite fmap_app. simpl. by rewrite <- !app_assoc, (Permutation_app_comm [F a]).
      * by destruct (_query_variable s).
      * unfold node_degree. simpl. rewrite length_map. exact Hready.
  - injection H as <-. split; [by eapply relays_same_objects|congruence..|].
    left. unfold queued. congruence.
Qed.

Lemma for_each_Ok_inv {A} (I : list A → BP → Prop) (body : A → M unit) (l : list A)
    (s s' : BP) :
  for_each l body s = (Ok tt, s') →
  I l s →
  (∀ x rest s1 s2, I (x :: rest) s1 → body x s1 = (Ok tt, s2) → I rest s2) →
  I [] s'.
Proof.
  intros H HI Hstep. revert s H HI. induction l as [|x l IH]; intros s H HI; simpl in H.
  - by injection H as <-.
  - apply bind_Ok_inv in H as ([] & s1 & H1 & H). eapply IH; [done|]. by eapply Hstep.
Qed.

Lemma propagate_fv_interior_sends (a : factor_id) (s s' : BP) :
  _propagate_factor_to_variable_message_not_from_leaf a s = (Ok tt, s') →
  ∃ x, V x ∈ node_nbrs s (F a) ∧ sends (F a) (V x) s s'.
Proof.
  unfold _propagate_factor_to_variable_message_not_from_leaf. intros H.
  inv_bind H. inv_bind H.
  exists a0. split.
  - simpl. apply list_elem_of_fmap_2.
    destruct (filter _ _) as [|y [|??]] eqn:Hf; simplify_eq/=.
    eapply (list_elem_of_filter (fun x => var_passed (var_obj s x) = false)).
    rewrite Hf. left.
  - eapply send_from_factor; [|exact H]. apply compute_fv_interior_traversal.
Qed.

Lemma propagate_vf_interior_sends (x : var_id) (s s' : BP) :
  _propagate_variable_to_factor_message_not_from_leaf x s = (Ok tt, s') →
  ∃ a, F a ∈ node_nbrs s (V x) ∧ sends (V x) (F a) s s'.
Proof.
  unfold _propagate_variable_to_factor_message_not_from_leaf. intros H.
  inv_bind H. inv_bind H.
  exists a. split.
  - simpl. apply list_elem_of_fmap_2.
    destruct (filter _ _) as [|y [|??]] eqn:Hf; simplify_eq/=.
    eapply (list_elem_of_filter (fun a => fac_passed (fac_obj s a) = false)).
    rewrite Hf. left.
  - eapply send_from_variable; [|exact H]. apply compute_vf_interior_traversal.
Qed.

Lemma factor_leaf_sends (a : factor_id) (s s' : BP) :
  (s ← get;
   to_variable ← lift (of_option IndexError (head (fac_variables (fac_obj s a))));
   _compute_factor_to_variable_message_from_leaf a to_variable;;
   _update_passing_from_factor a to_variable;;
   _extend_next_variables to_variable) s = (Ok tt, s') →
  ∃ x, V x ∈ node_nbrs s (F a) ∧ sends (F a) (V x) s s'.
Proof.
  intros H. inv_bind H. inv_bind H. exists a0. split.
  - simpl. apply list_elem_of_fmap_2.
    destruct (fac_variables (fac_obj s a)) as [|y ?]; simplify_eq/=. left.
  - eapply send_from_factor; [|exact H]. apply compute_fv_leaf_traversal.
Qed.

Lemma variable_leaf_sends (x : var_id) (s s' : BP) :
  (s ← get;
   if decide (Some x = _query_variable s) then mret tt else
   to_factor ← lift (of_option IndexError (head (var_factors (var_obj s x))));
   _compute_variable_to_factor_message_from_leaf x to_factor;;
   _update_passing_from_variable x to_factor;;
   _extend_next_factors to_factor) s = (Ok tt, s') →
  (Some x = _query_variable s ∧ s' = s) ∨
  (Some x ≠ _query_variable s ∧ ∃ a, F a ∈ node_nbrs s (V x) ∧ sends (V x) (F a) s s').
Proof.
  intros H. inv_bind H. destruct (decide (Some x = _query_variable s)) as [Hq|Hq].
  - left. by injection H as <-.
  - right. split; [done|]. inv_bind H. exists a. split.
    + simpl. apply list_elem_of_fmap_2.
      destruct (var_factors (var_obj s x)) as [|y ?]; simplify_eq/=. left.
    + eapply send_from_variable; [|exact H]. apply compute_vf_leaf_traversal.
Qed.

Section RelayRun.
Context (s0 : BP) (q : var_id) (cyc : list node).
Hypothesis Hwf : wf_graph s0.
Hypothesis Hcyc : cycle_reaches s0 q cyc.
Hypothesis Hq0 : _query_variable s0 = Some q.

Lemma relay_inv_sends (R : list node) (s s' : BP) (m n : node) :
  relay_inv s0 q cyc (R ++ queued s) s →
  sends m n s s' →
  node_listed s0 m → m ∉ cyc → node_passed s m = false → m ∉ R ++ queued s →
  node_degree s m ≤ node_incoming s m + 1 →
  n ∈ node_nbrs s m →
  relay_inv s0 q cyc (R ++ queued s') s'.
Proof.
  intros Hinv [Hrel _ _ Hqd] Hml Hmc Hmp HmP Hmd Hn.
  destruct (relay_inv_send s0 q cyc Hwf Hcyc _ s s' m n Hinv Hrel) as [HA HB]; try done.
  destruct Hqd as [->|(Hperm & Hnq & Hready)]; [done|].
  eapply relay_inv_perm; [|apply HB].
  - rewrite Hperm. by rewrite app_assoc.
  - intros ->. destruct Hinv as [[_ _ _ _ _ _ _ _ _ Hqv] _ _ _ _ _].
    rewrite Hqv, Hq0 in Hnq. done.
  - done.
Qed.

Lemma degree_one_off_cycle (n : node) :
  node_degree s0 n = 1 → n ≠ V q → n ∉ cyc.
Proof.
  intros Hd Hnq Hn. destruct Hcyc as [_ _ Hnodes]. rewrite Forall_forall in Hnodes.
  destruct (Hnodes n Hn) as [_ [?|Hon]]; [done|].
  unfold on_cycle, node_degree in *.
  pose proof (length_filter (fun k => k ∈ cyc) (node_nbrs s0 n)). lia.
Qed.

Lemma degree_one_not_pending (P : list node) (s : BP) (n : node) :
  relay_inv s0 q cyc P s → node_degree s0 n = 1 → n ∉ P.
Proof.
  intros [Hg _ _ Hp _ _] Hd Hn. destruct (Hp n Hn) as (_ & _ & _ & H2).
  rewrite (same_graph_degree s0 s) in H2 by done. lia.
Qed.

(** The seeding from the factor leaves. *)
Lemma factor_leaves_phase (s s' : BP) :
  _propagate_factor_to_variable_messages_from_leaves s = (Ok tt, s') →
  relay_inv s0 q cyc (queued s) s →
  (∀ n, node_listed s0 n → node_passed s n = false) →
  relay_inv s0 q cyc (queued s') s' ∧
  (∀ x, x ∈ variables s0 → node_passed s' (V x) = false).
Proof.
  unfold _propagate_factor_to_variable_messages_from_leaves. intros H Hinv Hun.
  inv_bind H.
  assert (factor_leaves s = factor_leaves s0) as Hl.
  { by destruct Hinv as [[] _ _ _ _ _]. }
  rewrite Hl in H.
  pose (I := fun (rest : list factor_id) (s : BP) =>
    relay_inv s0 q cyc (queued s) s ∧ NoDup rest ∧
    (∀ a, a ∈ rest → a ∈ factor_leaves s0 ∧ node_passed s (F a) = false) ∧
    (∀ x, x ∈ variables s0 → node_passed s (V x) = false)).
  destruct Hwf as [_ _ Hnd Hfl _ _]. rewrite Forall_forall in Hfl.
  assert (I [] s') as (? & _ & _ & ?); [|done].
  eapply (for_each_Ok_inv I); [exact H| |].
  - split; [done|]. split; [done|]. split.
    + intros a Ha. split; [done|]. apply Hun. simpl. by apply Hfl.
    + intros x Hx. by apply Hun.
  - clear s s' H Hinv Hun Hl. intros a rest s1 s2 (Hinv & Hnd' & Hrest & Hvars) Hbody.
    apply factor_leaf_sends in Hbody as (x & Hx & Hsend).
    apply NoDup_cons in Hnd' as [Hna Hnd'].
    destruct (Hrest a ltac:(left)) as [Hleaf Hpa].
    destruct (Hfl a Hleaf) as [Hlisted Hdeg].
    assert (node_degree s0 (F a) = 1) as Hd0.
    { unfold node_degree. simpl. by rewrite length_map. }
    assert (node_degree s1 (F a) = 1) as Hd1.
    { rewrite (same_graph_degree s0 s1); [done|]. by destruct Hinv. }
    split; [|split; [done|split]].
    + apply (relay_inv_sends [] s1 s2 (F a) (V x)); try done.
      * by apply degree_one_off_cycle.
      * simpl. by eapply degree_one_not_pending.
      * lia.
    + intros a' Ha'. destruct (Hrest a' ltac:(by right)) as [? Hp]. split; [done|].
      destruct Hsend as [[_ Hpass _] _ _ _]. rewrite Hpass.
      rewrite decide_False; [done|]. intros [= ->]. done.
    + intros y Hy. destruct Hsend as [[_ Hpass _] _ _ _]. rewrite Hpass.
      rewrite decide_False by done. by apply Hvars.
Qed.

(** The seeding from the variable leaves. *)
Lemma variable_leaves_phase (s s' : BP) :
  _propagate_variable_to_factor_messages_from_leaves s = (Ok tt, s') →
  relay_inv s0 q cyc (queued s) s →
  (∀ x, x ∈ variables s0 → node_passed s (V x) = false) →
  relay_inv s0 q cyc (queued s') s'.
Proof.
  unfold _propagate_variable_to_factor_messages_from_leaves. intros H Hinv Hun.
  inv_bind H.
  assert (variable_leaves s = variable_leaves s0) as Hl.
  { by destruct Hinv as [[] _ _ _ _ _]. }
  rewrite Hl in H.
  pose (I := fun (rest : list var_id) (s : BP) =>
    relay_inv s0 q cyc (queued s) s ∧ NoDup rest ∧
    (∀ x, x ∈ rest → x ∈ variable_leaves s0 ∧ node_passed s (V x) = false)).
  destruct Hwf as [_ _ _ _ Hnd Hvl]. rewrite Forall_forall in Hvl.
  assert (I [] s') as (? & _ & _); [|done].
  eapply (for_each_Ok_inv I); [exact H| |].
  - split; [done|]. split; [done|].
    intros x Hx. split; [done|]. apply Hun. by apply Hvl.
  - clear s s' H Hinv Hun Hl. intros x rest s1 s2 (Hinv & Hnd' & Hrest) Hbody.
    apply NoDup_cons in Hnd' as [Hnx Hnd'].
    assert (_query_variable s1 = Some q) as Hq1.
    { destruct Hinv as [[_ _ _ _ _ _ _ _ _ Hqv] _ _ _ _ _]. by rewrite Hqv. }
    apply variable_leaf_sends in Hbody as [[Hxq ->]|(Hxq & a & Ha & Hsend)].
    { split; [done|]. split; [done|]. intros x' Hx'. apply Hrest. by right. }
    destruct (Hrest x ltac:(left)) as [Hleaf Hpx].
    destruct (Hvl x Hleaf) as [Hlisted Hdeg].
    assert (node_degree s0 (V x) = 1) as Hd0.
    { unfold node_degree. simpl. by rewrite length_map. }
    assert (node_degree s1 (V x) = 1) as Hd1.
    { rewrite (same_graph_degree s0 s1); [done|]. by destruct Hinv. }
    split; [|split; [done|]].
    + apply (relay_inv_sends [] s1 s2 (V x) (F a)); try done.
      * apply degree_one_off_cycle; [done|]. intros [= ->]. by rewrite Hq1 in Hxq.
      * simpl. by eapply degree_one_not_pending.
      * lia.
    + intros x' Hx'. destruct (Hrest x' ltac:(by right)) as [? Hp]. split; [done|].
      destruct Hsend as [[_ Hpass _] _ _ _]. rewrite Hpass.
      rewrite decide_False; [done|]. intros [= ->]. done.
Qed.
End RelayRun.

Lemma relay_inv_same_objects s0 q cyc P s s' :
  relay_inv s0 q cyc P s →
  var_obj s' = var_obj s → fac_obj s' = fac_obj s → same_graph s s' →
  relay_inv s0 q cyc P s'.
Proof.
  intros [H1 H2 H3 H4 H5 H6] HV HF HG.
  assert (∀ k, node_passed s' k = node_passed s k) as Hp.
  { intros [y|b]; simpl; by rewrite ?HV, ?HF. }
  assert (∀ k, node_incoming s' k = node_incoming s k) as Hi.
  { intros [y|b]; simpl; by rewrite ?HV, ?HF. }
  assert (∀ k, node_nbrs s' k = node_nbrs s k) as Hn.
  { intros [y|b]; simpl; by rewrite ?HV, ?HF. }
  assert (∀ k, passed_nbrs s' k = passed_nbrs s k) as Hpn.
  { intros k. unfold passed_nbrs. rewrite Hn. apply (f_equal length).
    apply list_filter_iff. intros j. by rewrite Hp. }
  split; try done.
  - by trans s.
  - intros n Hn'. rewrite Hp. by apply H2.
  - intros n Hn'. rewrite Hi, Hpn. by apply H3.
  - intros n Hn'. unfold node_degree. rewrite Hp, Hn. by apply H4.
  - intros n Hl Hn'. unfold node_degree. rewrite Hi, Hn. apply H6; [done|].
    by rewrite <- Hp.
Qed.

Lemma initialize_factor_passing_effect (s s' : BP) :
  _initialize_factor_passing s = (Ok tt, s') →
  var_obj s' = var_obj s ∧ _next_factors s' = _next_factors s ∧
  _next_variables s' = _next_variables s ∧
  ∀ a, a ∈ factors s →
       fac_passed (fac_obj s' a) = false ∧ fac_incoming_messages_number (fac_obj s' a) = 0.
Proof.
  unfold _initialize_factor_passing. intros H. inv_bind H.
  pose (I := fun (rest : list factor_id) (st : BP) =>
    var_obj st = var_obj s ∧ _next_factors st = _next_factors s ∧
    _next_variables st = _next_variables s ∧
    ∀ a, a ∈ factors s → a ∉ rest →
         fac_passed (fac_obj st a) = false ∧ fac_incoming_messages_number (fac_obj st a) = 0).
  assert (I [] s') as (? & ? & ? & Hreset).
  { eapply (for_each_Ok_inv I); [exact H| |].
    { unfold I. split; [done|]. split; [done|]. split; [done|]. intros b Hb Hnb. done. }
    intros a rest s1 s2 (HV & HNF & HNV & Hr) Hbody.
    unfold update_fac, modify in Hbody. rewrite bind_run in Hbody. simpl in Hbody.
    injection Hbody as <-. split; [done|]. split; [done|]. split; [done|]. simpl.
    intros b Hb Hnb. destruct (decide (a = b)) as [->|Hne].
    - by rewrite !fn_lookup_insert.
    - rewrite !fn_lookup_insert_ne by done. apply Hr; [done|].
      intros [?|?]%elem_of_cons; done. }
  split; [done|]. split; [done|]. split; [done|].
  intros a Ha. apply Hreset; [done|]. apply not_elem_of_nil.
Qed.

Lemma initialize_variable_passing_effect (s s' : BP) :
  _initialize_variable_passing s = (Ok tt, s') →
  fac_obj s' = fac_obj s ∧ _next_factors s' = _next_factors s ∧
  _next_variables s' = _next_variables s ∧
  ∀ x, x ∈ variables s →
       var_passed (var_obj s' x) = false ∧ var_incoming_messages_number (var_obj s' x) = 0.
Proof.
  unfold _initialize_variable_passing. intros H. inv_bind H.
  pose (I := fun (rest : list var_id) (st : BP) =>
    fac_obj st = fac_obj s ∧ _next_factors st = _next_factors s ∧
    _next_variables st = _next_variables s ∧
    ∀ x, x ∈ variables s → x ∉ rest →
         var_passed (var_obj st x) = false ∧ var_incoming_messages_number (var_obj st x) = 0).
  assert (I [] s') as (? & ? & ? & Hreset).
  { eapply (for_each_Ok_inv I); [exact H| |].
    { unfold I. split; [done|]. split; [done|]. split; [done|]. intros b Hb Hnb. done. }
    intros x rest s1 s2 (HF & HNF & HNV & Hr) Hbody.
    unfold update_var, modify in Hbody. rewrite bind_run in Hbody. simpl in Hbody.
    injection Hbody as <-. split; [done|]. split; [done|]. split; [done|]. simpl.
    intros b Hb Hnb. destruct (decide (x = b)) as [->|Hne].
    - by rewrite !fn_lookup_insert.
    - rewrite !fn_lookup_insert_ne by done. apply Hr; [done|].
      intros [?|?]%elem_of_cons; done. }
  split; [done|]. split; [done|]. split; [done|].
  intros y Hy. apply Hreset; [done|]. apply not_elem_of_nil.
Qed.

Section RelayLoop.
Context (s0 : BP) (q : var_id) (cyc : list node).
Hypothesis Hwf : wf_graph s0.
Hypothesis Hcyc : cycle_reaches s0 q cyc.
Hypothesis Hq0 : _query_variable s0 = Some q.

(** The sweep over the factors that are ready. *)
Lemma factor_sweep (Lf : list factor_id) (Lv : list var_id) (s s' : BP) :
  for_each Lf _propagate_factor_to_variable_message_not_from_leaf s = (Ok tt, s') →
  relay_inv s0 q cyc ((map F Lf ++ map V Lv) ++ queued s) s →
  relay_inv s0 q cyc (map V Lv ++ queued s') s' ∧ _from_variables s' = _from_variables s.
Proof.
  intros H Hinv.
  pose (I := fun (rest : list factor_id) (st : BP) =>
    relay_inv s0 q cyc ((map F rest ++ map V Lv) ++ queued st) st ∧
    _from_variables st = _from_variables s).
  assert (I [] s') as [? ?]; [|done].
  eapply (for_each_Ok_inv I); [exact H|by split|].
  clear s' H Hinv. intros a rest s1 s2 [Hinv Hfrom] Hbody.
  apply propagate_fv_interior_sends in Hbody as (x & Hx & Hsend).
  simpl in Hinv. apply relay_inv_head in Hinv as (Hinv & Hl & Hc & Hp & HP & Hd).
  split.
  - by apply (relay_inv_sends s0 q cyc Hwf Hcyc Hq0 _ s1 s2 (F a) (V x)).
  - destruct Hsend as [_ _ -> _]. done.
Qed.

(** The sweep over the variables that are ready. *)
Lemma variable_sweep (Lv : list var_id) (s s' : BP) :
  for_each Lv _propagate_variable_to_factor_message_not_from_leaf s = (Ok tt, s') →
  relay_inv s0 q cyc (map V Lv ++ queued s) s →
  relay_inv s0 q cyc (queued s') s'.
Proof.
  intros H Hinv.
  pose (I := fun (rest : list var_id) (st : BP) =>
    relay_inv s0 q cyc (map V rest ++ queued st) st).
  change (I [] s').
  eapply (for_each_Ok_inv I); [exact H|done|].
  clear s s' H Hinv. intros x rest s1 s2 Hinv Hbody. unfold I in *.
  apply propagate_vf_interior_sends in Hbody as (a & Ha & Hsend).
  simpl in Hinv. apply relay_inv_head in Hinv as (Hinv & Hl & Hc & Hp & HP & Hd).
  by apply (relay_inv_sends s0 q cyc Hwf Hcyc Hq0 _ s1 s2 (V x) (F a)).
Qed.

Lemma loop_body_inv (s s' : BP) :
  loop_body s = (Ok tt, s') →
  relay_inv s0 q cyc (queued s) s →
  relay_inv s0 q cyc (queued s') s'.
Proof.
  unfold loop_body, _print_loop. intros H Hinv.
  do 11 inv_bind H. destruct a5.
  match type of Hstep5 with for_each _ _ ?st = _ => set (sw := st) in * end.
  assert (same_graph s sw) as Hg.
  { apply steps_same_graph. unfold sw.
    repeat (eapply rtc_r; [|constructor]). apply rtc_refl. }
  assert (relay_inv s0 q cyc
            ((map F (_from_factors sw) ++ map V (_from_variables sw)) ++ queued sw) sw)
    as Hsw.
  { change (queued sw) with (@nil node). rewrite app_nil_r.
    by apply (relay_inv_same_objects s0 q cyc _ s). }
  apply (factor_sweep _ (_from_variables sw)) in Hstep5 as [Hinv1 Hfrom1]; [|exact Hsw].
  inv_bind H. rewrite Hfrom1 in H. by apply variable_sweep in H.
Qed.

Lemma main_loop_never_stops (fuel : nat) (s s' : BP) :
  relay_inv s0 q cyc (queued s) s →
  main_loop fuel s ≠ Some (Ok tt, s').
Proof.
  revert s. induction fuel as [|fuel IH]; intros s Hinv; simpl.
  - unfold _get_running_condition. rewrite !bind_run. simpl.
    assert (_query_variable s = Some q) as ->.
    { destruct Hinv as [[_ _ _ _ _ _ _ _ _ Hqv] _ _ _ _ _]. by rewrite Hqv. }
    simpl. pose proof (relay_inv_running s0 q cyc Hcyc _ s Hinv) as Hrun.
    unfold node_degree in Hrun. simpl in Hrun. rewrite length_map in Hrun.
    by rewrite bool_decide_eq_true_2.
  - unfold _get_running_condition. rewrite !bind_run. simpl.
    assert (_query_variable s = Some q) as ->.
    { destruct Hinv as [[_ _ _ _ _ _ _ _ _ Hqv] _ _ _ _ _]. by rewrite Hqv. }
    simpl. pose proof (relay_inv_running s0 q cyc Hcyc _ s Hinv) as Hrun.
    unfold node_degree in Hrun. simpl in Hrun. rewrite length_map in Hrun.
    rewrite bool_decide_eq_true_2 by done.
    destruct (loop_body s) as [[[]|e] s1] eqn:Hb; [|done].
    apply IH. by eapply loop_body_inv.
Qed.

Lemma initialize_main_loop_inv (s s' : BP) :
  _initialize_main_loop s = (Ok tt, s') →
  same_graph s0 s →
  relay_inv s0 q cyc (queued s') s'.
Proof.
  unfold _initialize_main_loop, _print_loop. intros H Hg.
  do 4 inv_bind H.
  match type of H with (_ ≫= _) ?st = _ => set (sA := st) in * end.
  assert (same_graph s sA) as HgA.
  { apply steps_same_graph. unfold sA.
    repeat (eapply rtc_r; [|constructor]). apply rtc_refl. }
  apply bind_Ok_inv in H as ([] & sB & HB & H).
  apply bind_Ok_inv in H as ([] & sC & HC & H).
  apply bind_Ok_inv in H as ([] & sD & HD & H).
  assert (same_graph sA sB) as HgB.
  { apply steps_same_graph. by eapply initialize_factor_passing_steps. }
  assert (same_graph sB sC) as HgC.
  { apply steps_same_graph. by eapply initialize_variable_passing_steps. }
  apply initialize_factor_passing_effect in HB as (HVB & HNFB & HNVB & HresetB).
  apply initialize_variable_passing_effect in HC as (HFC & HNFC & HNVC & HresetC).
  assert (same_graph s0 sC) as Hg0C by (trans s; [done|]; trans sA; [done|]; by trans sB).
  assert (∀ n, node_listed s0 n → node_passed sC n = false ∧ node_incoming sC n = 0)
    as Hreset.
  { intros [x|b] Hn; simpl in *.
    - apply HresetC. destruct HgB, HgA, Hg. congruence.
    - rewrite HFC. apply HresetB. destruct HgA, Hg. congruence. }
  assert (queued sC = []) as HqC.
  { unfold queued. by rewrite HNFC, HNVC, HNFB, HNVB. }
  assert (relay_inv s0 q cyc (queued sC) sC) as HinvC.
  { rewrite HqC. destruct Hcyc as [_ _ Hnodes]. rewrite Forall_forall in Hnodes.
    split; try done.
    - intros n Hn. apply Hreset. by apply Hnodes.
    - intros n Hn. destruct (Hreset n) as [_ ->]; [by apply Hnodes|]. lia.
    - intros n Hn. by apply elem_of_nil in Hn.
    - constructor.
    - intros n Hl [Hn|Hn]; [|by apply elem_of_nil in Hn].
      destruct (Hreset n Hl) as [Hp _]. congruence. }
  apply (factor_leaves_phase s0 q cyc Hwf Hcyc Hq0) in HD as [HinvD HunD]; [|done|].
  - by apply (variable_leaves_phase s0 q cyc Hwf Hcyc Hq0) in H.
  - intros n Hn. by apply Hreset.
Qed.
End RelayLoop.

Lemma set_query_variable_wf (s : BP) (o : option var_id) :
  wf_graph s → wf_graph (set_query_variable o s).
Proof. by intros []. Qed.

Lemma set_query_variable_cycle (s : BP) (o : option var_id) (q : var_id) (cyc : list node) :
  cycle_reaches s q cyc → cycle_reaches (set_query_variable o s) q cyc.
Proof. by intros []. Qed.

(** C6, as amended.  On a factor graph in which the query variable reaches a
    cycle, [run] returns no result: the main loop has no iteration bound and
    detects nothing, so the run either never leaves the loop (no amount of
    fuel suffices) or stops earlier with an exception raised by a message
    computation.  It never returns normally with a distribution. *)
Theorem run_on_cyclic_graph_never_returns_a_result (s : BP) (q : var_id) (cyc : list node)
    (fuel : nat) (print_info : bool) :
  wf_graph s →
  cycle_reaches s q cyc →
  _query s = [q] →
  run fuel print_info s = None ∨ ∃ e s', run fuel print_info s = Some (Err e, s').
Proof.
  intros Hwf Hcyc Hq. unfold run.
  destruct (run_before_loop print_info s) as [[[]|e] s1] eqn:Hb; [|right; by eexists _, _].
  apply run_before_loop_inv in Hb as [(e & ? & _)|(q' & Hq' & Hs)]; [done|].
  rewrite Hq in Hq'. injection Hq' as <-.
  set (s0 := set_query_variable (Some q) s) in *.
  assert (relay_inv s0 q cyc (queued s1) s1) as Hinv.
  { unfold run_setup, _print_start in Hs.
    apply bind_Ok_inv in Hs as ([] & sa & Ha & Hs).
    apply bind_Ok_inv in Hs as ([] & sb & Hb & Hs).
    apply create_fv_steps, steps_same_graph in Ha.
    apply create_vf_steps, steps_same_graph in Hb.
    do 3 inv_bind Hs.
    apply (initialize_main_loop_inv s0 q cyc (set_query_variable_wf s _ Hwf)
             (set_query_variable_cycle s _ q cyc Hcyc) eq_refl _ s1 Hs).
    trans sa; [done|]. trans sb; [done|]. apply steps_same_graph.
    repeat (eapply rtc_r; [|constructor]). apply rtc_refl. }
  pose proof (main_loop_never_stops s0 q cyc (set_query_variable_wf s _ Hwf)
                (set_query_variable_cycle s (Some q) q cyc Hcyc) eq_refl fuel s1) as Hloop.
  destruct (main_loop fuel s1) as [[[[]|e] s2]|]; [|right; by eexists _, _|by left].
  exfalso. by eapply Hloop.
Qed.

(** ** The two-variable cycle *)

Lemma cycle_engine_wf : wf_graph cycle_engine.
Proof. split; simpl; repeat constructor; set_solver. Qed.

Lemma cycle_engine_cycle : cycle_reaches cycle_engine 0 cycle_nodes.
Proof.
  split.
  - left.
  - vm_compute. lia.
  - repeat constructor; simpl; try set_solver; right; vm_compute; lia.
Qed.

Lemma cycle_engine_seeded_eq (print_info : bool) :
  run_before_loop print_info cycle_engine = (Ok tt, cycle_engine_seeded print_info).
Proof.
  unfold cycle_engine_seeded.
  assert ((run_before_loop print_info cycle_engine).1 = Ok tt) as H.
  { destruct print_info; vm_compute; reflexivity. }
  destruct (run_before_loop print_info cycle_engine) as [r s]. simpl in *. by subst.
Qed.

Lemma cycle_engine_spins (print_info : bool) (fuel n : nat) :
  main_loop fuel (set_loop_passing n (cycle_engine_seeded print_info)) = None.
Proof.
  revert n. induction fuel as [|fuel IH]; intros n.
  - destruct print_info; vm_compute; reflexivity.
  - change (main_loop (S fuel) (set_loop_passing n (cycle_engine_seeded print_info)))
      with (match _get_running_condition (set_loop_passing n (cycle_engine_seeded print_info)) with
            | (Err e, s') => Some (Err e, s')
            | (Ok false, s') => Some (Ok tt, s')
            | (Ok true, s') =>
                match loop_body s' with
                | (Ok _, s'') => main_loop fuel s''
                | (Err e, s'') => Some (Err e, s'')
                end
            end).
    assert (_get_running_condition (set_loop_passing n (cycle_engine_seeded print_info))
            = (Ok true, set_loop_passing n (cycle_engine_seeded print_info))) as ->.
    { destruct print_info; vm_compute; reflexivity. }
    assert (loop_body (set_loop_passing n (cycle_engine_seeded print_info))
            = (Ok tt, set_loop_passing (n + 1) (cycle_engine_seeded print_info))) as ->.
    { destruct print_info; vm_compute; reflexivity. }
    apply IH.
Qed.

(** C6 as specified fails: on the two-variable cycle nothing is
    detected and nothing rejected; [run] has not returned after any number
    of passes. *)
Lemma cycle_engine_never_returns :
  never_returns cycle_engine ∧ wf_graph cycle_engine ∧
  cycle_reaches cycle_engine 0 cycle_nodes.
Proof.
  split; [|split; [apply cycle_engine_wf|apply cycle_engine_cycle]].
  intros fuel print_info. unfold run. rewrite cycle_engine_seeded_eq.
  assert (cycle_engine_seeded print_info
          = set_loop_passing 0 (cycle_engine_seeded print_info)) as ->.
  { destruct print_info; vm_compute; reflexivity. }
  by rewrite cycle_engine_spins.
Qed.

(** ** Positive factors give a positive sum *)

Lemma spec_sum_pos (s : BP) (f : factor_id) (x : var_id) (msg : var_id → value → R)
    (fval : list value → value → R) (v : value) :
  evaluate_variables (var_obj s) (free_neighbours s f x) ≠ [] →
  (∀ a, a ∈ evaluate_variables (var_obj s) (free_neighbours s f x) → (0 < fval a v)%R) →
  (0 < spec_sum s f x msg fval v)%R.
Proof.
  intros Hne Hpos. unfold spec_sum. fold (free_neighbours s f x).
  apply fsum_pos; [by destruct (evaluate_variables _ _)|].
  apply Forall_forall. intros r (a & -> & Ha)%list_elem_of_fmap.
  apply Rmult_lt_0_compat; [by apply Hpos|apply exp_pos].
Qed.

(** * Further properties of the engine *)

#[export] Instance keeps_po {T} (field : BP → T) : PreOrder (keeps field).
Proof. split; [by intros s|]. intros s1 s2 s3. unfold keeps. congruence. Qed.

#[export] Instance other_evidence_kept_po : PreOrder other_evidence_kept.
Proof.
  split.
  - intros s. by split.
  - intros s1 s2 s3 [E1 F1 V1] [E2 F2 V2]. split.
    + congruence.
    + intros ev Hev. rewrite F2, F1; [done..|congruence].
    + intros ev Hev. rewrite V2, V1; [done..|congruence].
Qed.

Lemma step_other_evidence (s s' : BP) : step s s' → other_evidence_kept s s'.
Proof.
  destruct 1; split; simpl; try done; intros ev Hev;
    by rewrite lookup_insert_ne.
Qed.

Lemma steps_other_evidence (s s' : BP) : rtc step s s' → other_evidence_kept s s'.
Proof.
  induction 1 as [|s1 s2 s3 H _ IH]; [done|].
  trans s2; [by apply step_other_evidence|done].
Qed.

Lemma same_graph_model (s s' : BP) : same_graph s s' → same_model s s'.
Proof. intros []. by split. Qed.

(** Whatever its outcome, [run] leaves the graph model and the caller's
    settings as they were: the name, the domain, the incident factors and the
    observed value of every variable, the name, the variables, the function
    and the evidence of every factor, the lists of nodes and of leaves, the
    query, the evidence and the evidence tuples.  Only the traversal fields,
    the caches, the query variable and the distribution can differ. *)
Theorem run_changes_traversal_fields_only (fuel : nat) (print_info : bool) (s s' : BP)
    (r : result unit) :
  run fuel print_info s = Some (r, s') → same_model s s'.
Proof.
  intros [(e & _ & ->)|(q & _ & Hsteps)]%run_inv.
  - by split.
  - apply steps_same_graph, same_graph_model in Hsteps.
    destruct Hsteps. by split.
Qed.

(** Whatever its outcome, [run] reads and writes only the message stores of
    the current evidence: the stores that the two caches hold under every
    other evidence are the same after the run as before it, and so is the
    absence of a store. *)
Theorem run_keeps_the_stores_of_other_evidence (fuel : nat) (print_info : bool) (s s' : BP)
    (r : result unit) :
  run fuel print_info s = Some (r, s') →
  _evidence_tuples s' = _evidence_tuples s ∧
  ∀ ev, ev ≠ _evidence_tuples s →
        _factor_to_variable_messages s' !! ev = _factor_to_variable_messages s !! ev ∧
        _variable_to_factor_messages s' !! ev = _variable_to_factor_messages s !! ev.
Proof.
  intros [(e & _ & ->)|(q & _ & Hsteps)]%run_inv; [done|].
  apply steps_other_evidence in Hsteps as [E Hf Hv]. simpl in *.
  split; [done|]. intros ev Hev. by rewrite Hf, Hv.
Qed.

(** ** Fields left alone *)

Ltac unfold_engine :=
  unfold _initialize_main_loop, loop_body, _initialize_factor_passing,
    _initialize_variable_passing, _propagate_factor_to_variable_messages_from_leaves,
    _propagate_variable_to_factor_messages_from_leaves,
    _propagate_factor_to_variable_message_not_from_leaf,
    _propagate_variable_to_factor_message_not_from_leaf,
    _compute_factor_to_variable_message_from_leaf,
    _compute_factor_to_variable_message_not_from_leaf,
    _compute_variable_to_factor_message_from_leaf,
    _compute_variable_to_factor_message_not_from_leaf,
    _update_passing_from_factor, _update_passing_from_variable,
    _extend_next_variables, _extend_next_factors,
    cache_factor_to_variable, cache_variable_to_factor,
    factor_to_variable_store, variable_to_factor_store,
    update_var, update_fac, _print_loop, _print_message.

Ltac keeps_tac :=
  unfold_engine;
  repeat first
    [ apply preserves_ret; solve_po
    | apply preserves_get; solve_po
    | apply preserves_lift; solve_po
    | apply preserves_raise; solve_po
    | apply preserves_modify; solve [intros ?; reflexivity]
    | apply preserves_for_each; solve_po; intros ?
    | apply preserves_bind; solve_po; [|intros ?]
    | match goal with
      | |- preserves _ (if ?b then _ else _) => destruct b
      | |- preserves _ (let '(_, _) := ?p in _) => destruct p
      | |- preserves _ (match ?p with _ => _ end) => destruct p
      end
    ].

Lemma initialize_main_loop_keeps_distribution :
  preserves (keeps _distribution) _initialize_main_loop.
Proof. keeps_tac. Qed.

Lemma loop_body_keeps_distribution : preserves (keeps _distribution) loop_body.
Proof. keeps_tac. Qed.

Lemma main_loop_keeps {T} (field : BP → T) (fuel : nat) (s s' : BP) (r : result unit) :
  preserves (keeps field) loop_body →
  main_loop fuel s = Some (r, s') → field s' = field s.
Proof.
  intros Hbody. revert s. induction fuel as [|fuel IH]; intros s; simpl;
    unfold _get_running_condition; rewrite !bind_run; simpl.
  - destruct (_query_variable s) as [q|]; simpl; [|by intros [= _ <-]].
    case_bool_decide; [done|by intros [= _ <-]].
  - destruct (_query_variable s) as [q|]; simpl; [|by intros [= _ <-]].
    case_bool_decide; [|by intros [= _ <-]].
    destruct (loop_body s) as [[[]|e] s1] eqn:Hb.
    + intros Hl. rewrite (IH _ Hl). by eapply Hbody.
    + intros [= _ <-]. by eapply Hbody.
Qed.

Lemma create_fv_outcome (s s' : BP) (r : result unit) :
  _create_factor_to_variable_messages_cache_if_necessary s = (r, s') →
  r = Ok tt ∧ _distribution s' = _distribution s.
Proof.
  unfold _create_factor_to_variable_messages_cache_if_necessary.
  rewrite bind_run. simpl. by case_decide; intros [= <- <-].
Qed.

Lemma create_vf_outcome (s s' : BP) (r : result unit) :
  _create_variable_to_factor_messages_cache_if_necessary s = (r, s') →
  r = Ok tt ∧ _distribution s' = _distribution s.
Proof.
  unfold _create_variable_to_factor_messages_cache_if_necessary.
  rewrite bind_run. simpl. by case_decide; intros [= <- <-].
Qed.

Lemma run_setup_distribution (print_info : bool) (s s1 : BP) (r : result unit) :
  run_setup print_info s = (r, s1) → _distribution s1 = None.
Proof.
  unfold run_setup. intros H.
  apply bind_inv in H as [(e & [? _]%create_fv_outcome & _)|([] & sa & _ & H)]; [done|].
  apply bind_inv in H as [(e & [? _]%create_vf_outcome & _)|([] & sb & _ & H)]; [done|].
  apply bind_inv in H as [(e & ? & _)|([] & sc & _ & H)]; [done|].
  apply bind_inv in H as [(e & ? & _)|([] & sd & ->%modify_inv & H)]; [done|].
  apply bind_inv in H as [(e & ? & _)|([] & se & [= <-] & H)]; [done|].
  by apply initialize_main_loop_keeps_distribution in H.
Qed.

Lemma get_Err_inv (s s1 : BP) (e : error) : get s = (Err e, s1) → False.
Proof. done. Qed.
Lemma lift_Err_inv {A} (x : result A) (s s1 : BP) (e : error) :
  lift x s = (Err e, s1) → s1 = s.
Proof. by intros [= _ <-]. Qed.
Lemma store_fv_inv (s s1 : BP) (r : result (gmap (nat * nat) Message)) :
  factor_to_variable_store s = (r, s1) →
  s1 = s ∧ r = of_option KeyError (_factor_to_variable_messages s !! _evidence_tuples s).
Proof. unfold factor_to_variable_store. rewrite bind_run. simpl. by intros [= <- <-]. Qed.
Lemma store_vf_inv (s s1 : BP) (r : result (gmap (nat * nat) Message)) :
  variable_to_factor_store s = (r, s1) →
  s1 = s ∧ r = of_option KeyError (_variable_to_factor_messages s !! _evidence_tuples s).
Proof. unfold variable_to_factor_store. rewrite bind_run. simpl. by intros [= <- <-]. Qed.

(** One step of a computation whose head reads the state or lifts a value:
    on an exception the state is the one before. *)
Ltac inv_pure H :=
  let a := fresh "a" in
  let s1 := fresh "s" in
  let H1 := fresh "Hstep" in
  let e := fresh "e" in
  apply bind_inv in H as [(e & H1 & ->)|(a & s1 & H1 & H)];
  [ first [ by destruct (get_Err_inv _ _ _ H1)
          | apply lift_Err_inv in H1 as ->
          | apply store_fv_inv in H1 as [-> _]
          | apply store_vf_inv in H1 as [-> _] ]
  | first [ apply get_inv in H1 as [-> ->]
          | apply lift_inv in H1 as [H1 ->]
          | apply store_fv_inv in H1 as [-> H1]
          | apply store_vf_inv in H1 as [-> H1] ] ].

Lemma compute_distribution_outcome (s s' : BP) (r : result unit) :
  _compute_distribution s = (r, s') →
  match r with
  | Ok _ => is_Some (_distribution s')
  | Err _ => s' = s
  end.
Proof.
  unfold _compute_distribution. intros H.
  inv_pure H. inv_pure H; [done|]. inv_pure H; [done|]. inv_pure H; [done|].
  inv_pure H; [done|]. inv_pure H; [done|]. inv_pure H; [done|].
  unfold update_var in H. rewrite bind_run in H. simpl in H. injection H as <- <-.
  simpl. by eexists.
Qed.

(** The distribution after [run].  A run that returns normally leaves a
    distribution.  A run that raises an exception either failed one of the
    three checks of the query, and then the engine is untouched (a
    distribution of an earlier run included), or it failed later, and then
    the engine holds no distribution at all, that of an earlier run being
    cleared, while the query variable is already the first variable of the
    query. *)
Theorem run_failure_leaves_no_distribution (fuel : nat) (print_info : bool) (s s' : BP)
    (r : result unit) :
  run fuel print_info s = Some (r, s') →
  match r with
  | Ok _ => is_Some (_distribution s')
  | Err e => (∃ v, e = ValidationError v ∧ s' = s) ∨
             (_distribution s' = None ∧ _query_variable s' = head (_query s))
  end.
Proof.
  unfold run. destruct (run_before_loop print_info s) as [[[]|e] s1] eqn:Hb.
  - apply run_before_loop_inv in Hb as [(e & ? & _)|(q & Hq & Hs)]; [done|].
    pose proof (run_setup_distribution _ _ _ _ Hs) as Hd.
    apply run_setup_steps in Hs. apply steps_same_graph in Hs.
    destruct Hs as [_ _ _ _ _ _ _ _ _ Hqv]. simpl in Hqv.
    destruct (main_loop fuel s1) as [[[[]|e] s2]|] eqn:Hl; [| |done].
    + pose proof (main_loop_keeps _distribution _ _ _ _ loop_body_keeps_distribution Hl) as Hd2.
      apply main_loop_steps in Hl. apply steps_same_graph in Hl.
      destruct Hl as [_ _ _ _ _ _ _ _ _ Hqv2].
      intros [= H]. rewrite bind_run in H.
      destruct (_compute_distribution s2) as [[[]|e] s3] eqn:Hc; injection H as <- <-.
      * by apply compute_distribution_outcome in Hc.
      * apply compute_distribution_outcome in Hc as ->. right.
        rewrite Hd2, Hd, Hqv2, Hqv, Hq. done.
    + pose proof (main_loop_keeps _distribution _ _ _ _ loop_body_keeps_distribution Hl) as Hd2.
      apply main_loop_steps in Hl. apply steps_same_graph in Hl.
      destruct Hl as [_ _ _ _ _ _ _ _ _ Hqv2].
      intros [= <- <-]. right. rewrite Hd2, Hd, Hqv2, Hqv, Hq. done.
  - intros [= <- <-]. revert Hb.
    unfold run_before_loop, check_non_empty_query, check_one_variable_query,
      check_query_and_evidence_intersection.
    rewrite !bind_run. simpl.
    destruct (decide (_query s = [])); simpl; [intros [= <- <-]; left; by eexists|].
    rewrite !bind_run. simpl.
    destruct (decide (length (_query s) = 1)); simpl; [|intros [= <- <-]; left; by eexists].
    rewrite !bind_run. simpl.
    destruct (decide (Exists _ _)); simpl; [intros [= <- <-]; left; by eexists|].
    rewrite !bind_run. simpl.
    destruct (head (_query s)) as [q|] eqn:Hq; simpl.
    2:{ destruct (_query s); simplify_eq/=. }
    intros Hs. right.
    change (run_setup print_info (set_query_variable (Some q) s) = (Err e, s1)) in Hs.
    pose proof (run_setup_distribution _ _ _ _ Hs) as Hd.
    apply run_setup_steps in Hs. apply steps_same_graph in Hs.
    destruct Hs as [_ _ _ _ _ _ _ _ _ Hqv]. simpl in Hqv.
    by rewrite Hd, Hqv.
Qed.

(** ** The cache of the current evidence *)

(** [_create_factor_to_variable_messages_cache_if_necessary] and
    [_create_variable_to_factor_messages_cache_if_necessary] never fail.
    Afterwards the cache holds a store for the current evidence; every store
    it held before, that of the current evidence included, is kept with its
    messages; the stores of other evidence are untouched; and a second call
    changes nothing. *)
Theorem create_cache_keeps_messages (s : BP) :
  (∃ s', _create_factor_to_variable_messages_cache_if_necessary s = (Ok tt, s') ∧
         is_Some (_factor_to_variable_messages s' !! _evidence_tuples s') ∧
         (∀ ev ms, _factor_to_variable_messages s !! ev = Some ms →
                   _factor_to_variable_messages s' !! ev = Some ms) ∧
         (∀ ev, ev ≠ _evidence_tuples s →
                _factor_to_variable_messages s' !! ev = _factor_to_variable_messages s !! ev) ∧
         _create_factor_to_variable_messages_cache_if_necessary s' = (Ok tt, s')) ∧
  (∃ s', _create_variable_to_factor_messages_cache_if_necessary s = (Ok tt, s') ∧
         is_Some (_variable_to_factor_messages s' !! _evidence_tuples s') ∧
         (∀ ev ms, _variable_to_factor_messages s !! ev = Some ms →
                   _variable_to_factor_messages s' !! ev = Some ms) ∧
         (∀ ev, ev ≠ _evidence_tuples s →
                _variable_to_factor_messages s' !! ev = _variable_to_factor_messages s !! ev) ∧
         _create_variable_to_factor_messages_cache_if_necessary s' = (Ok tt, s')).
Proof.
  split.
  - unfold _create_factor_to_variable_messages_cache_if_necessary. rewrite !bind_run. simpl.
    destruct (decide (is_Some (_factor_to_variable_messages s !! _evidence_tuples s)))
      as [Hs|Hn]; simpl.
    + exists s. split; [done|]. split; [done|]. split; [done|]. split; [done|].
      rewrite bind_run. simpl. by rewrite decide_True.
    + eexists. split; [done|]. simpl. rewrite lookup_insert_eq. split; [by eexists|].
      split; [|split].
      * intros ev ms Hev. rewrite lookup_insert_ne; [done|]. intros <-. apply Hn. by eexists.
      * intros ev Hev. by rewrite lookup_insert_ne.
      * rewrite bind_run. simpl. rewrite lookup_insert_eq.
        rewrite decide_True by by eexists. done.
  - unfold _create_variable_to_factor_messages_cache_if_necessary. rewrite !bind_run. simpl.
    destruct (decide (is_Some (_variable_to_factor_messages s !! _evidence_tuples s)))
      as [Hs|Hn]; simpl.
    + exists s. split; [done|]. split; [done|]. split; [done|]. split; [done|].
      rewrite bind_run. simpl. by rewrite decide_True.
    + eexists. split; [done|]. simpl. rewrite lookup_insert_eq. split; [by eexists|].
      split; [|split].
      * intros ev ms Hev. rewrite lookup_insert_ne; [done|]. intros <-. apply Hn. by eexists.
      * intros ev Hev. by rewrite lookup_insert_ne.
      * rewrite bind_run. simpl. rewrite lookup_insert_eq.
        rewrite decide_True by by eexists. done.
Qed.

(** ** The loop with nothing queued *)

Lemma loop_body_nothing_queued (s : BP) :
  _next_factors s = [] → _next_variables s = [] →
  loop_body s =
  (Ok tt, set_next_variables [] (set_from_variables []
            (set_next_factors [] (set_from_factors []
               (set_loop_passing (_loop_passing s + 1) s))))).
Proof.
  intros Hf Hv. unfold loop_body, _print_loop.
  cbv [mbind M_bind get modify mret M_ret]. simpl. rewrite Hf, Hv. reflexivity.
Qed.

Lemma main_loop_nothing_queued (s : BP) (q : var_id) (fuel : nat) :
  _query_variable s = Some q →
  var_incoming_messages_number (var_obj s q) < factors_number (var_obj s q) →
  _next_factors s = [] →
  _next_variables s = [] →
  main_loop fuel s = None.
Proof.
  revert s. induction fuel as [|fuel IH]; intros s Hq Hlt Hf Hv; simpl;
    unfold _get_running_condition; rewrite !bind_run; simpl; rewrite Hq; simpl;
    rewrite bool_decide_eq_true_2 by done; [done|].
  rewrite loop_body_nothing_queued by done. by apply IH.
Qed.

Lemma run_before_loop_valid (print_info : bool) (s : BP) (q : var_id) :
  _query s = [q] → q ∉ _evidence s →
  run_before_loop print_info s = run_setup print_info (set_query_variable (Some q) s).
Proof.
  intros Hq Hev.
  unfold run_before_loop, check_non_empty_query, check_one_variable_query,
    check_query_and_evidence_intersection.
  rewrite !bind_run. simpl.
  destruct (decide (_query s = [])) as [Hn|_]; [by rewrite Hq in Hn|]. simpl.
  rewrite !bind_run. simpl.
  destruct (decide (length (_query s) = 1)) as [_|Hn]; [|by rewrite Hq in Hn]. simpl.
  rewrite !bind_run. simpl.
  destruct (decide (Exists _ _)) as [Hex|_]; simpl.
  { rewrite Hq in Hex. apply Exists_cons in Hex as [?|Hex]; [done|]. by apply Exists_nil in Hex. }
  rewrite !bind_run. simpl. rewrite Hq. simpl. done.
Qed.

Lemma for_each_modify {A} (l : list A) (f : A → BP → BP) (s : BP) :
  for_each l (fun x => modify (f x)) s = (Ok tt, foldl (fun st x => f x st) s l).
Proof.
  revert s. induction l as [|x l IH]; intros s; simpl; [done|].
  rewrite bind_run. simpl. apply IH.
Qed.

Lemma initialize_factor_passing_total (s : BP) :
  ∃ s', _initialize_factor_passing s = (Ok tt, s').
Proof.
  unfold _initialize_factor_passing. rewrite bind_run. simpl.
  generalize (factors s) as l. intros l. revert s.
  induction l as [|a l IH]; intros s; simpl; [by eexists|].
  unfold update_fac at 1 2. rewrite !bind_run. simpl. apply IH.
Qed.

Lemma initialize_variable_passing_total (s : BP) :
  ∃ s', _initialize_variable_passing s = (Ok tt, s').
Proof.
  unfold _initialize_variable_passing. rewrite bind_run. simpl.
  generalize (variables s) as l. intros l. revert s.
  induction l as [|a l IH]; intros s; simpl; [by eexists|].
  unfold update_var at 1 2. rewrite !bind_run. simpl. apply IH.
Qed.

Lemma create_caches_total (s : BP) :
  ∃ fv vf,
    (_create_factor_to_variable_messages_cache_if_necessary;;
     _create_variable_to_factor_messages_cache_if_necessary) s
    = (Ok tt, set_variable_to_factor_messages vf (set_factor_to_variable_messages fv s)).
Proof.
  unfold _create_factor_to_variable_messages_cache_if_necessary,
    _create_variable_to_factor_messages_cache_if_necessary.
  cbv [mbind M_bind get modify mret M_ret]. simpl.
  destruct (decide (is_Some (_factor_to_variable_messages s !! _evidence_tuples s))); simpl;
    destruct (decide (is_Some (_variable_to_factor_messages s !! _evidence_tuples s))); simpl.
  - exists (_factor_to_variable_messages s), (_variable_to_factor_messages s). by destruct s.
  - exists (_factor_to_variable_messages s),
      (<[_evidence_tuples s := ∅]> (_variable_to_factor_messages s)). by destruct s.
  - exists (<[_evidence_tuples s := ∅]> (_factor_to_variable_messages s)),
      (_variable_to_factor_messages s). by destruct s.
  - by eexists _, _.
Qed.

Lemma run_setup_without_leaves (print_info : bool) (s : BP) :
  factor_leaves s = [] → variable_leaves s = [] →
  ∃ s1, run_setup print_info s = (Ok tt, s1) ∧
        _next_factors s1 = [] ∧ _next_variables s1 = [] ∧
        _query_variable s1 = _query_variable s ∧
        ∀ x, x ∈ variables s →
             var_incoming_messages_number (var_obj s1 x) = 0 ∧
             var_factors (var_obj s1 x) = var_factors (var_obj s x).
Proof.
  intros Hfl Hvl. unfold run_setup.
  destruct (create_caches_total s) as (fv & vf & Hc).
  set (s0 := set_next_variables [] (set_next_factors [] (set_loop_passing 0
               (set_distribution None (set_print_info print_info
                  (set_variable_to_factor_messages vf
                     (set_factor_to_variable_messages fv s))))))).
  destruct (initialize_factor_passing_total s0) as (s2 & H2).
  destruct (initialize_variable_passing_total s2) as (s3 & H3).
  exists s3.
  pose proof (initialize_factor_passing_steps _ _ _ H2) as G2.
  pose proof (initialize_variable_passing_steps _ _ _ H3) as G3.
  apply steps_same_graph in G2, G3.
  destruct (initialize_factor_passing_effect _ _ H2) as (E1 & E2 & E3 & _).
  destruct (initialize_variable_passing_effect _ _ H3) as (E4 & E5 & E6 & E7).
  split; [|split; [|split; [|split]]].
  - rewrite bind_run. rewrite bind_run in Hc.
    destruct (_create_factor_to_variable_messages_cache_if_necessary s) as [[[]|?] sa];
      [|done]. rewrite bind_run.
    destruct (_create_variable_to_factor_messages_cache_if_necessary sa) as [[[]|?] sb];
      [|done]. injection Hc as ->.
    destruct G2 as [_ _ _ _ F2 V2 _ _ _ _]. destruct G3 as [_ _ _ _ F3 V3 _ _ _ _].
    simpl in F2, V2.
    cbv [mbind M_bind get modify mret M_ret _print_start _print_loop _initialize_main_loop].
    fold s0. rewrite H2. cbv beta iota. rewrite H3. cbv beta iota.
    unfold _propagate_factor_to_variable_messages_from_leaves,
      _propagate_variable_to_factor_messages_from_leaves.
    cbv [mbind M_bind get]. rewrite F3, F2, Hfl. simpl. rewrite V3, V2, Hvl. done.
  - by rewrite E5, E2.
  - by rewrite E6, E3.
  - destruct G2 as [_ _ _ _ _ _ _ _ _ Q2]. destruct G3 as [_ _ _ _ _ _ _ _ _ Q3].
    by rewrite Q3, Q2.
  - intros x Hx. destruct G2 as [X2 _ S2 _ _ _ _ _ _ _]. destruct G3 as [X3 _ _ _ _ _ _ _ _ _].
    split.
    + apply E7. by rewrite S2.
    + destruct (X3 x) as (_ & _ & -> & _). destruct (X2 x) as (_ & _ & -> & _). done.
Qed.

(** On a model without leaves [run] never returns, not even with an
    exception: for a valid query of one variable that belongs to the model
    and has an incident factor, nothing is queued by the initialization, the
    query variable has received no message, and every pass of the loop finds
    the two queues empty.  No number of passes suffices. *)
Theorem run_without_leaves_never_returns (s : BP) (q : var_id) (fuel : nat)
    (print_info : bool) :
  _query s = [q] →
  q ∉ _evidence s →
  q ∈ variables s →
  var_factors (var_obj s q) ≠ [] →
  factor_leaves s = [] →
  variable_leaves s = [] →
  run fuel print_info s = None.
Proof.
  intros Hq Hev Hin Hfac Hfl Hvl. unfold run.
  rewrite (run_before_loop_valid print_info s q) by done.
  destruct (run_setup_without_leaves print_info (set_query_variable (Some q) s))
    as (s1 & -> & Hnf & Hnv & Hqv & Hvars); [done..|].
  destruct (Hvars q Hin) as [Hinc Hfacs]. simpl in *.
  rewrite (main_loop_nothing_queued s1 q); [done|done| |done..].
  rewrite Hinc. unfold factors_number. rewrite Hfacs.
  destruct (var_factors (var_obj s q)); [done|simpl; lia].
Qed.

(** ** The distribution as a function of the messages *)

Lemma get_from_nodes_calls (ms : gmap (nat * nat) Message) (l : list nat) (to : nat)
    (messages : list Message) (v : Z) (xs : list R) :
  Messages_get_from_nodes_to_node ms l to = Ok messages →
  mapM (fun m => Message_call m v) messages = Ok xs →
  ∀ a, a ∈ l → message_value ms a to v = Some (msg_of ms to a v).
Proof.
  unfold Messages_get_from_nodes_to_node. intros H1%mapM_Ok_inv H2%mapM_Ok_inv.
  revert xs H2. induction H1 as [|a m l messages Ha _ IH]; intros xs H2 b Hb.
  - by apply elem_of_nil in Hb.
  - inversion H2 as [|? x ? xs' Hx H2']; subst.
    apply elem_of_cons in Hb as [->|Hb]; [|by eapply IH].
    unfold msg_of, message_value.
    destruct (ms !! (a, to)) as [m'|]; [|done]. simpl in Ha. injection Ha as ->. simpl.
    unfold Message_call in Hx. by destruct (dict_get (values m) v).
Qed.

Lemma compute_distribution_formula (s s' : BP) (q : var_id) :
  _compute_distribution s = (Ok tt, s') →
  _query_variable s = Some q →
  ∃ fv d,
    _factor_to_variable_messages s !! _evidence_tuples s = Some fv ∧
    _factor_to_variable_messages s' = _factor_to_variable_messages s ∧
    _distribution s' = Some d ∧
    (∀ a v, a ∈ var_factors (var_obj s q) → v ∈ domain (var_obj s q) →
            message_value fv a q v = Some (msg_of fv q a v)) ∧
    ∀ v, v ∈ domain (var_obj s q) →
         dict_get d [v] =
         Some (exp (fsum (map (fun a => msg_of fv q a v) (var_factors (var_obj s q)))) /
               fsum (map (fun w => exp (fsum (map (fun a => msg_of fv q a w)
                                                (var_factors (var_obj s q)))))
                       (domain (var_obj s q))))%R.
Proof.
  intros H Hq. unfold _compute_distribution in H.
  inv_bind H. rewrite Hq in H. inv_bind H. simpl in Hstep. injection Hstep as <-.
  apply bind_Ok_inv in H as (fv & s1 & [-> Hfv]%store_fv_inv & H).
  inv_bind H. inv_bind H. inv_bind H.
  set (dom := domain (var_obj s q)) in *.
  set (facs := var_factors (var_obj s q)) in *.
  set (f1 := fun v : Z => mapM (fun m : Message => Message_call m v) a
                          ≫= fun xs : list R => mret (math_exp (fsum xs))) in *.
  destruct (_factor_to_variable_messages s !! _evidence_tuples s) as [fv'|] eqn:Hstore;
    [|done]. simpl in Hfv. injection Hfv as <-.
  pose proof (dict_comp_from_Ok_all 0%R [] _ f1 dom a0 Hstep0) as Hf1.
  assert (∀ b v, b ∈ facs → v ∈ dom → message_value fv b q v = Some (msg_of fv q b v))
    as Hmsg.
  { intros b v Hb Hv. specialize (Hf1 v Hv). unfold f1 in Hf1 at 1.
    destruct (mapM _ a) as [xs|e] eqn:Hxs; simpl in Hf1; [|done].
    by eapply get_from_nodes_calls. }
  set (g := fun v : Z => exp (fsum (map (fun b => msg_of fv q b v) facs))).
  assert (∀ v, v ∈ dom → f1 v = Ok (g v)) as Hg.
  { intros v Hv. unfold f1.
    pose proof (incoming_values fv q v (fun b => msg_of fv q b v) facs
                  (fun b Hb => Hmsg b v Hb Hv)) as Hinc.
    rewrite Hstep in Hinc. simpl in Hinc. rewrite Hinc. done. }
  destruct (dict_comp_Ok (fun v : Z => v) f1 g dom Hg) as (d1 & Hd1 & Hget1).
  rewrite Hd1 in Hstep0. injection Hstep0 as <-.
  assert (∀ v, v ∈ dom → dict_get d1 v = Some (g v)) as Hd.
  { intros v Hv. apply Hget1; [by intros ? _ ->|done]. }
  rewrite (mapM_Ok _ g) in Hstep1.
  2:{ intros v Hv. by rewrite Hd. }
  injection Hstep1 as <-.
  inv_bind H. inv_bind H.
  match goal with
  | Hx : dict_comp (fun v : Z => [v]) _ _ = Ok _ |- _ => rename Hx into Hdist
  end.
  unfold update_var in H. apply modify_inv in H as ->. simpl.
  exists fv. eexists. split; [done|]. split; [done|]. split; [done|]. split; [done|].
  intros v Hv.
  assert (dom ≠ []) as Hne by (intros E; rewrite E in Hv; by apply elem_of_nil in Hv).
  assert (0 < fsum (map g dom))%R as Hnorm.
  { apply fsum_pos; [by destruct dom|].
    apply Forall_forall. intros x (w & -> & Hw)%list_elem_of_fmap. apply exp_pos. }
  destruct (dict_comp_Ok (fun v : Z => [v])
              (fun v : Z => x ← of_option KeyError (dict_get d1 v);
                            truediv x (fsum (map g dom)))
              (fun v => g v / fsum (map g dom))%R dom) as (d2 & Hd2 & Hget2).
  { intros w Hw. rewrite Hd by done. simpl. apply truediv_Ok. lra. }
  rewrite Hd2 in Hdist. injection Hdist as <-.
  apply (Hget2 v); [by intros ? _ [= ->]|done].
Qed.

(** When [run] returns, the store of the current evidence holds a message
    from every factor of the query variable to it, defined at every value of
    its domain, and the distribution maps each value [v], wrapped as a
    one-element tuple, to the exponential of the sum of these messages at
    [v], divided by the sum of these exponentials over the domain. *)
Theorem run_distribution_is_the_normalized_belief (fuel : nat) (print_info : bool)
    (s s' : BP) (q : var_id) :
  run fuel print_info s = Some (Ok tt, s') →
  _query s = [q] →
  ∃ fv d,
    _factor_to_variable_messages s' !! _evidence_tuples s = Some fv ∧
    _distribution s' = Some d ∧
    (∀ a v, a ∈ var_factors (var_obj s q) → v ∈ domain (var_obj s q) →
            message_value fv a q v = Some (msg_of fv q a v)) ∧
    ∀ v, v ∈ domain (var_obj s q) →
         dict_get d [v] =
         Some (exp (fsum (map (fun a => msg_of fv q a v) (var_factors (var_obj s q)))) /
               fsum (map (fun w => exp (fsum (map (fun a => msg_of fv q a w)
                                                (var_factors (var_obj s q)))))
                       (domain (var_obj s q))))%R.
Proof.
  intros Hrun Hq.
  apply run_Ok_inv in Hrun as (q' & s2 & Hq' & Hsteps & Hc).
  assert (q' = q) as -> by congruence.
  apply steps_same_graph in Hsteps as [Hvar _ _ _ _ _ _ _ Hev Hqv]. simpl in *.
  destruct (Hvar q) as (_ & Hdom & Hfacs & _).
  destruct (compute_distribution_formula s2 s' q Hc Hqv)
    as (fv & d & Hfv & Hsame & Hd & Hmsg & Hval).
  exists fv, d. rewrite <- Hdom, <- Hfacs, <- Hev, Hsame. done.
Qed.

(** ** A run on cleared caches *)

#[export] Instance stored_or_computed_po : PreOrder stored_or_computed.
Proof.
  split.
  - intros s. exists []. rewrite app_nil_r. split; [done|]. by left.
  - intros s1 s2 s3 (n12 & E12 & H12) (n23 & E23 & H23).
    exists (n12 ++ n23). rewrite E23, E12, app_assoc. split; [done|].
    intros k [Hk|Hk]%H23; [|right; apply elem_of_app; by right].
    apply H12 in Hk as [Hk|Hk]; [by left|right; apply elem_of_app; by left].
Qed.







(** ** Edge cases of the bucket *)

Lemma dict_comp_Ok_get {K V} `{EqDecision K} (dflt : V) (f : K → result V) (keys : list K)
    (d : list (K * V)) :
  dict_comp (fun k : K => k) f keys = Ok d →
  ∀ k, (k ∈ keys → f k = Ok (from_Ok dflt (f k)) ∧ dict_get d k = Some (from_Ok dflt (f k))) ∧
       (k ∉ keys → dict_get d k = None).
Proof.
  intros Hd. pose proof (dict_comp_from_Ok_all dflt [] _ f keys d Hd) as Hall.
  destruct (dict_comp_from_Ok [] (fun k : K => k) f (fun k => from_Ok dflt (f k)) keys Hall)
    as (d' & Hd' & Hout & Hin).
  unfold dict_comp in Hd. rewrite Hd in Hd'. injection Hd' as <-.
  intros k. split.
  - intros Hk. split; [by apply Hall|]. apply (Hin k); [by intros ? _ ->|done].
  - intros Hk. rewrite Hout; [done|]. by rewrite map_id.
Qed.

Lemma product_nonempty (doms : list (list Z)) :
  Forall (fun d => d ≠ []) doms → product doms ≠ [].
Proof.
  induction 1 as [|d doms Hd _ IH]; simpl; [done|].
  destruct d as [|v d]; [done|]. simpl.
  destruct (product doms) as [|vs l]; [done|]. done.
Qed.

Lemma product_empty (doms : list (list Z)) :
  Exists (fun d => d = []) doms → product doms = [].
Proof.
  induction 1 as [d doms ->|d doms _ IH]; simpl; [done|].
  rewrite IH. induction d as [|v d IHd]; simpl; [done|]. exact IHd.
Qed.

Lemma output_value_empty_max (heap : var_id → variable) (b : Bucket.t) (a : list value) :
  Bucket._input_log_factors b = [] ∨ domain (heap (Bucket._variable b)) = [] →
  Bucket.output_value heap b a = Err (ValueError EmptySequence).
Proof.
  intros Hcase. unfold Bucket.output_value.
  destruct (domain (heap (Bucket._variable b))) as [|v dom] eqn:Hdom; [done|].
  destruct Hcase as [Hnone|?]; [|done].
  destruct (dict_comp_Ok (fun v : Z => v)
              (Bucket.input_values heap b (zip (Bucket._free_variables b) a))
              (fun _ => []) (v :: dom)) as (d & -> & Hget).
  { intros k _. unfold Bucket.input_values. by rewrite Hnone. }
  simpl. rewrite (Hget v); [done|done|left].
Qed.

(** A bucket without log-factors ([has_log_factors] is false), or whose
    variable has an empty domain, has nothing to take the stabilising maximum
    of: when every free variable has a value, so that there is an assignment
    to compute, [compute_output_log_factor] raises the [ValueError] of [max]
    on an empty sequence. *)
Theorem compute_output_log_factor_without_inputs (heap : var_id → variable) (b : Bucket.t) :
  Bucket.has_log_factors b = false ∨ domain (heap (Bucket._variable b)) = [] →
  Forall (fun x => domain (heap x) ≠ []) (Bucket._free_variables b) →
  Bucket.compute_output_log_factor heap b = Err (ValueError EmptySequence).
Proof.
  intros Hcase Hfree. unfold Bucket.compute_output_log_factor, evaluate_variables.
  assert (product (map (fun x => domain (heap x)) (Bucket._free_variables b)) ≠ []) as Hne.
  { apply product_nonempty. by apply Forall_fmap. }
  destruct (product _) as [|a l]; [done|].
  unfold dict_comp. simpl. rewrite output_value_empty_max; [done|].
  destruct Hcase as [Hno|Hdom]; [left|by right].
  unfold Bucket.has_log_factors in Hno. apply bool_decide_eq_false in Hno.
  destruct (Bucket._input_log_factors b); [done|simpl in Hno; lia].
Qed.

(** When a free variable of the bucket has an empty domain there is no
    assignment of the free variables, the loop of
    [compute_output_log_factor] is not entered and the method returns, even
    for a bucket without log-factors, a log-factor over the free variables
    that is defined nowhere: every call of it is a [KeyError]. *)
Theorem compute_output_log_factor_without_assignments (heap : var_id → variable)
    (b : Bucket.t) :
  Exists (fun x => domain (heap x) = []) (Bucket._free_variables b) →
  ∃ F, Bucket.compute_output_log_factor heap b = Ok F ∧
       fac_variables F = Bucket._free_variables b ∧
       ∀ a, function F a = Err KeyError.
Proof.
  intros Hex. unfold Bucket.compute_output_log_factor, evaluate_variables.
  rewrite product_empty by by apply Exists_fmap.
  eexists. split; [done|]. done.
Qed.

(** The log-factor that [compute_output_log_factor] returns is a table over
    the joint assignments of the bucket's free variables: it is named
    [log_f_] followed by the name of the bucket's variable, its variables
    are the free variables and its evidence the evidentiary variables of the
    bucket; at every joint assignment it has the value the loop computed for
    that assignment, and at every other tuple of values it is a
    [KeyError]. *)
Theorem output_log_factor_is_defined_on_the_assignments (heap : var_id → variable)
    (b : Bucket.t) (F : factor) :
  Bucket.compute_output_log_factor heap b = Ok F →
  fac_name F = "log_f_" +:+ var_name (heap (Bucket._variable b)) ∧
  fac_variables F = Bucket._free_variables b ∧
  fac_evidence F = Bucket._evidential_variables b ∧
  ∀ a, (a ∈ evaluate_variables heap (Bucket._free_variables b) →
        (∃ r, function F a = Ok r) ∧ function F a = Bucket.output_value heap b a) ∧
       (a ∉ evaluate_variables heap (Bucket._free_variables b) →
        function F a = Err KeyError).
Proof.
  unfold Bucket.compute_output_log_factor.
  destruct (dict_comp _ _ _) as [d|e] eqn:Hd; simpl; [|done].
  intros [= <-]. simpl. split; [done|]. split; [done|]. split; [done|].
  intros a. destruct (dict_comp_Ok_get 0%R _ _ _ Hd a) as [Hin Hout]. split.
  - intros Ha. destruct (Hin Ha) as [Hval ->]. simpl. split; [by eexists|done].
  - intros Ha. by rewrite Hout.
Qed.

(** ** The message of a leaf factor *)

(** The rule for leaf factors.  For a positive factor [f] whose message to
    the variable [x] is not in the store of the current evidence,
    [_compute_factor_to_variable_message_from_leaf] adds to that store, under
    the key [(f, x)], a message from [f] to [x] whose value at every value
    [v] of [x]'s domain is the logarithm of the factor at [x = v], and which
    is undefined elsewhere.  The other messages of the store, the cache of
    the variable-to-factor messages and the nodes are left as they are. *)
Theorem leaf_factor_message_is_the_log_of_the_factor (s : BP) (f : factor_id) (x : var_id)
    (fv : gmap (nat * nat) Message) (fval : value → R) :
  _factor_to_variable_messages s !! _evidence_tuples s = Some fv →
  fv !! (f, x) = None →
  (∀ v, v ∈ domain (var_obj s x) →
        factor_call (var_obj s) (fac_obj s f) [(x, v)] = Ok (fval v)) →
  (∀ v, v ∈ domain (var_obj s x) → (0 < fval v)%R) →
  ∃ s' m,
    _compute_factor_to_variable_message_from_leaf f x s = (Ok tt, s') ∧
    _factor_to_variable_messages s' !! _evidence_tuples s = Some (<[(f, x) := m]> fv) ∧
    from_node m = f ∧ to_node m = x ∧
    (∀ v, v ∈ domain (var_obj s x) → Message_call m v = Ok (ln (fval v))) ∧
    (∀ v, v ∉ domain (var_obj s x) → Message_call m v = Err KeyError) ∧
    _variable_to_factor_messages s' = _variable_to_factor_messages s ∧
    var_obj s' = var_obj s ∧ fac_obj s' = fac_obj s ∧
    computed s' = computed s ++ [(FactorToVariable, _evidence_tuples s, f, x)].
Proof.
  intros Hfv Hnew Hfval Hpos. rewrite (leaf_factor_run s f x fv) by done.
  rewrite bind_run. simpl.
  destruct (dict_comp (fun v : Z => v)
    (fun v => r ← factor_call (var_obj s) (fac_obj s f) [(x, v)]; math_log r)
    (domain (var_obj s x))) as [d|e] eqn:Hd.
  2:{ exfalso. destruct (dict_comp_Ok (fun v : Z => v)
        (fun v => r ← factor_call (var_obj s) (fac_obj s f) [(x, v)]; math_log r)
        (fun v => ln (fval v)) (domain (var_obj s x))) as (d & Hd' & _); [|congruence].
      intros v Hv. rewrite Hfval by done. simpl. apply math_log_pos. by apply Hpos. }
  rewrite bind_run. erewrite store_after_cache_fv; [|done..]. simpl.
  eexists _, _. split; [done|]. simpl. rewrite lookup_insert_eq.
  split; [done|]. split; [done|]. split; [done|]. split; [|split; [|done]].
  - intros v Hv. destruct (dict_comp_Ok_get 0%R _ _ _ Hd v) as [Hin _].
    destruct (Hin Hv) as [_ Hget]. unfold Message_call. simpl. rewrite Hget. simpl.
    rewrite Hfval by done. simpl. by rewrite math_log_pos by by apply Hpos.
  - intros v Hv. destruct (dict_comp_Ok_get 0%R _ _ _ Hd v) as [_ Hout].
    unfold Message_call. simpl. by rewrite Hout.
Qed.

(** ** The evidential and free variables of a bucket *)

Lemma string_leb_trans (s1 s2 s3 : string) :
  String.leb s1 s2 = true → String.leb s2 s3 = true → String.leb s1 s3 = true.
Proof.
  unfold String.leb.
  destruct (String.compare s1 s2) eqn:H12; [|..|done];
    destruct (String.compare s2 s3) eqn:H23; try done; intros _ _.
  - apply String.compare_eq_iff in H12 as ->. by rewrite H23.
  - apply String.compare_eq_iff in H12 as ->. by rewrite H23.
  - apply String.compare_eq_iff in H23 as <-. by rewrite H12.
  - apply OrderedTypeEx.String_as_OT.cmp_lt in H12, H23.
    pose proof (OrderedTypeEx.String_as_OT.lt_trans _ _ _ H12 H23) as H13.
    apply OrderedTypeEx.String_as_OT.cmp_lt in H13.
    unfold OrderedTypeEx.String_as_OT.cmp in H13. by rewrite H13.
Qed.

Section Sorted.
Context {A : Type} (key : A → string).

Let le (x y : A) : Prop := String.leb (key x) (key y) = true.

Lemma insert_sorted_perm (x : A) (l : list A) : insert_sorted key x l ≡ₚ x :: l.
Proof.
  induction l as [|y l IH]; simpl; [done|].
  destruct (String.leb (key x) (key y)); [done|].
  rewrite IH. apply Permutation_swap.
Qed.

Lemma py_sorted_perm (l : list A) : py_sorted key l ≡ₚ l.
Proof.
  induction l as [|x l IH]; simpl; [done|].
  by rewrite insert_sorted_perm, IH.
Qed.

Lemma insert_sorted_sorted (x : A) (l : list A) :
  StronglySorted le l → StronglySorted le (insert_sorted key x l).
Proof.
  induction 1 as [|y l Hl IH Hy]; simpl.
  - repeat constructor.
  - destruct (String.leb (key x) (key y)) eqn:Hxy.
    + constructor; [by constructor|]. constructor; [done|].
      eapply Forall_impl; [exact Hy|]. intros z Hz. by eapply string_leb_trans.
    + constructor; [done|]. rewrite insert_sorted_perm. constructor; [|done].
      unfold le. destruct (String.leb_total (key x) (key y)); [congruence|done].
Qed.

Lemma py_sorted_sorted (l : list A) : StronglySorted le (py_sorted key l).
Proof.
  induction l as [|x l IH]; simpl; [constructor|]. by apply insert_sorted_sorted.
Qed.
End Sorted.

Lemma split_elem_of (heap : var_id → variable) (vars without : list var_id) (x : var_id) :
  (x ∈ fst (split_evidential_and_non_evidential_variables heap vars without) ↔
   x ∈ vars ∧ (x ∉ without) ∧ is_evidential (heap x) = true) ∧
  (x ∈ snd (split_evidential_and_non_evidential_variables heap vars without) ↔
   x ∈ vars ∧ (x ∉ without) ∧ is_evidential (heap x) = false).
Proof.
  unfold split_evidential_and_non_evidential_variables. simpl.
  rewrite !list_elem_of_filter. tauto.
Qed.

Lemma split_NoDup (heap : var_id → variable) (vars without : list var_id) :
  NoDup vars →
  NoDup (fst (split_evidential_and_non_evidential_variables heap vars without)) ∧
  NoDup (snd (split_evidential_and_non_evidential_variables heap vars without)).
Proof.
  intros Hnd. unfold split_evidential_and_non_evidential_variables. simpl.
  split; by do 2 apply NoDup_filter.
Qed.

Section Setter.
Context (heap : var_id → variable) (set_order : list var_id → list var_id).
Context (b : Bucket.t).
Hypothesis Horder : iterates_sets set_order.

Let b' := Bucket.set_evidential_and_free_variables heap set_order b.

Let listed (x : var_id) : Prop :=
  ∃ f, f ∈ Bucket._input_log_factors b ∧ x ∈ fac_variables f.

Lemma setter_listed (x : var_id) :
  x ∈ set_order (log_factor ← Bucket._input_log_factors b; fac_variables log_factor) ↔
  listed x.
Proof.
  rewrite (proj2 (Horder _)), list_elem_of_bind. unfold listed. split.
  - intros (f & Hx & Hf). by exists f.
  - intros (f & Hf & Hx). by exists f.
Qed.

Lemma setter_free (x : var_id) :
  x ∈ Bucket._free_variables b' ↔
  (∃ f, f ∈ Bucket._input_log_factors b ∧ x ∈ fac_variables f) ∧
  x ≠ Bucket._variable b ∧ is_evidential (heap x) = false.
Proof.
  unfold b', Bucket.set_evidential_and_free_variables. cbn [Bucket._free_variables].
  rewrite py_sorted_perm.
  rewrite (proj2 (split_elem_of _ _ _ _)), setter_listed, list_elem_of_singleton.
  done.
Qed.

Lemma setter_evidential (x : var_id) :
  x ∈ Bucket._evidential_variables b' ↔
  (∃ f, f ∈ Bucket._input_log_factors b ∧ x ∈ fac_variables f) ∧
  x ≠ Bucket._variable b ∧ is_evidential (heap x) = true.
Proof.
  unfold b', Bucket.set_evidential_and_free_variables. cbn [Bucket._evidential_variables].
  rewrite (proj1 (split_elem_of _ _ _ _)), setter_listed, list_elem_of_singleton.
  done.
Qed.

Lemma setter_NoDup :
  NoDup (Bucket._free_variables b') ∧ NoDup (Bucket._evidential_variables b').
Proof.
  unfold b', Bucket.set_evidential_and_free_variables.
  cbn [Bucket._free_variables Bucket._evidential_variables].
  destruct (split_NoDup heap
    (set_order (log_factor ← Bucket._input_log_factors b; fac_variables log_factor))
    [Bucket._variable b]) as [He Hf]; [apply Horder|].
  split; [|done]. by rewrite py_sorted_perm.
Qed.

Lemma setter_variables_set : Bucket.variables_set b'.
Proof.
  split.
  - intros Hin. apply setter_free in Hin as (_ & Hne & _). done.
  - intros f x Hf Hx.
    destruct (decide (x = Bucket._variable b)) as [->|Hne]; [by left|]. right.
    destruct (is_evidential (heap x)) eqn:Hev.
    + right. apply setter_evidential. split; [by exists f|done].
    + left. apply setter_free. split; [by exists f|done].
Qed.
End Setter.

(** [set_evidential_and_free_variables], whatever the iteration order of
    the set it builds, sets the variables of the bucket: the bucket's own
    variable and its input log-factors are unchanged; the free variables are
    exactly the variables of the input log-factors, other than the bucket's
    own, that are not evidentiary, and the evidentiary variables exactly
    those that are; neither list has a duplicate; the free variables are
    sorted by name; and the bucket is one whose evidential and free variables
    have been set, in the sense of the specification of its output. *)
Theorem set_evidential_and_free_variables_partitions (heap : var_id → variable)
    (set_order : list var_id → list var_id) (b : Bucket.t) :
  iterates_sets set_order →
  let b' := Bucket.set_evidential_and_free_variables heap set_order b in
  Bucket.variables_set b' ∧
  Bucket._variable b' = Bucket._variable b ∧
  Bucket._input_log_factors b' = Bucket._input_log_factors b ∧
  NoDup (Bucket._free_variables b') ∧ NoDup (Bucket._evidential_variables b') ∧
  StronglySorted (name_le heap) (Bucket._free_variables b') ∧
  ∀ x, (x ∈ Bucket._free_variables b' ↔
        (∃ f, f ∈ Bucket._input_log_factors b ∧ x ∈ fac_variables f) ∧
        x ≠ Bucket._variable b ∧ is_evidential (heap x) = false) ∧
       (x ∈ Bucket._evidential_variables b' ↔
        (∃ f, f ∈ Bucket._input_log_factors b ∧ x ∈ fac_variables f) ∧
        x ≠ Bucket._variable b ∧ is_evidential (heap x) = true).
Proof.
  intros Horder b'. split; [by apply setter_variables_set|].
  split; [done|]. split; [done|].
  destruct (setter_NoDup heap set_order b Horder) as [Hf He].
  split; [done|]. split; [done|]. split.
  - apply (py_sorted_sorted (fun x => var_name (heap x))).
  - intros x. split; [by apply setter_free|by apply setter_evidential].
Qed.

(** When the variables of the input log-factors have distinct names, the
    free variables that [set_evidential_and_free_variables] sets, and with
    them the signature of the output log-factor, do not depend on the order
    in which the set of the bucket's variables is iterated; the evidentiary
    variables are the same up to their order. *)
Theorem free_variables_do_not_depend_on_the_set_order (heap : var_id → variable)
    (order1 order2 : list var_id → list var_id) (b : Bucket.t) :
  iterates_sets order1 → iterates_sets order2 →
  (∀ f g x y, f ∈ Bucket._input_log_factors b → g ∈ Bucket._input_log_factors b →
              x ∈ fac_variables f → y ∈ fac_variables g →
              var_name (heap x) = var_name (heap y) → x = y) →
  Bucket._free_variables (Bucket.set_evidential_and_free_variables heap order1 b)
  = Bucket._free_variables (Bucket.set_evidential_and_free_variables heap order2 b) ∧
  Bucket._evidential_variables (Bucket.set_evidential_and_free_variables heap order1 b)
  ≡ₚ Bucket._evidential_variables (Bucket.set_evidential_and_free_variables heap order2 b).
Proof.
  intros H1 H2 Hnames. split.
  - apply (StronglySorted_unique_strong (name_le heap)).
    + intros x y [(f & Hf & Hx) _]%setter_free [(g & Hg & Hy) _]%setter_free Hxy Hyx; [|done..].
      apply (Hnames f g); try done. by apply String.leb_antisym.
    + apply (py_sorted_sorted (fun x => var_name (heap x))).
    + apply (py_sorted_sorted (fun x => var_name (heap x))).
    + apply NoDup_Permutation.
      * by apply setter_NoDup.
      * by apply setter_NoDup.
      * intros x. by rewrite !setter_free.
  - apply NoDup_Permutation.
    + by apply setter_NoDup.
    + by apply setter_NoDup.
    + intros x. by rewrite !setter_evidential.
Qed.

(** ** A later run on the same caches *)

Lemma session_caches_grow (s s' : BP) : rtc session_step s s' → caches_grow s s'.
Proof.
  induction 1 as [|s1 s2 s3 H _ IH]; [done|].
  trans s2; [by apply session_step_caches_grow|done].
Qed.

Lemma msg_of_kept (s s' : BP) (ev : list (nat * Z)) (fv fv' : gmap (nat * nat) Message)
    (q : var_id) (a : nat) (v : Z) :
  caches_grow s s' →
  _factor_to_variable_messages s !! ev = Some fv →
  _factor_to_variable_messages s' !! ev = Some fv' →
  is_Some (message_value fv a q v) →
  msg_of fv' q a v = msg_of fv q a v.
Proof.
  intros [Hkept _] Hfv Hfv' Hsome. unfold msg_of, message_value in *.
  destruct (fv !! (a, q)) as [m|] eqn:Hm; [|by destruct Hsome].
  pose proof (Hkept (FactorToVariable, ev, a, q) m) as Hk.
  unfold stored, store_of in Hk. simpl in Hk. rewrite Hfv, Hfv' in Hk. simpl in Hk.
  by rewrite (Hk Hm).
Qed.

(** After a run has returned, whatever runs and changes by the caller
    follow (changes of the query, of the evidence and of the model included,
    the caches being left alone), a later run with the same query and the
    same evidence tuples, the query variable having the domain and the
    factors it had, gives when it returns the probabilities of the first
    run: the messages to the query variable are those of the cache.  A
    change of a factor is not seen before [clear_message_cache] is
    called. *)
Theorem later_run_returns_the_cached_distribution (fuel fuel' : nat)
    (print_info print_info' : bool) (s s1 t t1 : BP) (q : var_id) :
  run fuel print_info s = Some (Ok tt, s1) →
  _query s = [q] →
  rtc session_step s1 t →
  _query t = [q] →
  _evidence_tuples t = _evidence_tuples s →
  domain (var_obj t q) = domain (var_obj s q) →
  var_factors (var_obj t q) = var_factors (var_obj s q) →
  run fuel' print_info' t = Some (Ok tt, t1) →
  ∃ d d', _distribution s1 = Some d ∧ _distribution t1 = Some d' ∧
          ∀ v, v ∈ domain (var_obj s q) → dict_get d' [v] = dict_get d [v].
Proof.
  intros Hrun Hq Hsession Hq' Hev Hdom Hfacs Hrun'.
  pose proof (run_caches_grow _ _ _ _ _ Hrun') as Hgrow'.
  apply session_caches_grow in Hsession.
  assert (caches_grow s1 t1) as Hgrow by (by trans t).
  apply run_Ok_inv in Hrun as (q0 & s2 & Hq0 & Hsteps & Hc).
  assert (q0 = q) as -> by congruence.
  apply steps_same_graph in Hsteps as [Hvar _ _ _ _ _ _ _ Hev2 Hqv]. simpl in *.
  destruct (Hvar q) as (_ & Hdom2 & Hfacs2 & _).
  destruct (compute_distribution_formula s2 s1 q Hc Hqv)
    as (fv & d & Hfv & Hsame & Hd & Hmsg & Hval).
  apply run_Ok_inv in Hrun' as (q0 & t2 & Hq0' & Hsteps' & Hc').
  assert (q0 = q) as -> by congruence.
  apply steps_same_graph in Hsteps' as [Hvar' _ _ _ _ _ _ _ Hev2' Hqv']. simpl in *.
  destruct (Hvar' q) as (_ & Hdom2' & Hfacs2' & _).
  destruct (compute_distribution_formula t2 t1 q Hc' Hqv')
    as (fv' & d' & Hfv' & Hsame' & Hd' & Hmsg' & Hval').
  exists d, d'. split; [done|]. split; [done|].
  rewrite Hdom2', Hfacs2', Hdom, Hfacs, <- Hdom2, <- Hfacs2 in Hval'.
  rewrite <- Hdom2. intros v Hv. rewrite Hval', Hval by done.
  assert (∀ a w, a ∈ var_factors (var_obj s2 q) → w ∈ domain (var_obj s2 q) →
                 msg_of fv' q a w = msg_of fv q a w) as Heq.
  { intros a w Ha Hw. apply (msg_of_kept s1 t1 (_evidence_tuples s)); [done|..].
    - by rewrite Hsame, <- Hev2.
    - by rewrite Hsame', <- Hev, <- Hev2'.
    - rewrite Hmsg by done. by eexists. }
  assert (∀ w, w ∈ domain (var_obj s2 q) →
               fsum (map (fun a => msg_of fv' q a w) (var_factors (var_obj s2 q)))
               = fsum (map (fun a => msg_of fv q a w) (var_factors (var_obj s2 q)))) as Hsum.
  { intros w Hw. apply fsum_map_ext. intros a Ha. by apply Heq. }
  rewrite (Hsum v Hv). do 2 f_equal.
  apply fsum_map_ext. intros w Hw. by rewrite (Hsum w Hw).
Qed.

(** * Concrete runs and instances *)

(** ** Instances *)

Lemma relay_vf_keys : keys_agree relay_vf.
Proof.
  intros a b m Hm. unfold relay_vf in Hm.
  apply lookup_insert_Some in Hm as [[[= <- <-] <-]|[_ Hm]]; [done|].
  apply lookup_singleton_Some in Hm as [[= <- <-] <-]. done.
Qed.

Lemma relay_engine_neighbours (dom2 : list Z) (fv vf : gmap (nat * nat) Message) :
  evidential_neighbours (relay_engine dom2 fv vf) 0 0 = [2] ∧
  free_neighbours (relay_engine dom2 fv vf) 0 0 = [1].
Proof. split; vm_compute; reflexivity. Qed.

Lemma relay_engine_stores (dom2 : list Z) (fv vf : gmap (nat * nat) Message) :
  _factor_to_variable_messages (relay_engine dom2 fv vf)
    !! _evidence_tuples (relay_engine dom2 fv vf) = Some fv ∧
  _variable_to_factor_messages (relay_engine dom2 fv vf)
    !! _evidence_tuples (relay_engine dom2 fv vf) = Some vf.
Proof. split; simpl; apply lookup_singleton_eq. Qed.

Lemma relay_engine_free (dom2 : list Z) (fv : gmap (nat * nat) Message) (y : nat) :
  y ∈ free_neighbours (relay_engine dom2 fv relay_vf) 0 0 →
  domain (var_obj (relay_engine dom2 fv relay_vf) y) ≠ [] ∧
  ∀ v, v ∈ domain (var_obj (relay_engine dom2 fv relay_vf) y) →
       message_value relay_vf y 0 v = Some (relay_msg y v).
Proof.
  destruct (relay_engine_neighbours dom2 fv relay_vf) as [_ ->].
  intros ->%list_elem_of_singleton. split; [done|]. simpl.
  intros v [->|[->|Hv]%elem_of_cons]%elem_of_cons; [by vm_compute..|].
  by apply elem_of_nil in Hv.
Qed.

Lemma relay_engine_factor (dom2 : list Z) (fv vf : gmap (nat * nat) Message) (a : list Z)
    (v : Z) :
  a ∈ evaluate_variables (var_obj (relay_engine dom2 fv vf))
        (free_neighbours (relay_engine dom2 fv vf) 0 0) →
  v ∈ domain (var_obj (relay_engine dom2 fv vf) 0) →
  factor_call (var_obj (relay_engine dom2 fv vf)) (fac_obj (relay_engine dom2 fv vf) 0)
    (zip (free_neighbours (relay_engine dom2 fv vf) 0 0) a ++ [(0, v)])
  = Ok (relay_fval a v).
Proof.
  destruct (relay_engine_neighbours dom2 fv vf) as [_ ->]. simpl.
  intros [->|[->|Ha]%elem_of_cons]%elem_of_cons
         [->|[->|Hv]%elem_of_cons]%elem_of_cons;
    try (by apply elem_of_nil in Ha); try (by apply elem_of_nil in Hv);
    vm_compute; reflexivity.
Qed.

Lemma relay_engine_positive (dom2 : list Z) (fv vf : gmap (nat * nat) Message) (v : Z) :
  v ∈ domain (var_obj (relay_engine dom2 fv vf) 0) →
  (0 < spec_sum (relay_engine dom2 fv vf) 0 0 relay_msg relay_fval v)%R.
Proof.
  intros _. apply spec_sum_pos.
  - destruct (relay_engine_neighbours dom2 fv vf) as [_ ->]. done.
  - destruct (relay_engine_neighbours dom2 fv vf) as [_ ->]. simpl.
    intros a [->|[->|Ha]%elem_of_cons]%elem_of_cons; [| |by apply elem_of_nil in Ha];
      simpl; case_bool_decide; lra.
Qed.

(** ** Witnesses *)


(** C10 at the relay engine, the evidentiary variable 2 observed at [1]
    while its domain still starts with [0]: the incoming message is read at
    [0], and the evidential sum is off by [-1]. *)
Lemma evidential_first_value_witness :
  ∃ s' fv',
    _compute_factor_to_variable_message_not_from_leaf 0 0
      (relay_engine [0%Z; 1%Z] ∅ relay_vf) = (Ok tt, s') ∧
    _factor_to_variable_messages s' !! _evidence_tuples s' = Some fv' ∧
    (∀ v, v ∈ domain (var_obj (relay_engine [0%Z; 1%Z] ∅ relay_vf) 0) →
          message_value fv' 0 0 v =
          Some (spec_evidential_sum (relay_engine [0%Z; 1%Z] ∅ relay_vf) 0 0 relay_msg
                  (fun _ => 0%Z)
                + spec_M (relay_engine [0%Z; 1%Z] ∅ relay_vf) 0 0 relay_msg
                + ln (spec_sum (relay_engine [0%Z; 1%Z] ∅ relay_vf) 0 0 relay_msg
                        relay_fval v))%R) ∧
    (spec_evidential_sum (relay_engine [0%Z; 1%Z] ∅ relay_vf) 0 0 relay_msg (fun _ => 0%Z)
     - spec_evidential_sum (relay_engine [0%Z; 1%Z] ∅ relay_vf) 0 0 relay_msg (fun _ => 1%Z)
     = -1)%R.
Proof.
  destruct (evidential_message_read_at_first_domain_value
              (relay_engine [0%Z; 1%Z] ∅ relay_vf) 0 0 relay_msg relay_fval
              (fun _ => 0%Z) (fun _ => 1%Z) ∅ relay_vf)
    as (s' & fv' & Hrun & Hst & Hval & Hdiff & _).
  - apply relay_engine_stores.
  - apply lookup_empty.
  - apply relay_engine_stores.
  - apply relay_vf_keys.
  - destruct (relay_engine_neighbours [0%Z; 1%Z] ∅ relay_vf) as [-> _].
    intros e ->%list_elem_of_singleton. by vm_compute.
  - apply relay_engine_free.
  - apply relay_engine_factor.
  - apply relay_engine_positive.
  - exists s', fv'. split; [exact Hrun|]. split; [exact Hst|]. split; [exact Hval|].
    rewrite Hdiff. destruct (relay_engine_neighbours [0%Z; 1%Z] ∅ relay_vf) as [-> _].
    unfold relay_msg. simpl. lra.
Defined.

(** C5 at the relay engine: the message of the variable 1 to the factor 0
    is the message of its other factor, the leaf factor 1. *)
Lemma variable_to_factor_rule_witness :
  ∃ s' vf',
    _compute_variable_to_factor_message_not_from_leaf 1 0 (relay_engine [1%Z] relay_fv ∅)
    = (Ok tt, s') ∧
    _variable_to_factor_messages s' !! _evidence_tuples s' = Some vf' ∧
    message_value vf' 1 0 0%Z = Some (1 + 0)%R ∧
    message_value vf' 1 0 1%Z = Some (2 + 0)%R.
Proof.
  destruct (variable_to_factor_rule (relay_engine [1%Z] relay_fv ∅) 1 0 relay_fv ∅
              (fun _ v => IZR (v + 1)))
    as [(s' & vf' & Hrun & Hst & Hval & _) _].
  - apply relay_engine_stores.
  - apply relay_engine_stores.
  - apply lookup_empty.
  - simpl. intros g v [->|[->|Hg]%elem_of_cons]%elem_of_cons Hne
                      [->|[->|Hv]%elem_of_cons]%elem_of_cons;
      try done; try (by apply elem_of_nil in Hg); try (by apply elem_of_nil in Hv);
      vm_compute; reflexivity.
  - exists s', vf'. split; [exact Hrun|]. split; [exact Hst|]. split.
    + rewrite (Hval 0%Z) by (simpl; left). reflexivity.
    + rewrite (Hval 1%Z) by (simpl; right; left). reflexivity.
Defined.

(** ** Runs evaluated step by step *)

#[local] Transparent gmap_empty.

Ltac eval_engine :=
  cbv -[exp ln Rplus Rmult Rminus Rdiv Rinv Ropp Rlt_dec Req_dec_T Rmax Rle_dec IZR
        math_log truediv].

(** Every [exp] in the goal is positive; then linear arithmetic. *)
Ltac exp_lra :=
  repeat match goal with
         | |- context [exp ?x] =>
             lazymatch goal with
             | _ : (0 < exp x)%R |- _ => fail
             | _ => pose proof (exp_pos x)
             end
         end;
  try nra.


(** ** Big-step rules for [run] *)

Lemma main_loop_stop (fuel : nat) (s : BP) :
  _get_running_condition s = (Ok false, s) → main_loop fuel s = Some (Ok tt, s).
Proof. intros H. destruct fuel; simpl; by rewrite H. Qed.

Lemma main_loop_pass (fuel : nat) (s s1 : BP) (r : option (result unit * BP)) :
  _get_running_condition s = (Ok true, s) →
  loop_body s = (Ok tt, s1) →
  main_loop fuel s1 = r →
  main_loop (S fuel) s = r.
Proof. intros H1 H2 H3. simpl. by rewrite H1, H2. Qed.

Lemma run_returns (fuel : nat) (print_info : bool) (s s1 s2 s3 : BP) :
  run_before_loop print_info s = (Ok tt, s1) →
  main_loop fuel s1 = Some (Ok tt, s2) →
  _compute_distribution s2 = (Ok tt, s3) →
  run fuel print_info s = Some (Ok tt, s3).
Proof.
  intros H1 H2 H3. unfold run. rewrite H1, H2. rewrite bind_run, H3. done.
Qed.

Lemma chain_engine_run (c : R) :
  (-1 < c)%R →
  ∃ s' d, run 1 false (chain_engine c) = Some (Ok tt, s') ∧ _distribution s' = Some d ∧
          computed s' = [(VariableToFactor, [], 1, 0); (FactorToVariable, [], 0, 0)].
Proof.
  intros Hc.
  eassert (run 1 false (chain_engine c) = Some (Ok tt, _)) as Hrun.
  { eapply run_returns.
    - eval_engine; reflexivity.
    - eapply main_loop_pass.
      + eval_engine; reflexivity.
      + eval_engine. rewrite !math_log_pos by exp_lra. eval_engine; reflexivity.
      + apply main_loop_stop. eval_engine; reflexivity.
    - eval_engine. rewrite !truediv_Ok by exp_lra. eval_engine; reflexivity. }
  eexists _, _. split; [exact Hrun|]. split; reflexivity.
Qed.

(** C1 on the chain with the factor [1] everywhere. *)
Lemma run_distribution_witness :
  ∃ s' d, run 1 false (chain_engine 1) = Some (Ok tt, s') ∧
          _distribution s' = Some d ∧
          dict_keys d = [[0%Z]; [1%Z]] ∧
          Forall (fun p => (0 <= p)%R) (dict_values d) ∧
          fsum (dict_values d) = 1%R.
Proof.
  assert (-1 < 1)%R as Hc by lra.
  destruct (chain_engine_run 1 Hc) as (s' & d0 & Hrun & _).
  destruct (run_distribution_normalized 1 false (chain_engine 1) s' 0 Hrun)
    as (d & Hd & Hkeys & Hpos & Hsum).
  - reflexivity.
  - apply NoDup_cons. split; [by intros ?%list_elem_of_singleton|apply NoDup_singleton].
  - done.
  - by exists s', d.
Defined.

(** C7 as specified fails: the factor of the chain is [-1/2] at
    [(0, 0)], an assignment the interior rule evaluates, and [run] returns
    a distribution all the same. *)
Lemma negative_factor_run_returns :
  ∃ s' d, run 1 false (chain_engine (-1 / 2)) = Some (Ok tt, s') ∧
          _distribution s' = Some d ∧
          factor_call (var_obj (chain_engine (-1 / 2))) (fac_obj (chain_engine (-1 / 2)) 0)
            [(1, 0%Z); (0, 0%Z)] = Ok (-1 / 2)%R.
Proof.
  assert (-1 < -1 / 2)%R as Hc by lra.
  destruct (chain_engine_run (-1 / 2) Hc) as (s' & d & Hrun & Hd & _).
  exists s', d. split; [done|]. split; [done|]. reflexivity.
Qed.

(** C7 at the relay engine: the leaf factor 2 is zero and fails, the leaf
    factor 1 and the interior factor 0 pass. *)
Lemma math_domain_error_witness :
  _compute_factor_to_variable_message_from_leaf 2 1 (relay_engine [1%Z] ∅ relay_vf)
  = (Err (ValueError MathDomain), relay_engine [1%Z] ∅ relay_vf) ∧
  (∃ s', _compute_factor_to_variable_message_from_leaf 1 1 (relay_engine [1%Z] ∅ relay_vf)
         = (Ok tt, s')) ∧
  (∃ s', _compute_factor_to_variable_message_not_from_leaf 0 0
           (relay_engine [1%Z] ∅ relay_vf) = (Ok tt, s')).
Proof.
  destruct (math_domain_error_reaches_the_logarithm (relay_engine [1%Z] ∅ relay_vf) ∅)
    as [Hleaf Hinterior]; [apply relay_engine_stores|].
  split; [|split].
  - apply (Hleaf 2 1 (fun _ => 0%R)); [apply lookup_empty|done|].
    exists 0%Z. split; [left|simpl; lra].
  - apply (Hleaf 1 1 (fun _ => 1%R)); [apply lookup_empty|done|].
    intros v _. simpl. lra.
  - apply (Hinterior 0 0 relay_msg relay_fval (fun _ => 1%Z) relay_vf).
    + apply lookup_empty.
    + apply relay_engine_stores.
    + apply relay_vf_keys.
    + destruct (relay_engine_neighbours [1%Z] ∅ relay_vf) as [-> _].
      intros e ->%list_elem_of_singleton. by vm_compute.
    + apply relay_engine_free.
    + apply relay_engine_factor.
    + apply relay_engine_positive.
Defined.

(** C8 on an engine without a query. *)
Lemma run_invalid_query_witness :
  ∃ e, run 1 false empty_query_engine = Some (Err (ValidationError e), empty_query_engine).
Proof. apply run_invalid_query_validation_error. by left. Defined.

(** C9 on an engine without a query. *)
Lemma run_validation_failure_witness :
  run 1 false empty_query_engine
  = Some (Err (ValidationError EmptyQuery), empty_query_engine).
Proof.
  destruct (run_validation_failure_keeps_state empty_query_engine empty_query_engine
              (ValidationError EmptyQuery) 1 false eq_refl)
    as (_ & s' & Hrun & _ & _ & _ & _ & _ & _ & ->).
  exact Hrun.
Defined.

(** C6 on the two-variable cycle. *)
Lemma run_on_cycle_witness :
  run 3 false cycle_engine = None ∨
  ∃ e s', run 3 false cycle_engine = Some (Err e, s').
Proof.
  apply (run_on_cyclic_graph_never_returns_a_result cycle_engine 0 cycle_nodes).
  - apply cycle_engine_wf.
  - apply cycle_engine_cycle.
  - reflexivity.
Defined.

(** C4 on a session of one run of the chain engine: two messages are
    computed, each once, and both are in the caches. *)
Lemma messages_computed_once_witness :
  ∃ s1, run 1 false (chain_engine 1) = Some (Ok tt, s1) ∧
        computed s1 = [(VariableToFactor, [], 1, 0); (FactorToVariable, [], 0, 0)] ∧
        NoDup (computed s1) ∧
        ∀ k, k ∈ computed s1 → is_Some (stored s1 k).
Proof.
  assert (-1 < 1)%R as Hc by lra.
  destruct (chain_engine_run 1 Hc) as (s1 & d & Hrun & _ & Hcomputed).
  destruct (messages_computed_at_most_once (chain_engine 1) s1) as (Hnd & Hin & _).
  - apply rtc_once. by eapply session_run.
  - reflexivity.
  - by exists s1.
Defined.

Lemma bucket_example_set : Bucket.variables_set bucket_example.
Proof.
  split; simpl.
  - by intros ?%list_elem_of_singleton.
  - intros f x [->|[->|Hf]%elem_of_cons]%elem_of_cons; [| |by apply elem_of_nil in Hf];
      simpl.
    + intros [->|[->|Hx]%elem_of_cons]%elem_of_cons; [by left|right; left; left|].
      by apply elem_of_nil in Hx.
    + intros ->%list_elem_of_singleton. by left.
Qed.

Lemma bucket_example_defined (a : list Z) (v : Z) (log_factor : factor) :
  a ∈ evaluate_variables bucket_heap (Bucket._free_variables bucket_example) →
  v ∈ domain (bucket_heap (Bucket._variable bucket_example)) →
  log_factor ∈ Bucket._input_log_factors bucket_example →
  ∃ r, Bucket.log_factor_at bucket_heap bucket_example a v log_factor = Ok r.
Proof.
  simpl. intros [->|[->|Ha]%elem_of_cons]%elem_of_cons
                [->|[->|Hv]%elem_of_cons]%elem_of_cons
                [->|[->|Hf]%elem_of_cons]%elem_of_cons;
    try (by apply elem_of_nil in Ha); try (by apply elem_of_nil in Hv);
    try (by apply elem_of_nil in Hf);
    eexists; vm_compute; reflexivity.
Qed.

(** C3 at the example bucket. *)
Lemma bucket_log_sum_exp_witness :
  ∃ F, Bucket.compute_output_log_factor bucket_heap bucket_example = Ok F ∧
       fac_variables F = [1] ∧
       ∀ a, a ∈ [[0%Z]; [1%Z]] →
            ∃ r, function F a = Ok r ∧ Bucket.brute_force bucket_heap bucket_example a = Ok r.
Proof.
  apply (compute_output_log_factor_is_log_sum_exp bucket_heap bucket_example).
  - apply bucket_example_set.
  - done.
  - done.
  - apply bucket_example_defined.
Defined.

(** C3 as specified fails: the bucket of the variable 0 without input
    log-factors has nothing to set, its brute-force value at the empty
    assignment is [ln 2], and [compute_output_log_factor] raises the
    [ValueError] of [max] on an empty sequence. *)
Lemma bucket_without_log_factors_raises :
  Bucket.variables_set empty_bucket ∧
  [] ∈ evaluate_variables bucket_heap (Bucket._free_variables empty_bucket) ∧
  Bucket.brute_force bucket_heap empty_bucket [] = Ok (ln 2) ∧
  Bucket.compute_output_log_factor bucket_heap empty_bucket
  = Err (ValueError EmptySequence).
Proof.
  split; [|split; [|split]].
  - split; simpl; [apply not_elem_of_nil|]. intros f x Hf. by apply elem_of_nil in Hf.
  - simpl. left.
  - unfold Bucket.brute_force. simpl. rewrite exp_0.
    replace (1 + (1 + 0))%R with 2%R by lra. apply math_log_pos. lra.
  - unfold Bucket.compute_output_log_factor.
    change (evaluate_variables bucket_heap (Bucket._free_variables empty_bucket))
      with [@nil Z].
    unfold dict_comp. cbn [dict_comp_from].
    by rewrite output_value_empty_max by by left.
Qed.

(** ** Further witnesses *)

(** The run of the chain engine leaves the model as it was. *)
Lemma run_changes_traversal_fields_only_witness :
  ∃ s', run 1 false (chain_engine 1) = Some (Ok tt, s') ∧ same_model (chain_engine 1) s'.
Proof.
  assert (-1 < 1)%R as Hc by lra.
  destruct (chain_engine_run 1 Hc) as (s' & d & Hrun & _).
  exists s'. split; [exact Hrun|].
  exact (run_changes_traversal_fields_only 1 false (chain_engine 1) s' (Ok tt) Hrun).
Defined.

(** The run of the chain engine, whose evidence is empty, leaves the stores
    of the evidence [1 = 0] as they were: absent. *)
Lemma run_keeps_the_stores_of_other_evidence_witness :
  ∃ s', run 1 false (chain_engine 1) = Some (Ok tt, s') ∧
        _factor_to_variable_messages s' !! [(1, 0%Z)] = None ∧
        _variable_to_factor_messages s' !! [(1, 0%Z)] = None.
Proof.
  assert (-1 < 1)%R as Hc by lra.
  destruct (chain_engine_run 1 Hc) as (s' & d & Hrun & _).
  exists s'. split; [exact Hrun|].
  destruct (run_keeps_the_stores_of_other_evidence 1 false (chain_engine 1) s' (Ok tt) Hrun)
    as [_ Hother].
  destruct (Hother [(1, 0%Z)]) as [-> ->]; [done|]. split; reflexivity.
Defined.

(** The run of the chain engine returns and leaves a distribution. *)
Lemma run_failure_leaves_no_distribution_witness :
  ∃ s', run 1 false (chain_engine 1) = Some (Ok tt, s') ∧ is_Some (_distribution s').
Proof.
  assert (-1 < 1)%R as Hc by lra.
  destruct (chain_engine_run 1 Hc) as (s' & d & Hrun & _).
  exists s'. split; [exact Hrun|].
  exact (run_failure_leaves_no_distribution 1 false (chain_engine 1) s' (Ok tt) Hrun).
Defined.

(** The two-variable cycle has no leaves: ten passes do not suffice. *)
Lemma run_without_leaves_never_returns_witness :
  run 10 true cycle_engine = None.
Proof.
  apply (run_without_leaves_never_returns cycle_engine 0 10 true).
  - reflexivity.
  - simpl. apply not_elem_of_nil.
  - simpl. left.
  - done.
  - reflexivity.
  - reflexivity.
Defined.

(** The run of the chain engine: the distribution is the normalised
    exponential of the one message the query variable receives. *)
Lemma run_distribution_is_the_normalized_belief_witness :
  ∃ s' fv d,
    run 1 false (chain_engine 1) = Some (Ok tt, s') ∧
    _factor_to_variable_messages s' !! [] = Some fv ∧
    _distribution s' = Some d ∧
    ∀ v, v ∈ [0; 1]%Z →
         dict_get d [v] =
         Some (exp (fsum [msg_of fv 0 0 v]) /
               fsum [exp (fsum [msg_of fv 0 0 0%Z]); exp (fsum [msg_of fv 0 0 1%Z])])%R.
Proof.
  assert (-1 < 1)%R as Hc by lra.
  destruct (chain_engine_run 1 Hc) as (s' & d0 & Hrun & _).
  destruct (run_distribution_is_the_normalized_belief 1 false (chain_engine 1) s' 0 Hrun)
    as (fv & d & Hfv & Hd & _ & Hval); [reflexivity|].
  by exists s', fv, d.
Defined.


(** The bucket without log-factors. *)
Lemma compute_output_log_factor_without_inputs_witness :
  Bucket.compute_output_log_factor bucket_heap empty_bucket = Err (ValueError EmptySequence).
Proof.
  apply (compute_output_log_factor_without_inputs bucket_heap empty_bucket).
  - left. reflexivity.
  - constructor.
Defined.

(** The example bucket on a heap in which its free variable has no value. *)
Lemma compute_output_log_factor_without_assignments_witness :
  ∃ F, Bucket.compute_output_log_factor hollow_heap bucket_example = Ok F ∧
       fac_variables F = [1] ∧
       ∀ a, function F a = Err KeyError.
Proof.
  apply (compute_output_log_factor_without_assignments hollow_heap bucket_example).
  left. reflexivity.
Defined.

Lemma bucket_example_computes :
  ∃ F, Bucket.compute_output_log_factor bucket_heap bucket_example = Ok F.
Proof.
  unfold Bucket.compute_output_log_factor.
  destruct (dict_comp_Ok (fun a : list Z => a)
              (Bucket.output_value bucket_heap bucket_example)
              (fun a => from_Ok 0%R (Bucket.output_value bucket_heap bucket_example a))
              (evaluate_variables bucket_heap (Bucket._free_variables bucket_example)))
    as (d & -> & _); [|by eexists].
  intros a Ha.
  rewrite (bucket_output_value bucket_heap bucket_example a bucket_example_set Ha);
    [done..|].
  intros v f Hv Hf. by apply bucket_example_defined.
Qed.

(** The output log-factor of the example bucket: defined at [(0)] and
    [(1)], a [KeyError] at [(2)]. *)
Lemma output_log_factor_is_defined_on_the_assignments_witness :
  ∃ F, Bucket.compute_output_log_factor bucket_heap bucket_example = Ok F ∧
       fac_variables F = [1] ∧
       (∃ r, function F [0%Z] = Ok r) ∧ (∃ r, function F [1%Z] = Ok r) ∧
       function F [2%Z] = Err KeyError.
Proof.
  destruct bucket_example_computes as [F HF]. exists F. split; [exact HF|].
  destruct (output_log_factor_is_defined_on_the_assignments bucket_heap bucket_example F HF)
    as (_ & Hvars & _ & Htable).
  split; [exact Hvars|]. split; [|split].
  - apply (Htable [0%Z]). simpl. left.
  - apply (Htable [1%Z]). simpl. right. left.
  - apply (Htable [2%Z]). simpl.
    intros [[=]|[[=]|H]%elem_of_cons]%elem_of_cons. by apply elem_of_nil in H.
Defined.

(** The leaf factor 1 of the relay engine, which is [1] everywhere. *)
Lemma leaf_factor_message_witness :
  ∃ s' m,
    _compute_factor_to_variable_message_from_leaf 1 1 (relay_engine [1%Z] ∅ relay_vf)
    = (Ok tt, s') ∧
    _factor_to_variable_messages s' !! [(2, 1%Z)] = Some {[ (1, 1) := m ]} ∧
    Message_call m 0%Z = Ok (ln 1) ∧ Message_call m 1%Z = Ok (ln 1) ∧
    Message_call m 2%Z = Err KeyError.
Proof.
  destruct (leaf_factor_message_is_the_log_of_the_factor (relay_engine [1%Z] ∅ relay_vf)
              1 1 ∅ (fun _ => 1%R))
    as (s' & m & Hrun & Hstore & _ & _ & Hin & Hout & _).
  - apply relay_engine_stores.
  - apply lookup_empty.
  - done.
  - intros v _. lra.
  - exists s', m. split; [exact Hrun|]. split; [exact Hstore|]. split; [|split].
    + apply Hin. simpl. left.
    + apply Hin. simpl. right. left.
    + apply Hout. simpl.
      intros [[=]|[[=]|H]%elem_of_cons]%elem_of_cons. by apply elem_of_nil in H.
Defined.

Lemma remove_dups_iterates_sets : iterates_sets remove_dups.
Proof. intros l. split; [apply NoDup_remove_dups|]. intros x. apply elem_of_remove_dups. Qed.

Lemma reverse_remove_dups_iterates_sets : iterates_sets (fun l => reverse (remove_dups l)).
Proof.
  intros l. split.
  - rewrite reverse_Permutation. apply NoDup_remove_dups.
  - intros x. rewrite elem_of_reverse. apply elem_of_remove_dups.
Qed.

(** The example bucket, its variables set: the variable 1 is free. *)
Lemma set_evidential_and_free_variables_witness :
  Bucket.variables_set (Bucket.set_evidential_and_free_variables bucket_heap remove_dups
                          raw_bucket) ∧
  Bucket._free_variables (Bucket.set_evidential_and_free_variables bucket_heap remove_dups
                            raw_bucket) = [1] ∧
  Bucket._evidential_variables (Bucket.set_evidential_and_free_variables bucket_heap
                                  remove_dups raw_bucket) = [].
Proof.
  destruct (set_evidential_and_free_variables_partitions bucket_heap remove_dups raw_bucket
              remove_dups_iterates_sets) as (Hset & _).
  split; [exact Hset|]. split; reflexivity.
Defined.

(** The example bucket on the heap with names: the set iterated in either
    direction, the free variables are the same. *)
Lemma free_variables_set_order_witness :
  Bucket._free_variables
    (Bucket.set_evidential_and_free_variables named_heap remove_dups raw_bucket)
  = Bucket._free_variables
      (Bucket.set_evidential_and_free_variables named_heap
         (fun l => reverse (remove_dups l)) raw_bucket).
Proof.
  apply (free_variables_do_not_depend_on_the_set_order named_heap remove_dups
           (fun l => reverse (remove_dups l)) raw_bucket).
  - apply remove_dups_iterates_sets.
  - apply reverse_remove_dups_iterates_sets.
  - simpl. intros f g x y
      [->|[->|Hf]%elem_of_cons]%elem_of_cons [->|[->|Hg]%elem_of_cons]%elem_of_cons;
      try (by apply elem_of_nil in Hf); try (by apply elem_of_nil in Hg); simpl;
      intros Hx Hy;
      repeat match goal with
             | H : _ ∈ _ :: _ |- _ => apply elem_of_cons in H as [->|H]
             | H : _ ∈ [] |- _ => by apply elem_of_nil in H
             end; done.
Defined.

Lemma chain_engine_run_edited :
  ∃ s1 t1, run 1 false (chain_engine 1) = Some (Ok tt, s1) ∧
           run 1 true (replace_factor s1) = Some (Ok tt, t1) ∧
           _query s1 = [0] ∧ _evidence_tuples s1 = [] ∧
           domain (var_obj s1 0) = [0; 1]%Z ∧ var_factors (var_obj s1 0) = [0].
Proof.
  eassert (run 1 false (chain_engine 1) = Some (Ok tt, _)) as Hrun.
  { eapply run_returns.
    - eval_engine; reflexivity.
    - eapply main_loop_pass.
      + eval_engine; reflexivity.
      + eval_engine. rewrite !math_log_pos by exp_lra. eval_engine; reflexivity.
      + apply main_loop_stop. eval_engine; reflexivity.
    - eval_engine. rewrite !truediv_Ok by exp_lra. eval_engine; reflexivity. }
  eexists _, _. split; [exact Hrun|]. split; [|repeat split; reflexivity].
  eapply run_returns.
  - eval_engine; reflexivity.
  - eapply main_loop_pass.
    + eval_engine; reflexivity.
    + eval_engine; reflexivity.
    + apply main_loop_stop. eval_engine; reflexivity.
  - eval_engine. rewrite !truediv_Ok by exp_lra. eval_engine; reflexivity.
Qed.

(** The chain engine is run, its factor is replaced by another one, and a
    second run returns the distribution of the first. *)
Lemma later_run_returns_the_cached_distribution_witness :
  ∃ s1 t1 d d',
    run 1 false (chain_engine 1) = Some (Ok tt, s1) ∧
    run 1 true (replace_factor s1) = Some (Ok tt, t1) ∧
    _distribution s1 = Some d ∧ _distribution t1 = Some d' ∧
    ∀ v, v ∈ [0; 1]%Z → dict_get d' [v] = dict_get d [v].
Proof.
  destruct chain_engine_run_edited as (s1 & t1 & Hrun & Hrun' & Hq & Hev & Hdom & Hfacs).
  destruct (later_run_returns_the_cached_distribution 1 1 false true
              (chain_engine 1) s1 (replace_factor s1) t1 0 Hrun) as (d & d' & Hd & Hd' & Heq).
  - reflexivity.
  - apply rtc_once, session_caller. done.
  - exact Hq.
  - exact Hev.
  - exact Hdom.
  - exact Hfacs.
  - exact Hrun'.
  - by exists s1, t1, d, d'.
Defined.
